(** * Tic-tac-toe: rules engine and computer opponents

    A shallow embedding of [game_logic.py], [ai_easy.py], [ai_medium.py] and
    [ai_hard.py].  Python lists that are indexed or assigned in place are
    lists with stdpp's lookup and insert; an index outside the list raises
    [IndexError], which the embedding keeps as a result of its own.  Board
    indices are natural numbers: the code indexes with [range(9)] and with
    history entries, which the engine records from validated positions.
    Code that mutates the caller's board returns the board it leaves
    behind. *)

From Stdlib Require Import ZArith Lia.
From stdpp Require Import base option list gmap sorting.

Open Scope Z_scope.

(** ** Marks, cells and boards *)

Inductive player := X | O.

Global Instance player_eq_dec : EqDecision player.
Proof. solve_decision. Defined.

Global Instance player_countable : Countable player.
Proof.
  refine (inj_countable' (λ p, match p with X => false | O => true end)
                         (λ b : bool, if b then O else X) _).
  by intros [].
Defined.

(** A cell is [None] (empty) or holds a mark, as [Optional[str]] does. *)
Abbreviation cell := (option player).
Abbreviation Board := (list (option player)).

(** ** Results: a value, or a raised [IndexError]; [OutOfFuel] is the
    embedding's own and is shown unreachable for the fuel the entry points
    pass. *)

Inductive result (A : Type) : Type :=
| Ok (a : A)
| IndexError
| OutOfFuel.
Arguments Ok {A} a.
Arguments IndexError {A}.
Arguments OutOfFuel {A}.

Definition rbind {A B} (m : result A) (k : A → result B) : result B :=
  match m with
  | Ok a => k a
  | IndexError => IndexError
  | OutOfFuel => OutOfFuel
  end.

Global Instance result_bind : MBind result := λ A B k m, rbind m k.
Global Instance result_ret : MRet result := λ A a, Ok a.

(** [seq[i]] for a non-negative [i]. *)
Definition getitem {A} (l : list A) (i : nat) : result A :=
  match l !! i with
  | Some a => Ok a
  | None => IndexError
  end.

(** [seq[i] = v] for a non-negative [i]. *)
Definition setitem {A} (l : list A) (i : nat) (v : A) : result (list A) :=
  if (i <? length l)%nat then Ok (<[i:=v]> l) else IndexError.

(** [all(f(x) for x in l)] and [any(f(x) for x in l)]: both stop at the
    first deciding element, so later elements are not evaluated. *)
Fixpoint all_of {A} (f : A → result bool) (l : list A) : result bool :=
  match l with
  | [] => Ok true
  | x :: l' => b ← f x; if b : bool then all_of f l' else Ok false
  end.

Fixpoint any_of {A} (f : A → result bool) (l : list A) : result bool :=
  match l with
  | [] => Ok false
  | x :: l' => b ← f x; if b : bool then Ok true else any_of f l'
  end.

(** [[x for x in l if f(x)]] where [f] may raise. *)
Fixpoint filter_of {A} (f : A → result bool) (l : list A) : result (list A) :=
  match l with
  | [] => Ok []
  | x :: l' =>
      b ← f x;
      r ← filter_of f l';
      Ok (if b : bool then x :: r else r)
  end.

(** [range(9)] *)
Definition range9 : list nat := seq 0 9.

Definition WINNING_COMBINATIONS : list (nat * nat * nat) :=
  [ (0, 1, 2); (3, 4, 5); (6, 7, 8);
    (0, 3, 6); (1, 4, 7); (2, 5, 8);
    (0, 4, 8); (2, 4, 6) ]%nat.

Definition combo_cells (combo : nat * nat * nat) : list nat :=
  let '(a, b, c) := combo in [a; b; c].

Definition is_none (c : cell) : bool :=
  match c with None => true | Some _ => false end.

Definition cell_is (p : player) (c : cell) : bool := bool_decide (c = Some p).

(** [values.count(v)] *)
Definition count_cells (v : cell) (values : list cell) : nat :=
  length (filter (λ c, c = v) values).

(** [check_winner(board, player)] *)
Definition check_winner (b : Board) (p : player) : result bool :=
  any_of (λ combo,
            all_of (λ i, c ← getitem b i; Ok (cell_is p c))
                   (combo_cells combo))
         WINNING_COMBINATIONS.

(** [is_board_full(board)] *)
Definition is_board_full (b : Board) : bool :=
  forallb (λ c, negb (is_none c)) b.

(** [[i for i in range(9) if board[i] is None]] *)
Definition empty_cells (b : Board) : result (list nat) :=
  filter_of (λ i, c ← getitem b i; Ok (is_none c)) range9.

(** The loop of [get_winning_combination]: the first combination whose
    three cells all hold [w]. *)
Fixpoint find_combination (combos : list (nat * nat * nat)) (b : Board)
    (w : player) : result (option (nat * nat * nat)) :=
  match combos with
  | [] => Ok None
  | combo :: rest =>
      full ← all_of (λ i, c ← getitem b i; Ok (cell_is w c))
                    (combo_cells combo);
      if full : bool then Ok (Some combo) else find_combination rest b w
  end.

(** ** Scores: Python ints together with [float('inf')] and [float('-inf')] *)

Inductive score := NegInf | Fin (z : Z) | PosInf.

Global Instance score_eq_dec : EqDecision score.
Proof. solve_decision. Defined.

Definition score_leb (a b : score) : bool :=
  match a, b with
  | NegInf, _ => true
  | _, PosInf => true
  | Fin x, Fin y => x <=? y
  | _, _ => false
  end.

Definition score_ltb (a b : score) : bool := negb (score_leb b a).

(** [max(a, b)] returns [a] unless [b > a]; [min(a, b)] returns [a] unless
    [b < a]. *)
Definition score_max (a b : score) : score := if score_ltb a b then b else a.
Definition score_min (a b : score) : score := if score_ltb b a then b else a.

(** ** ai_hard.py, standard game *)

Module Hard.

(** One pass of the [for pos in empty] loop of [minimax], threading the
    running [best] and the board that is mutated in place. *)
Fixpoint minimax_loop (rec : Board → result (score * Board))
    (mark : player) (pick : score → score → score)
    (empty : list nat) (best : score) (b : Board) : result (score * Board) :=
  match empty with
  | [] => Ok (best, b)
  | pos :: rest =>
      b ← setitem b pos (Some mark);
      '(s, b) ← rec b;
      let best := pick best s in
      b ← setitem b pos None;
      minimax_loop rec mark pick rest best b
  end.

(** [minimax(board, depth, is_maximizing)]; returns the score and the
    board as the call leaves it. *)
Fixpoint minimax (fuel : nat) (b : Board) (depth : Z) (is_maximizing : bool)
  : result (score * Board) :=
  match fuel with
  | 0%nat => OutOfFuel
  | S fuel' =>
      wo ← check_winner b O;
      if wo : bool then Ok (Fin (10 - depth), b) else
      wx ← check_winner b X;
      if wx : bool then Ok (Fin (depth - 10), b) else
      if is_board_full b then Ok (Fin 0, b) else
      empty ← empty_cells b;
      if is_maximizing then
        minimax_loop (λ b, minimax fuel' b (depth + 1) false)
                     O score_max empty NegInf b
      else
        minimax_loop (λ b, minimax fuel' b (depth + 1) true)
                     X score_min empty PosInf b
  end.

(** The [for pos in empty] loop of [get_hard_move]. *)
Fixpoint hard_move_loop (fuel : nat) (empty : list nat)
    (best_score : score) (best_move : nat) (b : Board)
  : result (nat * Board) :=
  match empty with
  | [] => Ok (best_move, b)
  | pos :: rest =>
      b ← setitem b pos (Some O);
      '(s, b) ← minimax fuel b 0 false;
      b ← setitem b pos None;
      if score_ltb best_score s
      then hard_move_loop fuel rest s pos b
      else hard_move_loop fuel rest best_score best_move b
  end.

(** The search never nests deeper than the nine cells it scans, plus the
    call that sees the terminal position. *)
Definition minimax_fuel : nat := 10.

(** [get_hard_move(board)]; returns the move and the board as left. *)
Definition get_hard_move (b : Board) : result (option nat * Board) :=
  empty ← empty_cells b;
  match empty with
  | [] => Ok (None, b)
  | first :: _ =>
      '(m, b) ← hard_move_loop minimax_fuel empty NegInf first b;
      Ok (Some m, b)
  end.

End Hard.

(** ** game_logic.py *)

Definition other_player (p : player) : player :=
  match p with X => O | O => X end.

Module TicTacToeGame.

Record t := mk {
  board : Board;
  current_player : player;
  game_over : bool;
  winner : option player
}.

(** [reset()], which [__init__] calls. *)
Definition reset : t :=
  {| board := replicate 9 None; current_player := X;
     game_over := false; winner := None |}.

(** [is_valid_move(position)]: the cell is read only once the game is not
    over and the position is in range. *)
Definition is_valid_move (g : t) (position : Z) : result bool :=
  if game_over g then Ok false
  else if (0 <=? position) && (position <=? 8) then
    c ← getitem (board g) (Z.to_nat position); Ok (is_none c)
  else Ok false.

(** [make_move(position)]: the returned flag and the state afterwards. *)
Definition make_move (g : t) (position : Z) : result (bool * t) :=
  valid ← is_valid_move g position;
  if negb valid then Ok (false, g) else
  b ← setitem (board g) (Z.to_nat position) (Some (current_player g));
  won ← check_winner b (current_player g);
  if won : bool then
    Ok (true, {| board := b; current_player := current_player g;
                 game_over := true; winner := Some (current_player g) |})
  else if is_board_full b then
    Ok (true, {| board := b; current_player := current_player g;
                 game_over := true; winner := None |})
  else
    Ok (true, {| board := b;
                 current_player := other_player (current_player g);
                 game_over := game_over g; winner := winner g |}).

(** [get_valid_moves()] *)
Definition get_valid_moves (g : t) : result (list nat) := empty_cells (board g).

(** [get_board_copy()]: a fresh list with the same cells. *)
Definition get_board_copy (g : t) : Board := board g.

(** The states a fresh game reaches through accepted moves. *)
Inductive reachable : t → Prop :=
| reachable_reset : reachable reset
| reachable_move g position g' :
    reachable g → make_move g position = Ok (true, g') → reachable g'.

(** [get_winning_combination()] *)
Definition get_winning_combination (g : t)
  : result (option (nat * nat * nat)) :=
  match winner g with
  | None => Ok None
  | Some w => find_combination WINNING_COMBINATIONS (board g) w
  end.

(** A scripted game: every move of the list must be accepted. *)
Fixpoint play (g : t) (positions : list Z) : option t :=
  match positions with
  | [] => Some g
  | position :: rest =>
      match make_move g position with
      | Ok (true, g') => play g' rest
      | _ => None
      end
  end.

End TicTacToeGame.

Module NoDrawGame.

Definition MAX_MARKS : nat := 3.

(** The fields of [TicTacToeGame] and the two histories (deques of board
    indices, oldest first). *)
Record t := mk {
  board : Board;
  current_player : player;
  game_over : bool;
  winner : option player;
  x_moves : list nat;
  o_moves : list nat
}.

Definition reset : t :=
  {| board := replicate 9 None; current_player := X;
     game_over := false; winner := None; x_moves := []; o_moves := [] |}.

Definition _get_player_moves (g : t) (p : player) : list nat :=
  match p with X => x_moves g | O => o_moves g end.

(** [get_oldest_mark(player)] *)
Definition get_oldest_mark (g : t) (p : player) : option nat :=
  let moves := _get_player_moves g p in
  if decide (MAX_MARKS ≤ length moves)%nat then head moves else None.

(** [is_valid_move(position)] *)
Definition is_valid_move (g : t) (position : Z) : result bool :=
  if game_over g || negb ((0 <=? position) && (position <=? 8)) then Ok false
  else
    c ← getitem (board g) (Z.to_nat position);
    match c with
    | None => Ok true
    | Some mark =>
        if negb (bool_decide (mark = current_player g)) then Ok false
        else
          let moves := _get_player_moves g (current_player g) in
          if bool_decide (MAX_MARKS ≤ length moves)%nat
             && bool_decide (head moves = Some (Z.to_nat position))
          then Ok true else Ok false
    end.

(** The state with the current player's history replaced. *)
Definition with_moves (g : t) (b : Board) (moves : list nat) : t :=
  match current_player g with
  | X => {| board := b; current_player := current_player g;
            game_over := game_over g; winner := winner g;
            x_moves := moves; o_moves := o_moves g |}
  | O => {| board := b; current_player := current_player g;
            game_over := game_over g; winner := winner g;
            x_moves := x_moves g; o_moves := moves |}
  end.

(** [make_move(position)]: evict the oldest mark at capacity, place the
    new one, then look for a winner; the board is never tested for
    fullness. *)
Definition make_move (g : t) (position : Z) : result (bool * t) :=
  valid ← is_valid_move g position;
  if negb valid then Ok (false, g) else
  let player := current_player g in
  let moves := _get_player_moves g player in
  '(moves, b) ←
     (if decide (MAX_MARKS ≤ length moves)%nat then
        match moves with
        | removed_pos :: rest =>
            b ← setitem (board g) removed_pos None; Ok (rest, b)
        | [] => IndexError
        end
      else Ok (moves, board g));
  b ← setitem b (Z.to_nat position) (Some player);
  let moves := moves ++ [Z.to_nat position] in
  let g := with_moves g b moves in
  won ← check_winner b player;
  if won : bool then
    Ok (true, {| board := board g; current_player := current_player g;
                 game_over := true; winner := Some player;
                 x_moves := x_moves g; o_moves := o_moves g |})
  else
    Ok (true, {| board := board g; current_player := other_player player;
                 game_over := game_over g; winner := winner g;
                 x_moves := x_moves g; o_moves := o_moves g |}).

(** [is_board_full()]: overridden to a constant. *)
Definition is_board_full (g : t) : bool := false.

Definition get_board_copy (g : t) : Board := board g.

(** The states a fresh game reaches through accepted moves. *)
Inductive reachable : t → Prop :=
| reachable_reset : reachable reset
| reachable_move g position g' :
    reachable g → make_move g position = Ok (true, g') → reachable g'.

(** A scripted game: every move of the list must be accepted. *)
Fixpoint play (g : t) (positions : list Z) : option t :=
  match positions with
  | [] => Some g
  | position :: rest =>
      match make_move g position with
      | Ok (true, g') => play g' rest
      | _ => None
      end
  end.

(** [get_valid_moves()] and [get_winning_combination()], inherited from
    [TicTacToeGame]. *)
Definition get_valid_moves (g : t) : result (list nat) := empty_cells (board g).

Definition get_winning_combination (g : t)
  : result (option (nat * nat * nat)) :=
  match winner g with
  | None => Ok None
  | Some w => find_combination WINNING_COMBINATIONS (board g) w
  end.

End NoDrawGame.

(** ** Randomness: [random.choice(seq)] with the generator's draw made an
    explicit argument; an empty sequence raises [IndexError]. *)
Definition random_choice {A} (rnd : nat) (l : list A) : result A :=
  getitem l (rnd mod length l)%nat.

(** ** ai_easy.py *)

Module Easy.

Definition get_easy_move (rnd : nat) (b : Board) : result (option nat) :=
  empty ← empty_cells b;
  match empty with
  | [] => Ok None
  | _ => m ← random_choice rnd empty; Ok (Some m)
  end.

Definition get_easy_move_no_draw (rnd : nat) (b : Board)
    (x_moves o_moves : list nat) : result (option nat) :=
  empty ← empty_cells b;
  empty ← (if decide (3 ≤ length o_moves)%nat then
             match o_moves with
             | oldest :: _ =>
                 c ← getitem b oldest;
                 Ok (if cell_is O c then empty ++ [oldest] else empty)
             | [] => IndexError
             end
           else Ok empty);
  match empty with
  | [] => Ok None
  | _ => m ← random_choice rnd empty; Ok (Some m)
  end.

End Easy.

(** ** ai_medium.py *)

Module Medium.

(** [values.index(None)], when there is one. *)
Definition index_none (values : list cell) : option nat :=
  fst <$> list_find (λ c, c = None) values.

(** The body of the loop of [find_winning_move], over the combinations
    still to scan. *)
Fixpoint find_winning_move_in (combos : list (nat * nat * nat))
    (b : Board) (p : player) : result (option nat) :=
  match combos with
  | [] => Ok None
  | combo :: rest =>
      values ← mapM (getitem b) (combo_cells combo);
      if bool_decide (count_cells (Some p) values = 2%nat)
         && bool_decide (count_cells None values = 1%nat)
      then
        match index_none values with
        | Some k => m ← getitem (combo_cells combo) k; Ok (Some m)
        | None => IndexError
        end
      else find_winning_move_in rest b p
  end.

Definition find_winning_move (b : Board) (p : player) : result (option nat) :=
  find_winning_move_in WINNING_COMBINATIONS b p.

Definition get_medium_move (rnd : nat) (b : Board) : result (option nat) :=
  empty ← empty_cells b;
  match empty with
  | [] => Ok None
  | _ =>
      win_move ← find_winning_move b O;
      match win_move with
      | Some m => Ok (Some m)
      | None =>
          block_move ← find_winning_move b X;
          match block_move with
          | Some m => Ok (Some m)
          | None => m ← random_choice rnd empty; Ok (Some m)
          end
      end
  end.

(** [_simulate_no_draw_board]: works on a copy, which it returns. *)
Definition _simulate_no_draw_board (b : Board) (p : player) (position : nat)
    (player_moves : list nat) : result Board :=
  sim_board ←
    (if decide (3 ≤ length player_moves)%nat then
       match player_moves with
       | oldest :: _ => setitem b oldest None
       | [] => IndexError
       end
     else Ok b);
  setitem sim_board position (Some p).

(** The positions a player may take: the empty cells in index order and,
    at capacity, the player's oldest index when not among them. *)
Definition available_moves (b : Board) (player_moves : list nat)
  : result (list nat) :=
  available ← empty_cells b;
  if decide (3 ≤ length player_moves)%nat then
    match player_moves with
    | oldest :: _ =>
        Ok (if bool_decide (oldest ∈ available) then available
            else available ++ [oldest])
    | [] => IndexError
    end
  else Ok available.

(** The [for pos in available] loop of [find_winning_move_no_draw]. *)
Fixpoint find_winning_pos (available : list nat) (b : Board) (p : player)
    (player_moves : list nat) : result (option nat) :=
  match available with
  | [] => Ok None
  | pos :: rest =>
      sim_board ← _simulate_no_draw_board b p pos player_moves;
      won ← check_winner sim_board p;
      if won : bool then Ok (Some pos)
      else find_winning_pos rest b p player_moves
  end.

Definition find_winning_move_no_draw (b : Board) (p : player)
    (player_moves : list nat) : result (option nat) :=
  available ← available_moves b player_moves;
  find_winning_pos available b p player_moves.

Definition get_medium_move_no_draw (rnd : nat) (b : Board)
    (x_moves o_moves : list nat) : result (option nat) :=
  available ← available_moves b o_moves;
  match available with
  | [] => Ok None
  | _ =>
      win_move ← find_winning_move_no_draw b O o_moves;
      match win_move with
      | Some m => Ok (Some m)
      | None =>
          block_move ← find_winning_move_no_draw b X x_moves;
          match block_move with
          | Some m =>
              if bool_decide (m ∈ available) then Ok (Some m)
              else m' ← random_choice rnd available; Ok (Some m')
          | None => m' ← random_choice rnd available; Ok (Some m')
          end
      end
  end.

End Medium.

(** ** ai_hard.py, No-Draw game *)

Module HardNoDraw.

Definition MAX_MARKS : nat := 3.

Definition _MOVE_PRIORITY : list nat := [4; 0; 2; 6; 8; 1; 3; 5; 7]%nat.

(** [_get_dynamic_depth(board)]: counts the empty cells of the whole list. *)
Definition _get_dynamic_depth (b : Board) : Z :=
  let empty := length (filter (λ c, c = None) b) in
  if decide (7 ≤ empty)%nat then 4
  else if decide (5 ≤ empty)%nat then 5
  else 6.

(** The sort key of [_order_moves]: the position's rank in
    [_MOVE_PRIORITY], or 9 when it is not listed. *)
Definition priority_key (m : nat) : nat :=
  match list_find (λ x, x = m) _MOVE_PRIORITY with
  | Some (i, _) => i
  | None => 9%nat
  end.

(** [sorted(moves, key=...)] is stable: equal keys keep their order. *)
Fixpoint insert_by_key (key : nat → nat) (x : nat) (l : list nat) : list nat :=
  match l with
  | [] => [x]
  | y :: l' =>
      if decide (key x ≤ key y)%nat then x :: l
      else y :: insert_by_key key x l'
  end.

Definition sorted_by_key (key : nat → nat) (l : list nat) : list nat :=
  foldr (insert_by_key key) [] l.

Definition _order_moves (moves : list nat) : list nat :=
  sorted_by_key priority_key moves.

(** The transposition table [_tp_table]: a dict keyed by
    [(tuple(board), tuple(x_moves), tuple(o_moves), is_maximizing)]. *)
Abbreviation tp_key := (Board * list nat * list nat * bool)%type.
Abbreviation tp_table := (gmap (Board * list nat * list nat * bool) score).

Definition _board_key (b : Board) (x_moves o_moves : list nat)
    (is_maximizing : bool) : tp_key :=
  (b, x_moves, o_moves, is_maximizing).

(** [_get_available_moves_no_draw(board, player, player_moves)] *)
Definition _get_available_moves_no_draw (b : Board) (p : player)
    (player_moves : list nat) : result (list nat) :=
  available ← empty_cells b;
  available ←
    (if decide (MAX_MARKS ≤ length player_moves)%nat then
       match player_moves with
       | oldest :: _ =>
           Ok (if bool_decide (oldest ∈ available) then available
               else available ++ [oldest])
       | [] => IndexError
       end
     else Ok available);
  Ok (_order_moves available).

(** [_heuristic_score(board)] *)
Fixpoint heuristic_loop (combos : list (nat * nat * nat)) (b : Board)
    (o_score x_score : Z) : result Z :=
  match combos with
  | [] => Ok (o_score - x_score)
  | combo :: rest =>
      vals ← mapM (getitem b) (combo_cells combo);
      let o_count := Z.of_nat (count_cells (Some O) vals) in
      let x_count := Z.of_nat (count_cells (Some X) vals) in
      let o_score :=
        if (x_count =? 0) && (0 <? o_count) then o_score + o_count
        else o_score in
      let x_score :=
        if (o_count =? 0) && (0 <? x_count) then x_score + x_count
        else x_score in
      heuristic_loop rest b o_score x_score
  end.

Definition _heuristic_score (b : Board) : result Z :=
  heuristic_loop WINNING_COMBINATIONS b 0 0.

(** The simulation every loop over candidates starts with: at capacity
    the oldest index is popped from a copy of the history and its cell
    cleared; the mark is placed and the position appended to the copy.
    Returns [removed], the new history and the board. *)
Definition simulate_move (b : Board) (p : player) (pos : nat)
    (player_moves : list nat) : result (option nat * list nat * Board) :=
  '(removed, new_moves, b) ←
     (if decide (MAX_MARKS ≤ length player_moves)%nat then
        match player_moves with
        | oldest :: rest => b ← setitem b oldest None; Ok (Some oldest, rest, b)
        | [] => IndexError
        end
      else Ok (None, player_moves, b));
  b ← setitem b pos (Some p);
  Ok (removed, new_moves ++ [pos], b).

(** The undo that follows: [board[pos] = None], then the removed mark is
    put back when there was one. *)
Definition undo_move (b : Board) (p : player) (pos : nat)
    (removed : option nat) : result Board :=
  b ← setitem b pos None;
  match removed with
  | Some r => setitem b r (Some p)
  | None => Ok b
  end.

Section loops.
(** The recursive call of [minimax_no_draw] one ply down, as the loops
    see it: board, the mover's new history, alpha, beta and the table. *)
Variable rec : Board → list nat → score → score → tp_table →
               result (score * Board * tp_table).
Variable depth : Z.

(** The maximizing loop, with its [break] once [beta <= alpha]. *)
Fixpoint max_loop (o_moves : list nat) (available : list nat)
    (best alpha beta : score) (b : Board) (tp : tp_table)
  : result (score * Board * tp_table) :=
  match available with
  | [] => Ok (best, b, tp)
  | pos :: rest =>
      '(removed, new_moves, b) ← simulate_move b O pos o_moves;
      won ← check_winner b O;
      '(s, b, tp) ← (if won : bool then Ok (Fin (10 - depth), b, tp)
                     else rec b new_moves alpha beta tp);
      b ← undo_move b O pos removed;
      let best := score_max best s in
      let alpha := score_max alpha best in
      if score_leb beta alpha then Ok (best, b, tp)
      else max_loop o_moves rest best alpha beta b tp
  end.

(** The minimizing loop. *)
Fixpoint min_loop (x_moves : list nat) (available : list nat)
    (best alpha beta : score) (b : Board) (tp : tp_table)
  : result (score * Board * tp_table) :=
  match available with
  | [] => Ok (best, b, tp)
  | pos :: rest =>
      '(removed, new_moves, b) ← simulate_move b X pos x_moves;
      won ← check_winner b X;
      '(s, b, tp) ← (if won : bool then Ok (Fin (depth - 10), b, tp)
                     else rec b new_moves alpha beta tp);
      b ← undo_move b X pos removed;
      let best := score_min best s in
      let beta := score_min beta best in
      if score_leb beta alpha then Ok (best, b, tp)
      else min_loop x_moves rest best alpha beta b tp
  end.
End loops.

(** [minimax_no_draw(board, depth, is_maximizing, x_moves, o_moves,
    max_depth, alpha, beta)] with the table [_tp_table] passed in and
    out, and the board as the call leaves it. *)
Fixpoint minimax_no_draw (fuel : nat) (b : Board) (depth : Z)
    (is_maximizing : bool) (x_moves o_moves : list nat) (max_depth : Z)
    (alpha beta : score) (tp : tp_table)
  : result (score * Board * tp_table) :=
  match fuel with
  | 0%nat => OutOfFuel
  | S fuel' =>
      wo ← check_winner b O;
      if wo : bool then Ok (Fin (10 - depth), b, tp) else
      wx ← check_winner b X;
      if wx : bool then Ok (Fin (depth - 10), b, tp) else
      if max_depth <=? depth then
        h ← _heuristic_score b; Ok (Fin h, b, tp)
      else
      let key := _board_key b x_moves o_moves is_maximizing in
      match tp !! key with
      | Some cached => Ok (cached, b, tp)
      | None =>
          let p := if is_maximizing then O else X in
          let player_moves := if is_maximizing then o_moves else x_moves in
          available ← _get_available_moves_no_draw b p player_moves;
          match available with
          | [] => h ← _heuristic_score b; Ok (Fin h, b, tp)
          | _ =>
              if is_maximizing then
                '(best, b, tp) ←
                   max_loop (λ b new_moves alpha beta tp,
                               minimax_no_draw fuel' b (depth + 1) false
                                 x_moves new_moves max_depth alpha beta tp)
                            depth player_moves available NegInf alpha beta b tp;
                Ok (best, b, <[key := best]> tp)
              else
                '(best, b, tp) ←
                   min_loop (λ b new_moves alpha beta tp,
                               minimax_no_draw fuel' b (depth + 1) true
                                 new_moves o_moves max_depth alpha beta tp)
                            depth player_moves available PosInf alpha beta b tp;
                Ok (best, b, <[key := best]> tp)
          end
      end
  end.

(** The fast path of [get_hard_move_no_draw]: the first candidate whose
    simulated placement wins, with the board as the loop leaves it. *)
Fixpoint fast_path (available : list nat) (b : Board) (o_moves : list nat)
  : result (option nat * Board) :=
  match available with
  | [] => Ok (None, b)
  | pos :: rest =>
      '(removed, _, b) ← simulate_move b O pos o_moves;
      won ← check_winner b O;
      b ← undo_move b O pos removed;
      if won : bool then Ok (Some pos, b) else fast_path rest b o_moves
  end.

(** The last loop of [get_hard_move_no_draw] as written: each candidate
    is placed and scored; [best_score] and [best_move] are never assigned
    and the placement is not taken back. *)
Fixpoint top_loop (fuel : nat) (x_moves o_moves : list nat) (max_depth : Z)
    (available : list nat) (best_score : score) (best_move : nat)
    (alpha beta : score) (b : Board) (tp : tp_table)
  : result (nat * Board * tp_table) :=
  match available with
  | [] => Ok (best_move, b, tp)
  | pos :: rest =>
      '(removed, new_o_moves, b) ← simulate_move b O pos o_moves;
      won ← check_winner b O;
      '(s, b, tp) ← (if won : bool then Ok (Fin 10, b, tp)
                     else minimax_no_draw fuel b 0 false x_moves new_o_moves
                            max_depth alpha beta tp);
      let alpha := score_max alpha best_score in
      top_loop fuel x_moves o_moves max_depth rest best_score best_move
               alpha beta b tp
  end.

(** Depth runs from 0 to [max_depth], so [max_depth + 1] nested calls. *)
Definition search_fuel (max_depth : Z) : nat := S (Z.to_nat max_depth).

(** [get_hard_move_no_draw(board, x_moves, o_moves)]: the move, the
    board as the call leaves it, and the table it leaves in [_tp_table]. *)
Definition get_hard_move_no_draw (b : Board) (x_moves o_moves : list nat)
  : result (option nat * Board * tp_table) :=
  let tp : tp_table := ∅ in
  available ← _get_available_moves_no_draw b O o_moves;
  match available with
  | [] => Ok (None, b, tp)
  | first :: _ =>
      '(won, b) ← fast_path available b o_moves;
      match won with
      | Some pos => Ok (Some pos, b, tp)
      | None =>
          let max_depth := _get_dynamic_depth b in
          '(best_move, b, tp) ←
             top_loop (search_fuel max_depth) x_moves o_moves max_depth
                      available NegInf first NegInf PosInf b tp;
          Ok (Some best_move, b, tp)
      end
  end.

(** The score the last loop computes for one candidate when it is the
    first to be tried: simulated on the board as handed in, searched with
    the full window and an empty table. *)
Definition candidate_score (b : Board) (x_moves o_moves : list nat)
    (pos : nat) : result score :=
  let max_depth := _get_dynamic_depth b in
  '(removed, new_o_moves, b') ← simulate_move b O pos o_moves;
  won ← check_winner b' O;
  if won : bool then Ok (Fin 10)
  else
    '(s, _, _) ← minimax_no_draw (search_fuel max_depth) b' 0 false x_moves
                   new_o_moves max_depth NegInf PosInf ∅;
    Ok s.

End HardNoDraw.

(** ** The standard game against the hard opponent

    The caller's protocol: a game starts on a fresh engine, and a draw
    decides whether the computer, playing O, moves first.  The human,
    playing X, clicks a cell while the game is on and it is X's turn;
    after an accepted move that does not end the game the computer asks
    [get_hard_move] on a copy of the board and plays what it returns. *)

Module Playout.
Import TicTacToeGame.

(** [_execute_ai_move] for the standard game at difficulty hard. *)
Definition ai_turn (g : t) : result t :=
  '(move, _) ← Hard.get_hard_move (get_board_copy g);
  match move with
  | Some m => '(_, g') ← make_move g (Z.of_nat m); Ok g'
  | None => Ok g
  end.

Inductive step (g : t) : t → Prop :=
| step_human position g' :
    game_over g = false → current_player g = X →
    make_move g position = Ok (true, g') → step g g'
| step_ai g' :
    game_over g = false → current_player g = O →
    ai_turn g = Ok g' → step g g'.

Inductive playout_from (g0 : t) : t → Prop :=
| playout_here : playout_from g0 g0
| playout_step g g' : playout_from g0 g → step g g' → playout_from g0 g'.

(** [_start_game] and [_restart_game]: a fresh engine; when the draw
    [computer_starts] is true the turn is handed to O before any move. *)
Definition _start_game (computer_starts : bool) : t :=
  let g := reset in
  if computer_starts then
    {| board := board g; current_player := O;
       game_over := game_over g; winner := winner g |}
  else g.

(** The states of the games, whoever moves first. *)
Definition playout (g : t) : Prop :=
  ∃ computer_starts, playout_from (_start_game computer_starts) g.

Definition x_has_won (g : t) : bool :=
  game_over g && bool_decide (winner g = Some X).

(** Exhaustive exploration of the playouts from [g]: every human move,
    the computer's reply to each; [false] when X has won somewhere, when
    the computer's turn raises, or when [fuel] runs out. *)
Fixpoint explore (fuel : nat) (g : t) : bool :=
  negb (x_has_won g) &&
  (if game_over g then true else
   match fuel with
   | 0%nat => false
   | S fuel' =>
       match current_player g with
       | X => forallb (λ i, match make_move g (Z.of_nat i) with
                            | Ok (true, g') => explore fuel' g'
                            | Ok (false, _) => true
                            | _ => false
                            end) range9
       | O => match ai_turn g with
              | Ok g' => explore fuel' g'
              | _ => false
              end
       end
   end).

End Playout.

(** ** Invariants of the engines *)

(** Where the turn and the two counts stand, state by state. *)
Definition standard_balance (g : TicTacToeGame.t) : Prop :=
  let cx := count_cells (Some X) (TicTacToeGame.board g) in
  let co := count_cells (Some O) (TicTacToeGame.board g) in
  match TicTacToeGame.current_player g, TicTacToeGame.game_over g with
  | X, false => cx = co
  | O, false => cx = S co
  | X, true => cx = S co
  | O, true => cx = co
  end.

(** A player's history and marks agree: the history has no repeated
    index, every index in it holds the player's mark, the marks on the
    board are no more than the history is long, and that is at most
    three. *)
Definition marks_ok (g : NoDrawGame.t) (p : player) : Prop :=
  let moves := NoDrawGame._get_player_moves g p in
  NoDup moves ∧
  (∀ i, i ∈ moves → NoDrawGame.board g !! i = Some (Some p)) ∧
  (count_cells (Some p) (NoDrawGame.board g) ≤ length moves)%nat ∧
  (length moves ≤ 3)%nat.

Definition no_draw_invariant (g : NoDrawGame.t) : Prop :=
  marks_ok g X ∧ marks_ok g O ∧
  (NoDrawGame.game_over g = true → NoDrawGame.winner g ≠ None).

(** ** Sample positions *)

(** The No-Draw game after X 0, O 1, X 2, O 3, X 4, O 5: both histories
    at capacity, X to move. *)
Definition no_draw_sample : NoDrawGame.t :=
  {| NoDrawGame.board :=
       [Some X; Some O; Some X; Some O; Some X; Some O; None; None; None];
     NoDrawGame.current_player := X;
     NoDrawGame.game_over := false;
     NoDrawGame.winner := None;
     NoDrawGame.x_moves := [0; 2; 4]%nat;
     NoDrawGame.o_moves := [1; 3; 5]%nat |}.

(** The position of [test_takes_winning_move] for the No-Draw hard
    opponent. *)
Definition fast_path_board : Board :=
  [None; None; Some X; Some O; Some O; None; Some X; None; Some X].

(** The two positions of the medium opponent's tests: win over block,
    and block. *)
Definition win_over_block_board : Board :=
  [Some X; Some X; None; Some O; Some O; None; None; None; None].
Definition block_board : Board :=
  [Some X; Some X; None; Some O; None; None; None; None; None].

(** An inconsistent snapshot: O's history starts at cell 0, which holds
    X's mark. *)
Definition stale_board : Board :=
  [Some X; None; None; None; None; None; None; None; None].

(** A scripted playout: the human's moves are given, the computer answers
    each with [ai_turn]; [None] when a move is refused, a turn is out of
    order, or the computer's turn raises. *)
Fixpoint playout_script (g : TicTacToeGame.t) (positions : list Z)
  : option TicTacToeGame.t :=
  match positions with
  | [] => Some g
  | position :: rest =>
      if TicTacToeGame.game_over g then None else
      match TicTacToeGame.current_player g,
            TicTacToeGame.make_move g position with
      | X, Ok (true, g1) =>
          if TicTacToeGame.game_over g1 then playout_script g1 rest else
          match TicTacToeGame.current_player g1, Playout.ai_turn g1 with
          | O, Ok g2 => playout_script g2 rest
          | _, _ => None
          end
      | _, _ => None
      end
  end.

(** The state after the human plays 0, 1, 3 and the computer answers 4,
    2, 6, completing the diagonal (2, 4, 6). *)
Definition playout_sample : TicTacToeGame.t :=
  {| TicTacToeGame.board :=
       [Some X; Some X; Some O; Some X; Some O; None; Some O; None; None];
     TicTacToeGame.current_player := O;
     TicTacToeGame.game_over := true;
     TicTacToeGame.winner := Some O |}.

(** The computer moves first and opens at 0. *)
Definition computer_opening : TicTacToeGame.t :=
  {| TicTacToeGame.board :=
       [Some O; None; None; None; None; None; None; None; None];
     TicTacToeGame.current_player := X;
     TicTacToeGame.game_over := false;
     TicTacToeGame.winner := None |}.

(** From there the human plays 1 and 2 and the computer answers 3 and 6,
    completing the column (0, 3, 6). *)
Definition computer_first_sample : TicTacToeGame.t :=
  {| TicTacToeGame.board :=
       [Some O; Some X; Some X; Some O; None; None; Some O; None; None];
     TicTacToeGame.current_player := O;
     TicTacToeGame.game_over := true;
     TicTacToeGame.winner := Some O |}.

(** The standard game after X 4: O to move. *)
Definition one_move_state : TicTacToeGame.t :=
  {| TicTacToeGame.board :=
       [None; None; None; None; Some X; None; None; None; None];
     TicTacToeGame.current_player := O;
     TicTacToeGame.game_over := false;
     TicTacToeGame.winner := None |}.

(** After X 4, O 0: X to move, one mark each. *)
Definition two_moves_state : TicTacToeGame.t :=
  {| TicTacToeGame.board :=
       [Some O; None; None; None; Some X; None; None; None; None];
     TicTacToeGame.current_player := X;
     TicTacToeGame.game_over := false;
     TicTacToeGame.winner := None |}.

(** And after X then plays 8: O to move, two marks against one. *)
Definition three_moves_state : TicTacToeGame.t :=
  {| TicTacToeGame.board :=
       [Some O; None; None; None; Some X; None; None; None; Some X];
     TicTacToeGame.current_player := O;
     TicTacToeGame.game_over := false;
     TicTacToeGame.winner := None |}.

(** X threatens the top row; O has no immediate win.  Reached in the
    No-Draw game by X 0, O 8, X 1. *)
Definition threat_board : Board :=
  [Some X; Some X; None; None; None; None; None; None; Some O].

(** The No-Draw game after X 0, O 8, X 1: O to move on [threat_board]
    with [x_moves = [0, 1]] and [o_moves = [8]]. *)
Definition threat_state : NoDrawGame.t :=
  {| NoDrawGame.board := threat_board;
     NoDrawGame.current_player := O;
     NoDrawGame.game_over := false;
     NoDrawGame.winner := None;
     NoDrawGame.x_moves := [0; 1]%nat;
     NoDrawGame.o_moves := [8]%nat |}.

(** ** Measures for the searches *)

(** The number of empty cells among the nine the standard search scans;
    each nested call of [minimax] sees one fewer. *)
Definition cells_left (b : Board) : nat := count_cells None (take 9 b).

(** A run that did not stop for lack of fuel. *)
Definition fuelled {A} (r : result A) : Prop := r ≠ OutOfFuel.

(** ** Lines *)

(** All three cells of [combo] hold [p]'s mark. *)
Definition holds_line (b : Board) (p : player) (combo : nat * nat * nat)
  : Prop :=
  ∀ i, i ∈ combo_cells combo → b !! i = Some (Some p).

(** [p] has some line on [b]. *)
Definition has_line (b : Board) (p : player) : Prop :=
  ∃ combo, combo ∈ WINNING_COMBINATIONS ∧ holds_line b p combo.

(** Two cells of [combo] hold [p]'s mark and the third, [m], is empty. *)
Definition open_line (b : Board) (p : player) (combo : nat * nat * nat)
    (m : nat) : Prop :=
  m ∈ combo_cells combo ∧ b !! m = Some None ∧
  ∀ j, j ∈ combo_cells combo → j ≠ m → b !! j = Some (Some p).

(** Winner and terminal flag agree with the board. *)
Definition standard_outcome (g : TicTacToeGame.t) : Prop :=
  length (TicTacToeGame.board g) = 9%nat ∧
  (∀ p, TicTacToeGame.winner g = Some p ↔ has_line (TicTacToeGame.board g) p) ∧
  (TicTacToeGame.game_over g = true ↔
   has_line (TicTacToeGame.board g) X ∨ has_line (TicTacToeGame.board g) O ∨
   is_board_full (TicTacToeGame.board g) = true).

(** ** Auxiliary notions for the further properties *)

(** Winner and terminal flag agree with the board, No-Draw game. *)
Definition no_draw_outcome (g : NoDrawGame.t) : Prop :=
  length (NoDrawGame.board g) = 9%nat ∧
  (∀ p, NoDrawGame.winner g = Some p ↔ has_line (NoDrawGame.board g) p) ∧
  (NoDrawGame.game_over g = true ↔
   has_line (NoDrawGame.board g) X ∨ has_line (NoDrawGame.board g) O).

(** A finite score within bounds. *)
Definition in_range (lo hi : Z) (s : score) : Prop :=
  ∃ z, s = Fin z ∧ lo ≤ z ≤ hi.

(** The score the loop of [get_hard_move] computes for one candidate:
    the mark is placed and [minimax] called at depth 0 for the minimizer. *)
Definition move_score (b : Board) (pos : nat) : result score :=
  b ← setitem b pos (Some O);
  '(s, _) ← Hard.minimax Hard.minimax_fuel b 0 false;
  Ok s.

(** A run of the No-Draw search that returns, on a board that still has
    nine cells. *)
Definition returns_board {A} (r : result (A * Board * HardNoDraw.tp_table))
  : Prop :=
  ∃ a b tp, r = Ok (a, b, tp) ∧ length b = 9%nat.

(** The board with the two players' marks exchanged. *)
Definition swap_cell (c : cell) : cell := other_player <$> c.

Definition swap_marks (b : Board) : Board := swap_cell <$> b.

(** A heuristic result with its sign changed. *)
Definition negated (r : result Z) : result Z :=
  match r with
  | Ok h => Ok (- h)
  | IndexError => IndexError
  | OutOfFuel => OutOfFuel
  end.

(** * Properties *)

(** ** Results and item access *)

Lemma bind_Ok {A B} (m : result A) (k : A → result B) (r : B) :
  (m ≫= k) = Ok r → ∃ a, m = Ok a ∧ k a = Ok r.
Proof. destruct m; simpl; intros H; try discriminate. eauto. Qed.

Lemma getitem_Ok {A} (l : list A) i a : getitem l i = Ok a ↔ l !! i = Some a.
Proof.
  unfold getitem. destruct (l !! i); split; intros H; congruence.
Qed.

Lemma setitem_Ok {A} (l : list A) i v l' :
  setitem l i v = Ok l' ↔ (i < length l)%nat ∧ l' = <[i:=v]> l.
Proof.
  unfold setitem. destruct (Nat.ltb_spec i (length l)); split.
  - intros [= <-]. done.
  - intros [_ ->]. done.
  - discriminate.
  - intros [? _]. lia.
Qed.

(** Decompose a successful run into its successful steps. *)
Ltac inv_ok H :=
  repeat match type of H with
    | (_ ≫= _) = Ok _ =>
        let a := fresh "a" in
        let Ha := fresh "Ha" in
        apply bind_Ok in H as (a & Ha & H); simpl in H
    | Ok _ = Ok _ => injection H as H
    | IndexError = Ok _ => discriminate H
    | OutOfFuel = Ok _ => discriminate H
    end.

(** ** Rejected moves *)

(** C4: when [is_valid_move(position)] is false, [make_move(position)]
    returns [False] and the state it returns is the state it was given,
    in the standard game and in the No-Draw game (board, player to move,
    terminal flag, winner and both histories are fields of that state). *)
Theorem make_move_invalid_unchanged
    (g : TicTacToeGame.t) (n : NoDrawGame.t) (position : Z) :
  (TicTacToeGame.is_valid_move g position = Ok false →
   TicTacToeGame.make_move g position = Ok (false, g)) ∧
  (NoDrawGame.is_valid_move n position = Ok false →
   NoDrawGame.make_move n position = Ok (false, n)).
Proof.
  split; intros H.
  - unfold TicTacToeGame.make_move. rewrite H. reflexivity.
  - unfold NoDrawGame.make_move. rewrite H. reflexivity.
Qed.

Lemma make_move_invalid_unchanged_witness :
  TicTacToeGame.make_move TicTacToeGame.reset 9
    = Ok (false, TicTacToeGame.reset) ∧
  NoDrawGame.make_move NoDrawGame.reset (-1) = Ok (false, NoDrawGame.reset).
Proof.
  split.
  - apply (make_move_invalid_unchanged TicTacToeGame.reset NoDrawGame.reset 9).
    reflexivity.
  - apply (make_move_invalid_unchanged TicTacToeGame.reset NoDrawGame.reset (-1)).
    reflexivity.
Defined.

(** ** Counting marks *)

Lemma count_cells_insert (v old new : cell) (l : list cell) (i : nat) :
  l !! i = Some old →
  (count_cells v (<[i:=new]> l) + (if decide (old = v) then 1 else 0)
   = count_cells v l + (if decide (new = v) then 1 else 0))%nat.
Proof.
  unfold count_cells. revert i.
  induction l as [|c l IH]; intros [|i] Hi; simplify_eq/=.
  - rewrite !filter_cons. repeat case_decide; simpl; lia.
  - specialize (IH i Hi). rewrite !filter_cons.
    repeat case_decide; simpl in *; lia.
Qed.

(** Marking an empty cell adds one to the mover's count and leaves the
    other count alone. *)
Lemma count_cells_mark (p q : player) (l : list cell) (i : nat) :
  l !! i = Some None →
  count_cells (Some q) (<[i:=Some p]> l)
  = ((if decide (p = q) then 1 else 0) + count_cells (Some q) l)%nat.
Proof.
  intros Hi. pose proof (count_cells_insert (Some q) None (Some p) l i Hi) as H.
  repeat case_decide; simplify_eq; lia.
Qed.

(** ** The standard engine *)

Lemma standard_make_move_true (g g' : TicTacToeGame.t) (position : Z) :
  TicTacToeGame.make_move g position = Ok (true, g') →
  TicTacToeGame.game_over g = false ∧ 0 ≤ position ≤ 8 ∧
  TicTacToeGame.board g !! Z.to_nat position = Some None ∧
  TicTacToeGame.board g'
  = <[Z.to_nat position := Some (TicTacToeGame.current_player g)]>
      (TicTacToeGame.board g) ∧
  ((TicTacToeGame.game_over g' = true ∧
    TicTacToeGame.current_player g' = TicTacToeGame.current_player g) ∨
   (TicTacToeGame.game_over g' = false ∧
    TicTacToeGame.current_player g'
    = other_player (TicTacToeGame.current_player g))).
Proof.
  unfold TicTacToeGame.make_move, TicTacToeGame.is_valid_move.
  intros H. destruct (TicTacToeGame.game_over g) eqn:Hover; [discriminate H|].
  destruct ((0 <=? position) && (position <=? 8)) eqn:Hrange;
    [|discriminate H].
  apply andb_true_iff in Hrange as [H0 H8].
  apply Z.leb_le in H0, H8.
  inv_ok H. inv_ok Ha. apply getitem_Ok in Ha0. subst a.
  destruct a0 as [mark|]; simpl in H; [discriminate H|].
  inv_ok H. apply setitem_Ok in Ha as [_ ->].
  destruct a0; [|destruct (is_board_full _)]; simplify_eq/=; eauto 10.
Qed.

Lemma standard_reachable_balance (g : TicTacToeGame.t) :
  TicTacToeGame.reachable g → standard_balance g.
Proof.
  induction 1 as [|g position g' _ IH Hmove].
  - reflexivity.
  - apply standard_make_move_true in Hmove
      as (Hover & _ & Hcell & Hboard & Hturn).
    unfold standard_balance in *. rewrite Hover in IH. rewrite Hboard.
    rewrite !(count_cells_mark _ _ _ _ Hcell).
    destruct Hturn as [[-> ->]|[-> ->]];
      destruct (TicTacToeGame.current_player g);
      repeat case_decide; simplify_eq/=; lia.
Qed.

(** C9: in the standard game, an accepted move that does not end the game
    hands the turn to the other player, and in every state reached from
    [reset()] by accepted moves the counts of X cells and of O cells differ
    by at most one. *)
Theorem standard_alternation_and_balance (g : TicTacToeGame.t) :
  TicTacToeGame.reachable g →
  (∀ position g',
     TicTacToeGame.make_move g position = Ok (true, g') →
     TicTacToeGame.game_over g' = false →
     TicTacToeGame.current_player g'
     = other_player (TicTacToeGame.current_player g)) ∧
  (count_cells (Some X) (TicTacToeGame.board g)
     ≤ S (count_cells (Some O) (TicTacToeGame.board g)))%nat ∧
  (count_cells (Some O) (TicTacToeGame.board g)
     ≤ S (count_cells (Some X) (TicTacToeGame.board g)))%nat.
Proof.
  intros Hreach. split.
  - intros position g' Hmove Hon.
    apply standard_make_move_true in Hmove as (_ & _ & _ & _ & Hturn).
    destruct Hturn as [[Hover _]|[_ Hturn]]; [congruence|done].
  - apply standard_reachable_balance in Hreach.
    unfold standard_balance in Hreach.
    destruct (TicTacToeGame.current_player g), (TicTacToeGame.game_over g);
      lia.
Qed.

Lemma one_move_state_reachable : TicTacToeGame.reachable one_move_state.
Proof.
  apply (TicTacToeGame.reachable_move TicTacToeGame.reset 4); [|reflexivity].
  apply TicTacToeGame.reachable_reset.
Qed.

Lemma two_moves_state_reachable : TicTacToeGame.reachable two_moves_state.
Proof.
  apply (TicTacToeGame.reachable_move one_move_state 0); [|reflexivity].
  apply one_move_state_reachable.
Qed.

Lemma three_moves_state_reachable :
  TicTacToeGame.reachable three_moves_state.
Proof.
  apply (TicTacToeGame.reachable_move two_moves_state 8); [|reflexivity].
  apply two_moves_state_reachable.
Qed.

Lemma standard_alternation_and_balance_witness :
  (TicTacToeGame.make_move one_move_state 0 = Ok (true, two_moves_state) ∧
   TicTacToeGame.game_over two_moves_state = false ∧
   TicTacToeGame.current_player one_move_state = O ∧
   TicTacToeGame.current_player two_moves_state = X) ∧
  (TicTacToeGame.make_move two_moves_state 8 = Ok (true, three_moves_state) ∧
   TicTacToeGame.game_over three_moves_state = false ∧
   TicTacToeGame.current_player two_moves_state = X ∧
   TicTacToeGame.current_player three_moves_state = O) ∧
  (count_cells (Some X) (TicTacToeGame.board three_moves_state) = 2%nat ∧
   count_cells (Some O) (TicTacToeGame.board three_moves_state) = 1%nat ∧
   count_cells (Some X) (TicTacToeGame.board three_moves_state)
     ≤ S (count_cells (Some O) (TicTacToeGame.board three_moves_state)) ∧
   count_cells (Some O) (TicTacToeGame.board three_moves_state)
     ≤ S (count_cells (Some X) (TicTacToeGame.board three_moves_state)))%nat.
Proof.
  split; [|split].
  - destruct (standard_alternation_and_balance one_move_state
                one_move_state_reachable) as [Hturn _].
    split; [reflexivity|]. split; [reflexivity|]. split; [reflexivity|].
    apply (Hturn 0 two_moves_state); reflexivity.
  - destruct (standard_alternation_and_balance two_moves_state
                two_moves_state_reachable) as [Hturn _].
    split; [reflexivity|]. split; [reflexivity|]. split; [reflexivity|].
    apply (Hturn 8 three_moves_state); reflexivity.
  - destruct (standard_alternation_and_balance three_moves_state
                three_moves_state_reachable) as (_ & Hx & Ho).
    split; [reflexivity|]. split; [reflexivity|]. split; [exact Hx|exact Ho].
Defined.

(** ** The No-Draw engine *)

(** What an accepted No-Draw move does: below capacity the mark goes on
    an empty cell; at capacity the oldest cell is cleared first, and the
    target is an empty cell or that oldest cell. *)
Lemma no_draw_make_move_true (g g' : NoDrawGame.t) (position : Z) :
  NoDrawGame.make_move g position = Ok (true, g') →
  let cur := NoDrawGame.current_player g in
  let moves := NoDrawGame._get_player_moves g cur in
  let pos := Z.to_nat position in
  NoDrawGame.game_over g = false ∧ 0 ≤ position ≤ 8 ∧
  (pos < length (NoDrawGame.board g))%nat ∧
  (∃ b1 moves1,
     (((length moves < 3)%nat ∧ b1 = NoDrawGame.board g ∧ moves1 = moves ∧
       NoDrawGame.board g !! pos = Some None) ∨
      (∃ oldest,
         moves = oldest :: moves1 ∧ (3 ≤ length moves)%nat ∧
         (oldest < length (NoDrawGame.board g))%nat ∧
         b1 = <[oldest:=None]> (NoDrawGame.board g) ∧
         (NoDrawGame.board g !! pos = Some None ∨
          (NoDrawGame.board g !! pos = Some (Some cur) ∧ oldest = pos)))) ∧
     NoDrawGame.board g' = <[pos:=Some cur]> b1 ∧
     NoDrawGame._get_player_moves g' cur = moves1 ++ [pos]) ∧
  NoDrawGame._get_player_moves g' (other_player cur)
  = NoDrawGame._get_player_moves g (other_player cur) ∧
  ((NoDrawGame.game_over g' = true ∧ NoDrawGame.winner g' = Some cur ∧
    NoDrawGame.current_player g' = cur) ∨
   (NoDrawGame.game_over g' = false ∧
    NoDrawGame.winner g' = NoDrawGame.winner g ∧
    NoDrawGame.current_player g' = other_player cur)).
Proof.
  intros H cur moves pos.
  unfold NoDrawGame.make_move, NoDrawGame.is_valid_move in H.
  destruct (NoDrawGame.game_over g) eqn:Hover; [discriminate H|].
  destruct ((0 <=? position) && (position <=? 8)) eqn:Hrange;
    [|discriminate H].
  apply andb_true_iff in Hrange as [H0 H8]. apply Z.leb_le in H0, H8.
  simpl in H.
  apply bind_Ok in H as (valid & Hvalid & H).
  apply bind_Ok in Hvalid as (c & Hc & Hvalid). apply getitem_Ok in Hc.
  fold cur moves pos in Hc, Hvalid, H |- *.
  destruct valid; simpl in H; [|discriminate H].
  assert (Htarget :
    NoDrawGame.board g !! pos = Some None ∨
    (NoDrawGame.board g !! pos = Some (Some cur) ∧
     (NoDrawGame.MAX_MARKS ≤ length moves)%nat ∧ head moves = Some pos)).
  { destruct c as [mark|]; [|by left].
    destruct (bool_decide (mark = cur)) eqn:Hm; simpl in Hvalid; [|done].
    apply bool_decide_eq_true in Hm as ->.
    destruct (bool_decide (NoDrawGame.MAX_MARKS ≤ _)%nat) eqn:Hl;
      simpl in Hvalid; [|done].
    destruct (bool_decide (head moves = Some pos)) eqn:Hh; [|done].
    apply bool_decide_eq_true in Hl, Hh. by right. }
  clear Hvalid.
  apply bind_Ok in H as ([moves1 b1] & Hevicted & H).
  apply bind_Ok in H as (b2 & Hplaced & H).
  apply setitem_Ok in Hplaced as [Hpos ->].
  assert (Hevict :
    ((length moves < 3)%nat ∧ b1 = NoDrawGame.board g ∧ moves1 = moves ∧
     NoDrawGame.board g !! pos = Some None) ∨
    (∃ oldest,
       moves = oldest :: moves1 ∧ (3 ≤ length moves)%nat ∧
       (oldest < length (NoDrawGame.board g))%nat ∧
       b1 = <[oldest:=None]> (NoDrawGame.board g) ∧
       (NoDrawGame.board g !! pos = Some None ∨
        (NoDrawGame.board g !! pos = Some (Some cur) ∧ oldest = pos)))).
  { unfold NoDrawGame.MAX_MARKS in *. case_decide as Hlen.
    - destruct moves as [|oldest rest] eqn:Hmoves; [discriminate Hevicted|].
      apply bind_Ok in Hevicted as (b0 & Hcleared & Hevicted).
      apply setitem_Ok in Hcleared as [Hold ->]. simplify_eq.
      right. exists oldest. repeat split; try done.
      destruct Htarget as [?|(? & _ & [= ->])]; auto.
    - simplify_eq. left. repeat split; try lia.
      destruct Htarget as [?|(_ & ? & _)]; [done|lia]. }
  assert (Hlen1 : (pos < length (NoDrawGame.board g))%nat).
  { destruct Hevict as [(_ & -> & _)|(? & _ & _ & _ & -> & _)]; [done|].
    by rewrite length_insert in Hpos. }
  do 3 (split; [done|]).
  apply bind_Ok in H as (won & Hwon & H).
  subst cur moves.
  destruct won; simplify_eq/=; unfold NoDrawGame.with_moves;
    destruct (NoDrawGame.current_player g) eqn:Hcur; simpl;
    (split; [exists b1, moves1; done|]); split; try done; auto.
Qed.

Lemma other_player_ne (p : player) : other_player p ≠ p.
Proof. by destruct p. Qed.

(** The mover's side of the invariant survives an accepted move. *)
Lemma marks_ok_mover (g g' : NoDrawGame.t) (position : Z) :
  NoDrawGame.make_move g position = Ok (true, g') →
  marks_ok g (NoDrawGame.current_player g) →
  marks_ok g' (NoDrawGame.current_player g).
Proof.
  intros Hmove (Hnodup & Hmarks & Hcount & Hlen).
  apply no_draw_make_move_true in Hmove
    as (_ & _ & Hpos & (b1 & moves1 & Hevict & Hboard & Hmoves) & _ & _).
  set (cur := NoDrawGame.current_player g) in *.
  set (pos := Z.to_nat position) in *.
  unfold marks_ok. rewrite Hmoves, Hboard. clear Hmoves Hboard.
  destruct Hevict as [(Hlt & -> & -> & Hcell)|
                      (oldest & Hm & Hge & Hold & -> & Hcell)].
  - assert (Hfresh : pos ∉ NoDrawGame._get_player_moves g cur).
    { intros Hin. apply Hmarks in Hin. congruence. }
    repeat split.
    + apply NoDup_app. repeat split; [done| |apply NoDup_singleton].
      intros i Hi ->%list_elem_of_singleton. done.
    + intros i [Hi| ->%list_elem_of_singleton]%elem_of_app.
      * rewrite list_lookup_insert_ne; [by apply Hmarks|].
        intros <-. done.
      * by rewrite list_lookup_insert_eq.
    + rewrite (count_cells_mark _ _ _ _ Hcell), length_app. simpl.
      case_decide; lia.
    + rewrite length_app. simpl. lia.
  - rewrite Hm in Hnodup, Hmarks, Hcount, Hlen, Hge.
    apply NoDup_cons in Hnodup as [Hhead Hnodup].
    assert (Holdest : NoDrawGame.board g !! oldest = Some (Some cur))
      by (apply Hmarks; left).
    assert (Hfresh : pos ∉ moves1).
    { intros Hin. destruct Hcell as [Hcell|[_ <-]]; [|done].
      assert (NoDrawGame.board g !! pos = Some (Some cur))
        by (apply Hmarks; by right).
      congruence. }
    assert (Hcleared : <[oldest:=None]> (NoDrawGame.board g) !! pos = Some None).
    { destruct (decide (oldest = pos)) as [->|Hne].
      - by rewrite list_lookup_insert_eq.
      - rewrite list_lookup_insert_ne by done.
        destruct Hcell as [?|[_ ?]]; done. }
    repeat split.
    + apply NoDup_app. repeat split; [done| |apply NoDup_singleton].
      intros i Hi ->%list_elem_of_singleton. done.
    + intros i [Hi| ->%list_elem_of_singleton]%elem_of_app.
      * rewrite !list_lookup_insert_ne.
        -- apply Hmarks. by right.
        -- intros <-. done.
        -- intros <-. done.
      * rewrite list_lookup_insert_eq; [done|by rewrite length_insert].
    + rewrite (count_cells_mark _ _ _ _ Hcleared), length_app.
      pose proof (count_cells_insert (Some cur) _ None _ _ Holdest) as Hc.
      simpl in *. repeat case_decide; simplify_eq; lia.
    + rewrite length_app. simpl in *. lia.
Qed.

(** The other side is untouched. *)
Lemma marks_ok_other (g g' : NoDrawGame.t) (position : Z) :
  NoDrawGame.make_move g position = Ok (true, g') →
  marks_ok g (NoDrawGame.current_player g) →
  marks_ok g (other_player (NoDrawGame.current_player g)) →
  marks_ok g' (other_player (NoDrawGame.current_player g)).
Proof.
  intros Hmove (_ & Hmine & _ & _) (Hnodup & Hmarks & Hcount & Hlen).
  apply no_draw_make_move_true in Hmove
    as (_ & _ & Hpos & (b1 & moves1 & Hevict & Hboard & _) & Hmoves & _).
  set (cur := NoDrawGame.current_player g) in *.
  set (pos := Z.to_nat position) in *.
  pose proof (other_player_ne cur) as Hne.
  unfold marks_ok. rewrite Hmoves, Hboard. clear Hmoves Hboard.
  destruct Hevict as [(Hlt & -> & -> & Hcell)|
                      (oldest & Hm & Hge & Hold & -> & Hcell)].
  - repeat split; try done.
    + intros i Hi. rewrite list_lookup_insert_ne; [by apply Hmarks|].
      intros <-. apply Hmarks in Hi. congruence.
    + rewrite (count_cells_mark _ _ _ _ Hcell). case_decide; [done|lia].
  - assert (Holdest : NoDrawGame.board g !! oldest = Some (Some cur))
      by (apply Hmine; rewrite Hm; left).
    assert (Hcleared : <[oldest:=None]> (NoDrawGame.board g) !! pos = Some None).
    { destruct (decide (oldest = pos)) as [->|Hd].
      - by rewrite list_lookup_insert_eq.
      - rewrite list_lookup_insert_ne by done.
        destruct Hcell as [?|[_ ?]]; done. }
    repeat split; try done.
    + intros i Hi. specialize (Hmarks i Hi).
      rewrite !list_lookup_insert_ne; [done| |].
      * intros <-. congruence.
      * intros <-. destruct Hcell as [?|[? _]]; congruence.
    + rewrite (count_cells_mark _ _ _ _ Hcleared).
      pose proof (count_cells_insert (Some (other_player cur)) _ None _ _
                    Holdest) as Hc.
      repeat case_decide; simplify_eq; lia.
Qed.

Lemma no_draw_reachable_invariant (g : NoDrawGame.t) :
  NoDrawGame.reachable g → no_draw_invariant g.
Proof.
  induction 1 as [|g position g' _ IH Hmove].
  - repeat split; simpl; try apply NoDup_nil_2; try lia;
      try (intros i Hi; by apply elem_of_nil in Hi); done.
  - destruct IH as (HX & HO & _).
    pose proof (marks_ok_mover _ _ _ Hmove) as Hmover.
    pose proof (marks_ok_other _ _ _ Hmove) as Hother.
    apply no_draw_make_move_true in Hmove as (_ & _ & _ & _ & _ & Hend).
    split; [|split].
    + destruct (NoDrawGame.current_player g); simpl in *; auto.
    + destruct (NoDrawGame.current_player g); simpl in *; auto.
    + destruct Hend as [(_ & -> & _)|(-> & _)]; done.
Qed.

(** C5: in every state the No-Draw game reaches from [reset()] by accepted
    moves, each player's marks on the board number at most three and at
    most the length of that player's history, each history has at most
    three entries, and a finished game always has a winner: the game is
    never ended as a draw, full board or not. *)
Theorem no_draw_marks_bounded_and_no_draw (g : NoDrawGame.t) :
  NoDrawGame.reachable g →
  (∀ p, (count_cells (Some p) (NoDrawGame.board g) ≤ 3)%nat ∧
        (count_cells (Some p) (NoDrawGame.board g)
           ≤ length (NoDrawGame._get_player_moves g p))%nat ∧
        (length (NoDrawGame._get_player_moves g p) ≤ 3)%nat) ∧
  ¬ (NoDrawGame.game_over g = true ∧ NoDrawGame.winner g = None).
Proof.
  intros (HX & HO & Hend)%no_draw_reachable_invariant. split.
  - intros p.
    assert (Hp : marks_ok g p) by (destruct p; done).
    destruct Hp as (_ & _ & Hcount & Hlen). lia.
  - intros [Hover Hnone]. by apply Hend.
Qed.

Lemma no_draw_play_reachable (g g' : NoDrawGame.t) (positions : list Z) :
  NoDrawGame.reachable g → NoDrawGame.play g positions = Some g' →
  NoDrawGame.reachable g'.
Proof.
  revert g. induction positions as [|position rest IH]; intros g Hg Hplay.
  - by simplify_eq/=.
  - simpl in Hplay.
    destruct (NoDrawGame.make_move g position) as [[[] g1]| |] eqn:Hmove;
      try discriminate Hplay.
    eapply IH; [|done]. by eapply NoDrawGame.reachable_move.
Qed.

Lemma no_draw_sample_reachable : NoDrawGame.reachable no_draw_sample.
Proof.
  apply (no_draw_play_reachable NoDrawGame.reset _ [0; 1; 2; 3; 4; 5]).
  - apply NoDrawGame.reachable_reset.
  - reflexivity.
Qed.

Lemma no_draw_marks_bounded_and_no_draw_witness :
  (∀ p, (count_cells (Some p) (NoDrawGame.board no_draw_sample) ≤ 3)%nat ∧
        (count_cells (Some p) (NoDrawGame.board no_draw_sample)
           ≤ length (NoDrawGame._get_player_moves no_draw_sample p))%nat ∧
        (length (NoDrawGame._get_player_moves no_draw_sample p) ≤ 3)%nat) ∧
  ¬ (NoDrawGame.game_over no_draw_sample = true ∧
     NoDrawGame.winner no_draw_sample = None).
Proof.
  apply (no_draw_marks_bounded_and_no_draw no_draw_sample).
  apply no_draw_sample_reachable.
Defined.

(** ** First in, first out *)

(** C6, as the code has it: when the mover's history is at capacity and
    the move to [position] is accepted, the oldest entry leaves the front
    of the history and [position] joins its end; the oldest cell is empty
    afterwards unless [position] is that very cell, which then carries the
    mover's new mark.  In particular, when [x_moves] is [0, 2, 4] and X
    plays 6, cell 0 is empty afterwards and [x_moves] is [2, 4, 6]. *)
Theorem no_draw_fifo_eviction :
  (∀ (g g' : NoDrawGame.t) (position : Z) (oldest : nat) (rest : list nat),
     let cur := NoDrawGame.current_player g in
     NoDrawGame._get_player_moves g cur = oldest :: rest →
     (3 ≤ length (oldest :: rest))%nat →
     NoDrawGame.make_move g position = Ok (true, g') →
     NoDrawGame._get_player_moves g' cur = rest ++ [Z.to_nat position] ∧
     NoDrawGame.board g' !! oldest
     = Some (if decide (Z.to_nat position = oldest) then Some cur else None)) ∧
  (∀ g g' : NoDrawGame.t,
     NoDrawGame.reachable g →
     NoDrawGame.current_player g = X →
     NoDrawGame.x_moves g = [0; 2; 4]%nat →
     NoDrawGame.make_move g 6 = Ok (true, g') →
     NoDrawGame.board g' !! 0%nat = Some None ∧
     NoDrawGame.x_moves g' = [2; 4; 6]%nat).
Proof.
  assert (Hgen :
    ∀ (g g' : NoDrawGame.t) (position : Z) (oldest : nat) (rest : list nat),
      let cur := NoDrawGame.current_player g in
      NoDrawGame._get_player_moves g cur = oldest :: rest →
      (3 ≤ length (oldest :: rest))%nat →
      NoDrawGame.make_move g position = Ok (true, g') →
      NoDrawGame._get_player_moves g' cur = rest ++ [Z.to_nat position] ∧
      NoDrawGame.board g' !! oldest
      = Some (if decide (Z.to_nat position = oldest) then Some cur else None)).
  { intros g g' position oldest rest cur Hmoves Hlen Hmove.
    apply no_draw_make_move_true in Hmove
      as (_ & _ & Hpos & (b1 & moves1 & Hevict & Hboard & Hnew) & _).
    fold cur in Hevict, Hboard, Hnew. rewrite Hmoves in Hevict.
    destruct Hevict as [(Hlt & _)|(o & [= <- <-] & _ & Hold & -> & _)];
      [lia|].
    split; [done|]. rewrite Hboard. case_decide as Hp.
    - rewrite Hp, list_lookup_insert_eq; [done|by rewrite length_insert].
    - rewrite list_lookup_insert_ne by done.
      by rewrite list_lookup_insert_eq. }
  split; [exact Hgen|].
  intros g g' _ Hcur Hx Hmove.
  assert (Hhist : NoDrawGame._get_player_moves g (NoDrawGame.current_player g)
                  = [0; 2; 4]%nat) by (by rewrite Hcur).
  assert (Hcap : (3 ≤ length [0; 2; 4]%nat)%nat) by (simpl; lia).
  destruct (Hgen g g' 6 0%nat [2; 4]%nat Hhist Hcap Hmove) as [Hm Hb].
  rewrite Hcur in Hm, Hb. simpl in Hm, Hb. done.
Qed.

Lemma no_draw_fifo_eviction_witness :
  ∃ g', NoDrawGame.make_move no_draw_sample 6 = Ok (true, g') ∧
        NoDrawGame.board g' !! 0%nat = Some None ∧
        NoDrawGame.x_moves g' = [2; 4; 6]%nat.
Proof.
  eexists. split; [reflexivity|].
  apply (proj2 no_draw_fifo_eviction no_draw_sample).
  - apply no_draw_sample_reachable.
  - reflexivity.
  - reflexivity.
  - reflexivity.
Defined.

(** C6 as stated fails when the mover plays onto the oldest cell itself:
    in the sample position X, with history [0, 2, 4], plays 0; the move
    is accepted and cell 0 holds X afterwards, it is not empty. *)
Lemma no_draw_fifo_front_cell_counterexample :
  ¬ (∀ (g g' : NoDrawGame.t) (position : Z) (oldest : nat) (rest : list nat),
       NoDrawGame.reachable g →
       NoDrawGame._get_player_moves g (NoDrawGame.current_player g)
       = oldest :: rest →
       length (oldest :: rest) = 3%nat →
       NoDrawGame.make_move g position = Ok (true, g') →
       NoDrawGame.board g' !! oldest = Some None).
Proof.
  intros Hclaim.
  specialize (Hclaim no_draw_sample _ 0 0%nat [2; 4]%nat
                no_draw_sample_reachable eq_refl eq_refl eq_refl).
  discriminate Hclaim.
Qed.

(** ** Scripted positions *)

(** C7: on the test position with [x_moves = [2, 6, 8]] and
    [o_moves = [3, 4]] the No-Draw hard opponent returns 5, which completes
    the line (3, 4, 5); it does so from the fast path: the board is as it
    was and the transposition table is still empty, so no search ran. *)
Theorem hard_no_draw_fast_path_returns_5 :
  HardNoDraw.get_hard_move_no_draw fast_path_board [2; 6; 8]%nat [3; 4]%nat
  = Ok (Some 5%nat, fast_path_board, ∅) ∧
  HardNoDraw.fast_path [0; 1; 5; 7]%nat fast_path_board [3; 4]%nat
  = Ok (Some 5%nat, fast_path_board) ∧
  (b ← setitem fast_path_board 5 (Some O); check_winner b O) = Ok true.
Proof. repeat split; vm_compute; reflexivity. Qed.

(** C8: the medium opponent returns 5 on the first test position, its
    own win taking precedence over the block at 2, and returns 2 on the
    second, blocking X's line; whatever the random draw would have been. *)
Theorem medium_win_over_block_then_block (rnd : nat) :
  Medium.get_medium_move rnd win_over_block_board = Ok (Some 5%nat) ∧
  Medium.get_medium_move rnd block_board = Ok (Some 2%nat).
Proof. split; reflexivity. Qed.

(** ** The medium opponent in the No-Draw game *)

Lemma filter_of_elem {A} (f : A → result bool) (l r : list A) (x : A) :
  filter_of f l = Ok r → x ∈ r ↔ x ∈ l ∧ f x = Ok true.
Proof.
  revert r. induction l as [|y l IH]; intros r H; simpl in H.
  - simplify_eq. split; [by intros ?%elem_of_nil|by intros [?%elem_of_nil _]].
  - apply bind_Ok in H as (b & Hb & H).
    apply bind_Ok in H as (r' & Hr' & H). simplify_eq.
    specialize (IH r' Hr'). destruct b.
    + rewrite !elem_of_cons, IH. split.
      * intros [-> |[? ?]]; auto.
      * intros [[->|?] ?]; auto.
    + rewrite elem_of_cons, IH. split.
      * intros [? ?]; auto.
      * intros [[->|?] ?]; [congruence|done].
Qed.

Lemma empty_cells_elem (b : Board) (l : list nat) (i : nat) :
  empty_cells b = Ok l → i ∈ l ↔ (i < 9)%nat ∧ b !! i = Some None.
Proof.
  intros H. rewrite (filter_of_elem _ _ _ _ H). unfold range9.
  rewrite elem_of_seq. unfold getitem.
  destruct (b !! i) as [[?|]|]; simpl; split; intros [? ?];
    split; try done; lia.
Qed.

Lemma available_moves_elem (b : Board) (player_moves l : list nat) (i : nat) :
  Medium.available_moves b player_moves = Ok l →
  i ∈ l ↔ ((i < 9)%nat ∧ b !! i = Some None) ∨
          ((3 ≤ length player_moves)%nat ∧ head player_moves = Some i).
Proof.
  unfold Medium.available_moves. intros H.
  apply bind_Ok in H as (empty & Hempty & H).
  pose proof (empty_cells_elem b empty i Hempty) as Hi.
  case_decide as Hlen.
  - destruct player_moves as [|oldest rest]; [discriminate H|].
    simplify_eq/=. case_bool_decide as Hin.
    + rewrite Hi. split; [by left|]. intros [?|[_ [= <-]]]; [done|].
      by apply (empty_cells_elem b empty oldest Hempty).
    + rewrite elem_of_app, list_elem_of_singleton, Hi. split.
      * intros [?| ->]; auto.
      * intros [?|[_ [= <-]]]; auto.
  - simplify_eq. rewrite Hi. split; [by left|]. intros [?|[? _]]; [done|lia].
Qed.

Lemma find_winning_pos_elem (l : list nat) (b : Board) (p : player)
    (player_moves : list nat) (m : nat) :
  Medium.find_winning_pos l b p player_moves = Ok (Some m) → m ∈ l.
Proof.
  induction l as [|pos rest IH]; simpl; intros H; [discriminate H|].
  apply bind_Ok in H as (sim & _ & H).
  apply bind_Ok in H as (won & _ & H).
  destruct won.
  - simplify_eq. left.
  - right. auto.
Qed.

Lemma random_choice_elem {A} (rnd : nat) (l : list A) (x : A) :
  random_choice rnd l = Ok x → x ∈ l.
Proof.
  unfold random_choice. intros H%getitem_Ok.
  by eapply list_elem_of_lookup_2.
Qed.

Lemma get_medium_move_no_draw_available (rnd : nat) (b : Board)
    (x_moves o_moves : list nat) (m : nat) :
  Medium.get_medium_move_no_draw rnd b x_moves o_moves = Ok (Some m) →
  ∃ available,
    Medium.available_moves b o_moves = Ok available ∧ m ∈ available.
Proof.
  unfold Medium.get_medium_move_no_draw. intros H.
  apply bind_Ok in H as (available & Havail & H).
  exists available. split; [done|].
  destruct available as [|first rest]; [discriminate H|].
  apply bind_Ok in H as (win_move & Hwin & H).
  destruct win_move as [w|].
  - simplify_eq. unfold Medium.find_winning_move_no_draw in Hwin.
    rewrite Havail in Hwin. simpl in Hwin.
    by eapply find_winning_pos_elem.
  - apply bind_Ok in H as (block_move & _ & H).
    destruct block_move as [k|].
    + case_bool_decide as Hin.
      * by simplify_eq.
      * apply bind_Ok in H as (m' & Hm' & H). simplify_eq.
        by eapply random_choice_elem.
    + apply bind_Ok in H as (m' & Hm' & H). simplify_eq.
      by eapply random_choice_elem.
Qed.

(** C10, as the code has it: an index returned by
    [get_medium_move_no_draw] is an empty cell, or it is [o_moves[0]] with
    [o_moves] at capacity; so it is not a cell that holds X, provided
    [o_moves[0]] is not such a cell when [o_moves] is at capacity. *)
Theorem medium_no_draw_move_playable (rnd : nat) (b : Board)
    (x_moves o_moves : list nat) (m : nat) :
  Medium.get_medium_move_no_draw rnd b x_moves o_moves = Ok (Some m) →
  (((m < 9)%nat ∧ b !! m = Some None) ∨
   ((3 ≤ length o_moves)%nat ∧ head o_moves = Some m)) ∧
  (((3 ≤ length o_moves)%nat → ∀ k, head o_moves = Some k →
                                    b !! k ≠ Some (Some X)) →
   b !! m ≠ Some (Some X)).
Proof.
  intros (available & Havail & Hm)%get_medium_move_no_draw_available.
  apply (available_moves_elem _ _ _ _ Havail) in Hm.
  split; [done|]. intros Hhead.
  destruct Hm as [[_ ->]|[Hlen Hm]]; [done|]. by apply Hhead.
Qed.

Lemma medium_no_draw_move_playable_witness :
  (((2 < 9)%nat ∧ block_board !! 2%nat = Some None) ∨
   ((3 ≤ length [3]%nat)%nat ∧ head [3]%nat = Some 2%nat)) ∧
  (((3 ≤ length [3]%nat)%nat → ∀ k, head [3]%nat = Some k →
                                    block_board !! k ≠ Some (Some X)) →
   block_board !! 2%nat ≠ Some (Some X)).
Proof.
  apply (medium_no_draw_move_playable 0 block_board [0; 1]%nat [3]%nat 2).
  reflexivity.
Defined.

(** C10 as stated, for every board and histories, fails on a snapshot
    whose O history starts at a cell holding X: the random fallback may
    draw that cell. *)
Lemma medium_no_draw_stale_history_counterexample :
  Medium.get_medium_move_no_draw 8 stale_board [0]%nat [0; 1; 2]%nat
  = Ok (Some 0%nat) ∧
  stale_board !! 0%nat = Some (Some X).
Proof. split; reflexivity. Qed.

(** ** The standard search returns and restores the board *)

Lemma all_of_total {A} (f : A → result bool) (l : list A) :
  (∀ x, x ∈ l → ∃ b, f x = Ok b) → ∃ b, all_of f l = Ok b.
Proof.
  induction l as [|x l IH]; intros Hf; simpl; [eauto|].
  destruct (Hf x) as [b ->]; [left|]. simpl.
  destruct b; [|eauto]. apply IH. intros y Hy. apply Hf. by right.
Qed.

Lemma any_of_total {A} (f : A → result bool) (l : list A) :
  (∀ x, x ∈ l → ∃ b, f x = Ok b) → ∃ b, any_of f l = Ok b.
Proof.
  induction l as [|x l IH]; intros Hf; simpl; [eauto|].
  destruct (Hf x) as [b ->]; [left|]. simpl.
  destruct b; [eauto|]. apply IH. intros y Hy. apply Hf. by right.
Qed.

Lemma filter_of_total {A} (f : A → result bool) (l : list A) :
  (∀ x, x ∈ l → ∃ b, f x = Ok b) → ∃ r, filter_of f l = Ok r.
Proof.
  induction l as [|x l IH]; intros Hf; simpl; [eauto|].
  destruct (Hf x) as [b ->]; [left|]. simpl.
  destruct IH as [r ->]; [|simpl; eauto].
  intros y Hy. apply Hf. by right.
Qed.

Lemma getitem_total {A} (l : list A) (i : nat) :
  (i < length l)%nat → ∃ a, getitem l i = Ok a.
Proof.
  intros [a Ha]%lookup_lt_is_Some. exists a. by apply getitem_Ok.
Qed.

Lemma combo_cells_in_range (combo : nat * nat * nat) (i : nat) :
  combo ∈ WINNING_COMBINATIONS → i ∈ combo_cells combo → (i < 9)%nat.
Proof.
  unfold WINNING_COMBINATIONS. intros Hc Hi.
  repeat (apply elem_of_cons in Hc as [->|Hc]);
    [..|by apply elem_of_nil in Hc];
    simpl in Hi;
    repeat (apply elem_of_cons in Hi as [->|Hi]);
    try lia; by apply elem_of_nil in Hi.
Qed.

Lemma check_winner_total (b : Board) (p : player) :
  (9 ≤ length b)%nat → ∃ won, check_winner b p = Ok won.
Proof.
  intros Hlen. apply any_of_total. intros combo Hcombo.
  apply all_of_total. intros i Hi.
  destruct (getitem_total b i) as [c ->]; [|simpl; eauto].
  pose proof (combo_cells_in_range combo i Hcombo Hi). lia.
Qed.

Lemma empty_cells_total (b : Board) :
  (9 ≤ length b)%nat → ∃ l, empty_cells b = Ok l.
Proof.
  intros Hlen. apply filter_of_total. intros i Hi.
  unfold range9 in Hi. apply elem_of_seq in Hi.
  destruct (getitem_total b i) as [c ->]; [lia|simpl; eauto].
Qed.

(** A placement on an empty cell followed by its undo is the identity. *)
Lemma place_undo (b : Board) (pos : nat) (mark : player) :
  b !! pos = Some None →
  setitem b pos (Some mark) = Ok (<[pos:=Some mark]> b) ∧
  setitem (<[pos:=Some mark]> b) pos None = Ok b.
Proof.
  intros Hcell. pose proof (lookup_lt_Some _ _ _ Hcell) as Hlt. split.
  - by apply setitem_Ok.
  - apply setitem_Ok. rewrite length_insert. split; [done|].
    by rewrite list_insert_insert_eq, list_insert_id.
Qed.

Lemma minimax_loop_restores (rec : Board → result (score * Board))
    (mark : player) (pick : score → score → score) (empty : list nat)
    (best : score) (b : Board) :
  (∀ pos, pos ∈ empty → b !! pos = Some None) →
  (∀ pos, pos ∈ empty →
          ∃ s, rec (<[pos:=Some mark]> b) = Ok (s, <[pos:=Some mark]> b)) →
  ∃ s, Hard.minimax_loop rec mark pick empty best b = Ok (s, b).
Proof.
  revert best. induction empty as [|pos rest IH]; intros best Hcells Hrec;
    simpl; [eauto|].
  destruct (place_undo b pos mark) as [-> Hundo]; [apply Hcells; left|].
  simpl. destruct (Hrec pos) as [s ->]; [left|]. simpl. rewrite Hundo. simpl.
  apply IH; intros pos' Hpos'; [apply Hcells|apply Hrec]; by right.
Qed.

Lemma cells_left_mark (b : Board) (pos : nat) (mark : player) :
  (pos < 9)%nat → b !! pos = Some None →
  S (cells_left (<[pos:=Some mark]> b)) = cells_left b.
Proof.
  intros Hpos Hcell. unfold cells_left. rewrite take_insert_lt by done.
  assert (Htake : take 9 b !! pos = Some None) by (by rewrite lookup_take_lt).
  pose proof (count_cells_insert None None (Some mark) _ _ Htake) as H.
  repeat case_decide; simplify_eq; lia.
Qed.

Lemma minimax_total_restores (fuel : nat) (b : Board) (depth : Z)
    (is_maximizing : bool) :
  (9 ≤ length b)%nat → (cells_left b < fuel)%nat →
  ∃ s, Hard.minimax fuel b depth is_maximizing = Ok (s, b).
Proof.
  revert b depth is_maximizing.
  induction fuel as [|fuel IH]; intros b depth is_maximizing Hlen Hfuel;
    [lia|].
  simpl.
  destruct (check_winner_total b O Hlen) as [wo ->]. simpl.
  destruct wo; [eauto|].
  destruct (check_winner_total b X Hlen) as [wx ->]. simpl.
  destruct wx; [eauto|].
  destruct (is_board_full b); [eauto|].
  destruct (empty_cells_total b Hlen) as [empty Hempty]. rewrite Hempty. simpl.
  assert (Hcells : ∀ pos, pos ∈ empty → (pos < 9)%nat ∧ b !! pos = Some None).
  { intros pos Hpos. by apply (empty_cells_elem b empty pos Hempty). }
  destruct is_maximizing; apply minimax_loop_restores;
    try (intros pos Hpos; by apply Hcells);
    intros pos [Hpos Hcell]%Hcells; apply IH;
    try (by rewrite length_insert);
    pose proof (cells_left_mark b pos O Hpos Hcell);
    pose proof (cells_left_mark b pos X Hpos Hcell); lia.
Qed.

Lemma hard_move_loop_restores (fuel : nat) (empty : list nat)
    (best_score : score) (best_move : nat) (b : Board) :
  (9 ≤ fuel)%nat → (9 ≤ length b)%nat →
  (∀ pos, pos ∈ empty → (pos < 9)%nat ∧ b !! pos = Some None) →
  ∃ m, Hard.hard_move_loop fuel empty best_score best_move b = Ok (m, b) ∧
       (m = best_move ∨ m ∈ empty).
Proof.
  intros Hfuel Hlen. revert best_score best_move.
  induction empty as [|pos rest IH]; intros best_score best_move Hcells;
    simpl; [eauto|].
  destruct (Hcells pos) as [Hpos Hcell]; [left|].
  destruct (place_undo b pos O Hcell) as [-> Hundo]. simpl.
  destruct (minimax_total_restores fuel (<[pos:=Some O]> b) 0 false)
    as [s ->].
  { by rewrite length_insert. }
  { pose proof (cells_left_mark b pos O Hpos Hcell) as Hleft.
    assert (cells_left b ≤ 9)%nat; [|lia].
    unfold cells_left, count_cells.
    etransitivity; [apply length_filter|]. rewrite length_take. lia. }
  simpl. rewrite Hundo. simpl.
  assert (Hrest : ∀ pos', pos' ∈ rest → (pos' < 9)%nat ∧ b !! pos' = Some None).
  { intros pos' Hpos'. apply Hcells. by right. }
  destruct (score_ltb best_score s).
  - destruct (IH s pos Hrest) as (m & -> & Hm). exists m. split; [done|].
    right. destruct Hm as [->|Hm]; [left|by right].
  - destruct (IH best_score best_move Hrest) as (m & -> & Hm).
    exists m. split; [done|]. destruct Hm as [->|Hm]; [by left|].
    right. by right.
Qed.

(** [get_hard_move] returns on every board of at least nine cells, with
    the board as it was handed in; the move is [None] exactly when none of
    the nine cells is empty, and otherwise an empty cell. *)
Lemma get_hard_move_total_and_restores (b : Board) :
  (9 ≤ length b)%nat →
  ∃ m, Hard.get_hard_move b = Ok (m, b) ∧
       match m with
       | Some pos => (pos < 9)%nat ∧ b !! pos = Some None
       | None => ∀ pos, (pos < 9)%nat → b !! pos ≠ Some None
       end.
Proof.
  intros Hlen. unfold Hard.get_hard_move.
  destruct (empty_cells_total b Hlen) as [empty Hempty]. rewrite Hempty. simpl.
  pose proof (λ i, empty_cells_elem b empty i Hempty) as Helem.
  destruct empty as [|first rest].
  - exists None. split; [done|]. intros pos Hpos Hcell.
    eapply elem_of_nil, Helem. eauto.
  - destruct (hard_move_loop_restores Hard.minimax_fuel (first :: rest)
                NegInf first b) as (m & -> & Hm);
      [unfold Hard.minimax_fuel; lia|done| |].
    { intros pos Hpos. by apply Helem. }
    exists (Some m). split; [done|]. apply Helem.
    destruct Hm as [->|Hm]; [left|done].
Qed.

(** ** The hard opponent never loses the standard game *)

Lemma explore_safe (fuel : nat) (g : TicTacToeGame.t) :
  Playout.explore fuel g = true → Playout.x_has_won g = false.
Proof.
  destruct fuel; simpl; intros [H _]%andb_true_iff;
    by apply negb_true_iff in H.
Qed.

Lemma explore_running (fuel : nat) (g : TicTacToeGame.t) :
  TicTacToeGame.game_over g = false →
  Playout.explore fuel g = true →
  ∃ fuel',
    fuel = S fuel' ∧
    match TicTacToeGame.current_player g with
    | X => forallb (λ i, match TicTacToeGame.make_move g (Z.of_nat i) with
                         | Ok (true, g') => Playout.explore fuel' g'
                         | Ok (false, _) => true
                         | _ => false
                         end) range9
    | O => match Playout.ai_turn g with
           | Ok g' => Playout.explore fuel' g'
           | _ => false
           end
    end = true.
Proof.
  intros Hon Hexp. destruct fuel as [|fuel].
  - unfold Playout.explore in Hexp. rewrite Hon in Hexp.
    apply andb_true_iff in Hexp as [_ Hexp]. discriminate Hexp.
  - exists fuel. split; [done|].
    change (Playout.explore (S fuel) g) with
      (negb (Playout.x_has_won g) &&
       (if TicTacToeGame.game_over g then true else
        match TicTacToeGame.current_player g with
        | X => forallb (λ i, match TicTacToeGame.make_move g (Z.of_nat i) with
                             | Ok (true, g') => Playout.explore fuel g'
                             | Ok (false, _) => true
                             | _ => false
                             end) range9
        | O => match Playout.ai_turn g with
               | Ok g' => Playout.explore fuel g'
               | _ => false
               end
        end)) in Hexp.
    rewrite Hon in Hexp. by apply andb_true_iff in Hexp as [_ Hexp].
Qed.

Lemma explore_step (fuel : nat) (g g' : TicTacToeGame.t) :
  Playout.explore fuel g = true → Playout.step g g' →
  ∃ fuel', Playout.explore fuel' g' = true.
Proof.
  intros Hexp Hstep.
  assert (Hon : TicTacToeGame.game_over g = false) by (by destruct Hstep).
  apply explore_running in Hexp as (fuel' & _ & Hexp); [|done].
  exists fuel'. destruct Hstep as [position g' _ Hcur Hmove|g' _ Hcur Hai];
    rewrite Hcur in Hexp.
  - pose proof (standard_make_move_true _ _ _ Hmove) as (_ & Hrange & _).
    rewrite forallb_forall in Hexp.
    specialize (Hexp (Z.to_nat position)).
    rewrite Z2Nat.id, Hmove in Hexp by lia.
    apply Hexp. apply list_elem_of_In, elem_of_seq. lia.
  - by rewrite Hai in Hexp.
Qed.

Lemma explore_playout (fuel : nat) (g0 g : TicTacToeGame.t) :
  Playout.explore fuel g0 = true → Playout.playout_from g0 g →
  ∃ fuel', Playout.explore fuel' g = true.
Proof.
  intros Hexp. induction 1 as [|g g' _ [fuel' IH] Hstep].
  - by exists fuel.
  - by eapply explore_step.
Qed.

Lemma explore_start (computer_starts : bool) :
  Playout.explore 10 (Playout._start_game computer_starts) = true.
Proof. destruct computer_starts; vm_compute; reflexivity. Qed.

(** C3: in every playout of the standard game, whether the human or the
    computer moves first, in which X plays any accepted move at its turns
    and O plays what [get_hard_move] returns, a finished game has winner O
    or no winner; X is never the winner. *)
Theorem hard_ai_never_loses (g : TicTacToeGame.t) :
  Playout.playout g → TicTacToeGame.game_over g = true →
  TicTacToeGame.winner g = Some O ∨ TicTacToeGame.winner g = None.
Proof.
  intros [computer_starts Hplay] Hover.
  destruct (explore_playout _ _ _ (explore_start computer_starts) Hplay)
    as [fuel Hexp].
  apply explore_safe in Hexp. unfold Playout.x_has_won in Hexp.
  rewrite Hover in Hexp. simpl in Hexp. apply bool_decide_eq_false in Hexp.
  destruct (TicTacToeGame.winner g) as [[]|]; auto. done.
Qed.

(** In such a playout the computer's turn never raises. *)
Lemma hard_ai_turn_total (g : TicTacToeGame.t) :
  Playout.playout g → TicTacToeGame.game_over g = false →
  TicTacToeGame.current_player g = O →
  ∃ g', Playout.ai_turn g = Ok g'.
Proof.
  intros [computer_starts Hplay] Hon Hcur.
  destruct (explore_playout _ _ _ (explore_start computer_starts) Hplay)
    as [fuel Hexp].
  apply explore_running in Hexp as (fuel' & _ & Hexp); [|done].
  rewrite Hcur in Hexp. destruct (Playout.ai_turn g); eauto; discriminate.
Qed.

Lemma playout_script_playout (g0 g g' : TicTacToeGame.t) (positions : list Z) :
  Playout.playout_from g0 g → playout_script g positions = Some g' →
  Playout.playout_from g0 g'.
Proof.
  revert g. induction positions as [|position rest IH]; intros g Hg Hs;
    simpl in Hs.
  - by simplify_eq.
  - destruct (TicTacToeGame.game_over g) eqn:Hon; [discriminate Hs|].
    destruct (TicTacToeGame.current_player g) eqn:Hcur; [|discriminate Hs].
    destruct (TicTacToeGame.make_move g position) as [[[] g1]| |] eqn:Hmove;
      try discriminate Hs.
    assert (Hg1 : Playout.playout_from g0 g1).
    { eapply Playout.playout_step; [exact Hg|].
      by eapply Playout.step_human. }
    destruct (TicTacToeGame.game_over g1) eqn:Hon1; [by eapply IH|].
    destruct (TicTacToeGame.current_player g1) eqn:Hcur1; [discriminate Hs|].
    destruct (Playout.ai_turn g1) as [g2| |] eqn:Hai; try discriminate Hs.
    eapply IH; [|exact Hs].
    eapply Playout.playout_step; [exact Hg1|]. by eapply Playout.step_ai.
Qed.

Lemma playout_sample_playout : Playout.playout playout_sample.
Proof.
  exists false.
  apply (playout_script_playout _ TicTacToeGame.reset _ [0; 1; 3]).
  - apply Playout.playout_here.
  - vm_compute. reflexivity.
Qed.

Lemma computer_first_sample_playout : Playout.playout computer_first_sample.
Proof.
  exists true.
  apply (playout_script_playout _ computer_opening _ [1; 2]).
  - eapply Playout.playout_step; [apply Playout.playout_here|].
    apply Playout.step_ai; [reflexivity|reflexivity|].
    vm_compute. reflexivity.
  - vm_compute. reflexivity.
Qed.

Lemma hard_ai_never_loses_witness :
  (TicTacToeGame.winner playout_sample = Some O ∨
   TicTacToeGame.winner playout_sample = None) ∧
  (TicTacToeGame.winner computer_first_sample = Some O ∨
   TicTacToeGame.winner computer_first_sample = None).
Proof.
  split.
  - apply (hard_ai_never_loses playout_sample).
    + apply playout_sample_playout.
    + reflexivity.
  - apply (hard_ai_never_loses computer_first_sample).
    + apply computer_first_sample_playout.
    + reflexivity.
Defined.

(** ** The No-Draw search never runs out of fuel *)

Lemma fuelled_Ok {A} (a : A) : fuelled (Ok a).
Proof. done. Qed.

Lemma fuelled_IndexError {A} : fuelled (@IndexError A).
Proof. done. Qed.

Lemma fuelled_bind {A B} (m : result A) (k : A → result B) :
  fuelled m → (∀ a, fuelled (k a)) → fuelled (m ≫= k).
Proof. intros Hm Hk. destruct m; simpl; [apply Hk|done|done]. Qed.

Lemma fuelled_getitem {A} (l : list A) (i : nat) : fuelled (getitem l i).
Proof. unfold getitem. by destruct (l !! i). Qed.

Lemma fuelled_setitem {A} (l : list A) (i : nat) (v : A) :
  fuelled (setitem l i v).
Proof. unfold setitem. by destruct (i <? length l)%nat. Qed.

Create HintDb fuelled.
#[local] Hint Resolve fuelled_Ok fuelled_IndexError fuelled_getitem
  fuelled_setitem : fuelled.

(** Peel the binds and branches of a goal [fuelled _]. *)
Ltac fuelled_steps :=
  repeat first
    [ progress eauto 2 with fuelled
    | apply fuelled_bind; [|intros ?]
    | match goal with
      | |- fuelled (match ?x with _ => _ end) => destruct x
      | |- fuelled (if ?x then _ else _) => destruct x
      end ].

Lemma fuelled_all_of {A} (f : A → result bool) (l : list A) :
  (∀ x, fuelled (f x)) → fuelled (all_of f l).
Proof. intros Hf. induction l; simpl; fuelled_steps. Qed.

Lemma fuelled_any_of {A} (f : A → result bool) (l : list A) :
  (∀ x, fuelled (f x)) → fuelled (any_of f l).
Proof. intros Hf. induction l; simpl; fuelled_steps. Qed.

Lemma fuelled_filter_of {A} (f : A → result bool) (l : list A) :
  (∀ x, fuelled (f x)) → fuelled (filter_of f l).
Proof. intros Hf. induction l; simpl; fuelled_steps. Qed.

Lemma fuelled_mapM {A B} (f : A → result B) (l : list A) :
  (∀ x, fuelled (f x)) → fuelled (mapM f l).
Proof. intros Hf. induction l; simpl; fuelled_steps. Qed.

Lemma fuelled_check_winner (b : Board) (p : player) :
  fuelled (check_winner b p).
Proof.
  apply fuelled_any_of. intros combo. apply fuelled_all_of. intros i.
  fuelled_steps.
Qed.

Lemma fuelled_empty_cells (b : Board) : fuelled (empty_cells b).
Proof. apply fuelled_filter_of. intros i. fuelled_steps. Qed.

Lemma fuelled_heuristic_loop (combos : list (nat * nat * nat)) (b : Board)
    (o_score x_score : Z) :
  fuelled (HardNoDraw.heuristic_loop combos b o_score x_score).
Proof.
  revert o_score x_score.
  induction combos as [|combo rest IH]; intros o_score x_score; simpl;
    [done|].
  apply fuelled_bind; [apply fuelled_mapM; auto with fuelled|].
  intros vals. apply IH.
Qed.

Lemma fuelled_heuristic_score (b : Board) :
  fuelled (HardNoDraw._heuristic_score b).
Proof. apply fuelled_heuristic_loop. Qed.

Lemma fuelled_available (b : Board) (p : player) (player_moves : list nat) :
  fuelled (HardNoDraw._get_available_moves_no_draw b p player_moves).
Proof.
  unfold HardNoDraw._get_available_moves_no_draw.
  pose proof fuelled_empty_cells. fuelled_steps.
Qed.

Lemma fuelled_simulate_move (b : Board) (p : player) (pos : nat)
    (player_moves : list nat) :
  fuelled (HardNoDraw.simulate_move b p pos player_moves).
Proof. unfold HardNoDraw.simulate_move. fuelled_steps. Qed.

Lemma fuelled_undo_move (b : Board) (p : player) (pos : nat)
    (removed : option nat) :
  fuelled (HardNoDraw.undo_move b p pos removed).
Proof. unfold HardNoDraw.undo_move. fuelled_steps. Qed.

#[local] Hint Resolve fuelled_check_winner fuelled_empty_cells
  fuelled_heuristic_score fuelled_available fuelled_simulate_move
  fuelled_undo_move : fuelled.

Lemma fuelled_max_loop rec depth o_moves available best alpha beta b tp :
  (∀ b new_moves alpha beta tp, fuelled (rec b new_moves alpha beta tp)) →
  fuelled (HardNoDraw.max_loop rec depth o_moves available best alpha beta b tp).
Proof.
  intros Hrec. revert best alpha b tp.
  induction available as [|pos rest IH]; intros best alpha b tp; simpl;
    fuelled_steps.
Qed.

Lemma fuelled_min_loop rec depth x_moves available best alpha beta b tp :
  (∀ b new_moves alpha beta tp, fuelled (rec b new_moves alpha beta tp)) →
  fuelled (HardNoDraw.min_loop rec depth x_moves available best alpha beta b tp).
Proof.
  intros Hrec. revert best beta b tp.
  induction available as [|pos rest IH]; intros best beta b tp; simpl;
    fuelled_steps.
Qed.

Lemma fuelled_minimax_no_draw fuel b depth is_maximizing x_moves o_moves
    max_depth alpha beta tp :
  (Z.to_nat (max_depth - depth) < fuel)%nat →
  fuelled (HardNoDraw.minimax_no_draw fuel b depth is_maximizing x_moves
             o_moves max_depth alpha beta tp).
Proof.
  revert b depth is_maximizing x_moves o_moves alpha beta tp.
  induction fuel as [|fuel IH];
    intros b depth is_maximizing x_moves o_moves alpha beta tp Hfuel; [lia|].
  simpl.
  apply fuelled_bind; [auto with fuelled|]. intros [|]; [done|].
  apply fuelled_bind; [auto with fuelled|]. intros [|]; [done|].
  destruct (Z.leb_spec max_depth depth) as [|Hdepth]; [fuelled_steps|].
  destruct (tp !! _); [done|].
  apply fuelled_bind; [auto with fuelled|]. intros [|first rest];
    [fuelled_steps|].
  destruct is_maximizing.
  - apply fuelled_bind; [|intros [[? ?] ?]; done].
    apply fuelled_max_loop. intros. apply IH. lia.
  - apply fuelled_bind; [|intros [[? ?] ?]; done].
    apply fuelled_min_loop. intros. apply IH. lia.
Qed.

Lemma fuelled_fast_path available b o_moves :
  fuelled (HardNoDraw.fast_path available b o_moves).
Proof.
  revert b. induction available as [|pos rest IH]; intros b; simpl;
    fuelled_steps.
Qed.

Lemma fuelled_top_loop fuel x_moves o_moves max_depth available best_score
    best_move alpha beta b tp :
  (Z.to_nat max_depth < fuel)%nat →
  fuelled (HardNoDraw.top_loop fuel x_moves o_moves max_depth available
             best_score best_move alpha beta b tp).
Proof.
  intros Hfuel. revert alpha b tp.
  induction available as [|pos rest IH]; intros alpha b tp; simpl; [done|].
  apply fuelled_bind; [auto with fuelled|]. intros [[removed new_o_moves] b1].
  apply fuelled_bind; [auto with fuelled|]. intros won.
  apply fuelled_bind; [|intros [[s b2] tp2]; apply IH].
  destruct won; [done|]. apply fuelled_minimax_no_draw.
  rewrite Z.sub_0_r. done.
Qed.

(** The fuel [get_hard_move_no_draw] passes is enough on every input. *)
Lemma get_hard_move_no_draw_fuelled b x_moves o_moves :
  HardNoDraw.get_hard_move_no_draw b x_moves o_moves ≠ OutOfFuel.
Proof.
  unfold HardNoDraw.get_hard_move_no_draw.
  apply fuelled_bind; [auto with fuelled|]. intros [|first rest]; [done|].
  apply fuelled_bind; [apply fuelled_fast_path|]. intros [[pos|] b1]; [done|].
  apply fuelled_bind; [|intros [[? ?] ?]; done].
  apply fuelled_top_loop. unfold HardNoDraw.search_fuel. lia.
Qed.

(** The fuel [get_hard_move] passes is enough on every input: a board
    shorter than nine cells raises before any search, a longer one is
    covered by [get_hard_move_total_and_restores]. *)
Lemma get_hard_move_fuelled (b : Board) : fuelled (Hard.get_hard_move b).
Proof.
  destruct (decide (9 ≤ length b)%nat) as [Hlen|Hshort].
  - by destruct (get_hard_move_total_and_restores b Hlen) as (m & -> & _).
  - unfold Hard.get_hard_move.
    destruct (empty_cells b) as [empty| |] eqn:Hempty; simpl; [|done|].
    + exfalso. apply Hshort.
      assert (Hcell : ∃ c, getitem b 8 = Ok c).
      { unfold empty_cells, range9 in Hempty. simpl in Hempty.
        repeat (apply bind_Ok in Hempty as (? & _ & Hempty);
                apply bind_Ok in Hempty as (? & Hempty & _)).
        apply bind_Ok in Hempty as (v & Hv & _).
        apply bind_Ok in Hv as (c & Hc & _). eauto. }
      destruct Hcell as [c Hc%getitem_Ok]. apply lookup_lt_Some in Hc. lia.
    + by pose proof (fuelled_empty_cells b).
Qed.

(** [threat_board] with its histories is a snapshot the engine produces. *)
Lemma threat_state_reachable : NoDrawGame.reachable threat_state.
Proof.
  apply (no_draw_play_reachable NoDrawGame.reset _ [0; 8; 1]).
  - apply NoDrawGame.reachable_reset.
  - reflexivity.
Qed.

(** ** The hard opponent in the No-Draw game *)

(** The last loop of [get_hard_move_no_draw] hands back the [best_move]
    it was started with. *)
Lemma top_loop_best_move (fuel : nat) (x_moves o_moves : list nat)
    (max_depth : Z) (available : list nat) (best_score : score)
    (best_move : nat) (alpha beta : score) (b : Board)
    (tp : HardNoDraw.tp_table) (m : nat) (b' : Board)
    (tp' : HardNoDraw.tp_table) :
  HardNoDraw.top_loop fuel x_moves o_moves max_depth available best_score
    best_move alpha beta b tp = Ok (m, b', tp') →
  m = best_move.
Proof.
  revert alpha b tp.
  induction available as [|pos rest IH]; intros alpha b tp H; simpl in H.
  - by simplify_eq.
  - apply bind_Ok in H as ([[removed new_o_moves] b1] & _ & H).
    apply bind_Ok in H as (won & _ & H).
    apply bind_Ok in H as ([[s b2] tp2] & _ & H).
    by eapply IH.
Qed.

(** Whatever the search finds, the move returned is the fast path's win
    or the first candidate of the ordered list. *)
Lemma get_hard_move_no_draw_first_candidate (b : Board)
    (x_moves o_moves : list nat) (m : nat) (b' : Board)
    (tp : HardNoDraw.tp_table) :
  HardNoDraw.get_hard_move_no_draw b x_moves o_moves = Ok (Some m, b', tp) →
  ∃ first rest,
    HardNoDraw._get_available_moves_no_draw b O o_moves = Ok (first :: rest) ∧
    (HardNoDraw.fast_path (first :: rest) b o_moves = Ok (Some m, b') ∨
     m = first).
Proof.
  unfold HardNoDraw.get_hard_move_no_draw. intros H.
  apply bind_Ok in H as (available & Havail & H).
  destruct available as [|first rest]; [discriminate H|].
  exists first, rest. split; [done|].
  apply bind_Ok in H as ([won b1] & Hfast & H).
  destruct won as [pos|].
  - simplify_eq. by left.
  - apply bind_Ok in H as ([[best_move b2] tp2] & Hloop & H).
    apply top_loop_best_move in Hloop. simplify_eq. by right.
Qed.

(** C1 fails on the code: with X on 0 and 1 and O on 8 the candidates
    are 4, 2, 6, 3, 5, 7 in order and none wins at once; the score of
    candidate 4 is -10 (X completes the top row next), the score of
    candidate 2 is 1, yet the function returns 4, the first candidate. *)
Theorem hard_no_draw_returns_first_not_best :
  HardNoDraw._get_available_moves_no_draw threat_board O [8]%nat
  = Ok [4; 2; 6; 3; 5; 7]%nat ∧
  HardNoDraw.fast_path [4; 2; 6; 3; 5; 7]%nat threat_board [8]%nat
  = Ok (None, threat_board) ∧
  HardNoDraw.candidate_score threat_board [0; 1]%nat [8]%nat 4 = Ok (Fin (-10)) ∧
  HardNoDraw.candidate_score threat_board [0; 1]%nat [8]%nat 2 = Ok (Fin 1) ∧
  (r ← HardNoDraw.get_hard_move_no_draw threat_board [0; 1]%nat [8]%nat;
   Ok r.1.1) = Ok (Some 4%nat).
Proof. repeat split; vm_compute; reflexivity. Qed.

(** C2 fails on the code: on the same position [get_hard_move_no_draw]
    returns with the caller's board changed; the last loop placed an O on
    every candidate cell and took none back. *)
Theorem hard_no_draw_leaves_board_changed :
  (r ← HardNoDraw.get_hard_move_no_draw threat_board [0; 1]%nat [8]%nat;
   Ok (r.1.1, r.1.2))
  = Ok (Some 4%nat,
        [Some X; Some X; Some O; Some O; Some O; Some O; Some O; Some O;
         Some O]) ∧
  [Some X; Some X; Some O; Some O; Some O; Some O; Some O; Some O; Some O]
  ≠ threat_board.
Proof. split; [vm_compute; reflexivity|discriminate]. Qed.

(** ** Lines and winners *)

Lemma all_of_true {A} (f : A → result bool) (l : list A) :
  all_of f l = Ok true ↔ ∀ x, x ∈ l → f x = Ok true.
Proof.
  induction l as [|x l IH]; simpl.
  - split; [by intros _ ? ?%elem_of_nil|done].
  - split.
    + intros H. apply bind_Ok in H as ([] & Hx & H); [|discriminate H].
      intros y [->|Hy]%elem_of_cons; [done|]. by apply IH.
    + intros H. rewrite (H x) by left. simpl. apply IH.
      intros y Hy. apply H. by right.
Qed.

Lemma any_of_true {A} (f : A → result bool) (l : list A) :
  any_of f l = Ok true → ∃ x, x ∈ l ∧ f x = Ok true.
Proof.
  induction l as [|x l IH]; simpl; intros H; [discriminate H|].
  apply bind_Ok in H as ([] & Hx & H).
  - exists x. split; [left|done].
  - destruct (IH H) as (y & Hy & Hfy). exists y. split; [by right|done].
Qed.

Lemma any_of_false {A} (f : A → result bool) (l : list A) :
  any_of f l = Ok false ↔ ∀ x, x ∈ l → f x = Ok false.
Proof.
  induction l as [|x l IH]; simpl.
  - split; [by intros _ ? ?%elem_of_nil|done].
  - split.
    + intros H. apply bind_Ok in H as ([] & Hx & H); [discriminate H|].
      intros y [->|Hy]%elem_of_cons; [done|]. by apply IH.
    + intros H. rewrite (H x) by left. simpl. apply IH.
      intros y Hy. apply H. by right.
Qed.

(** The test [board[i] == player] on one cell. *)
Lemma cell_test_true (b : Board) (p : player) (i : nat) :
  (c ← getitem b i; Ok (cell_is p c)) = Ok true ↔ b !! i = Some (Some p).
Proof.
  unfold getitem, cell_is. destruct (b !! i) as [c|]; simpl.
  - case_bool_decide; split; intros Hc; simplify_eq; done.
  - split; intros Hc; discriminate Hc.
Qed.

Lemma line_test_true (b : Board) (p : player) (combo : nat * nat * nat) :
  all_of (λ i, c ← getitem b i; Ok (cell_is p c)) (combo_cells combo)
  = Ok true ↔ holds_line b p combo.
Proof.
  rewrite all_of_true. unfold holds_line.
  split; intros H i Hi; apply cell_test_true; auto.
Qed.

Lemma line_test_false (b : Board) (p : player) (combo : nat * nat * nat) :
  (9 ≤ length b)%nat → combo ∈ WINNING_COMBINATIONS →
  all_of (λ i, c ← getitem b i; Ok (cell_is p c)) (combo_cells combo)
  = Ok false ↔ ¬ holds_line b p combo.
Proof.
  intros Hlen Hcombo. rewrite <-line_test_true.
  destruct (all_of_total (λ i, c ← getitem b i; Ok (cell_is p c))
              (combo_cells combo)) as [[] ->].
  - intros i Hi. destruct (getitem_total b i) as [c ->]; [|simpl; eauto].
    pose proof (combo_cells_in_range combo i Hcombo Hi). lia.
  - split; [discriminate|]. intros H. by destruct H.
  - split; [|done]. intros _. discriminate.
Qed.

(** [check_winner] says yes exactly when one of the eight lines is held,
    and never raises on a board of nine cells or more. *)
Lemma check_winner_true (b : Board) (p : player) :
  (9 ≤ length b)%nat → check_winner b p = Ok true ↔ has_line b p.
Proof.
  intros Hlen. unfold check_winner, has_line. split.
  - intros (combo & Hcombo & Hline)%any_of_true.
    exists combo. split; [done|]. by apply line_test_true.
  - intros (combo & Hcombo & Hline).
    destruct (check_winner_total b p Hlen) as [[] Hw]; [done|].
    unfold check_winner in Hw. rewrite any_of_false in Hw.
    specialize (Hw combo Hcombo). apply line_test_false in Hw; done.
Qed.

Lemma check_winner_false (b : Board) (p : player) :
  (9 ≤ length b)%nat → check_winner b p = Ok false ↔ ¬ has_line b p.
Proof.
  intros Hlen. rewrite <-(check_winner_true b p Hlen).
  destruct (check_winner_total b p Hlen) as [[] ->].
  - split; [discriminate|]. intros H. by destruct H.
  - split; [|done]. intros _. discriminate.
Qed.

(** X1: on a board of nine cells or more
    [check_winner] never raises, and it returns [True] exactly when one of
    the eight combinations has all three cells equal to the player. *)
Theorem check_winner_decides_lines (b : Board) (p : player) :
  (9 ≤ length b)%nat →
  (check_winner b p = Ok true ∧ has_line b p) ∨
  (check_winner b p = Ok false ∧ ¬ has_line b p).
Proof.
  intros Hlen. destruct (check_winner_total b p Hlen) as [[] Hw].
  - left. split; [done|]. by apply check_winner_true.
  - right. split; [done|]. by apply check_winner_false.
Qed.

(** Marking an empty cell for one player gives the other no line. *)
Lemma has_line_mark_other (b : Board) (p q : player) (i : nat) :
  p ≠ q → has_line (<[i:=Some p]> b) q → has_line b q.
Proof.
  intros Hpq (combo & Hcombo & Hline). exists combo. split; [done|].
  intros j Hj. specialize (Hline j Hj).
  destruct (decide (i = j)) as [->|Hne].
  - apply list_lookup_insert_Some in Hline as [(_ & ? & _)|[? _]];
      [congruence|done].
  - by rewrite list_lookup_insert_ne in Hline.
Qed.

(** ** Outcomes of the standard game *)

(** What an accepted move decides, branch by branch. *)
Lemma standard_make_move_outcome (g g' : TicTacToeGame.t) (position : Z) :
  TicTacToeGame.make_move g position = Ok (true, g') →
  let cur := TicTacToeGame.current_player g in
  let b' := <[Z.to_nat position := Some cur]> (TicTacToeGame.board g) in
  TicTacToeGame.board g' = b' ∧
  ((check_winner b' cur = Ok true ∧
    TicTacToeGame.game_over g' = true ∧
    TicTacToeGame.winner g' = Some cur) ∨
   (check_winner b' cur = Ok false ∧ is_board_full b' = true ∧
    TicTacToeGame.game_over g' = true ∧
    TicTacToeGame.winner g' = None) ∨
   (check_winner b' cur = Ok false ∧ is_board_full b' = false ∧
    TicTacToeGame.game_over g' = false ∧
    TicTacToeGame.winner g' = TicTacToeGame.winner g)).
Proof.
  intros H cur b'.
  pose proof (standard_make_move_true _ _ _ H) as (Hon & _).
  unfold TicTacToeGame.make_move in H.
  apply bind_Ok in H as (valid & _ & H).
  destruct valid; simpl in H; [|discriminate H].
  apply bind_Ok in H as (b1 & Hb1 & H).
  apply setitem_Ok in Hb1 as [_ ->]. fold cur b' in H.
  apply bind_Ok in H as (won & Hwon & H).
  destruct won; [|destruct (is_board_full b') eqn:Hfull]; simplify_eq/=;
    (split; [done|]).
  - left. repeat split; auto.
  - right. left. repeat split; auto.
  - right. right. repeat split; auto.
Qed.

Lemma is_board_full_no_empty (b : Board) :
  is_board_full b = true ↔ ∀ i, b !! i ≠ Some None.
Proof.
  unfold is_board_full. rewrite forallb_forall. split.
  - intros H i Hi. apply list_elem_of_lookup_2, list_elem_of_In, H in Hi.
    discriminate Hi.
  - intros H c Hc. destruct c; [done|].
    apply list_elem_of_In, list_elem_of_lookup in Hc as [i Hi].
    by destruct (H i).
Qed.

Lemma empty_board_no_line (n : nat) (p : player) :
  ¬ has_line (replicate n None) p.
Proof.
  intros (combo & _ & Hline). destruct combo as [[a b] c].
  specialize (Hline a (ltac:(left))).
  apply lookup_replicate in Hline as [? _]. discriminate.
Qed.

Lemma standard_reachable_outcome (g : TicTacToeGame.t) :
  TicTacToeGame.reachable g → standard_outcome g.
Proof.
  induction 1 as [|g position g' _ (Hlen & Hwin & Hover) Hmove].
  - split; [done|]. split.
    + intros p. split; [discriminate|].
      intros Hline. by apply (empty_board_no_line 9) in Hline.
    + split; [discriminate|].
      intros [Hline|[Hline|Hfull]]; [..|discriminate Hfull];
        by apply (empty_board_no_line 9) in Hline.
  - pose proof (standard_make_move_true _ _ _ Hmove)
      as (Hon & _ & Hcell & _ & _).
    apply standard_make_move_outcome in Hmove as [Hboard Hcases].
    set (cur := TicTacToeGame.current_player g) in *.
    set (b' := <[Z.to_nat position := Some cur]> (TicTacToeGame.board g)) in *.
    assert (Hlen' : length b' = 9%nat) by (subst b'; by rewrite length_insert).
    assert (Hnone : ∀ p, ¬ has_line (TicTacToeGame.board g) p).
    { intros p Hp. destruct Hover as [_ Hover].
      rewrite Hon in Hover. enough (false = true) by done. apply Hover.
      destruct p; auto. }
    assert (Hother : ¬ has_line b' (other_player cur)).
    { intros Hl. apply (Hnone (other_player cur)).
      eapply has_line_mark_other; [|exact Hl].
      intros Heq. by apply (other_player_ne cur). }
    assert (Hsplit : ∀ p, p = cur ∨ p = other_player cur)
      by (intros []; destruct cur; auto).
    unfold standard_outcome. rewrite Hboard. split; [done|].
    destruct Hcases as [(Hw & -> & ->)|[(Hw & Hfull & -> & ->)|
                                        (Hw & Hfull & -> & ->)]].
    + apply check_winner_true in Hw; [|lia]. split.
      * intros p. split; [by intros [= <-]|].
        intros Hp. destruct (Hsplit p) as [->| ->]; done.
      * split; [|done]. intros _. destruct cur; auto.
    + apply check_winner_false in Hw; [|lia]. split.
      * intros p. split; [discriminate|].
        intros Hp. destruct (Hsplit p) as [->| ->]; done.
      * split; [auto|done].
    + apply check_winner_false in Hw; [|lia]. split.
      * intros p. split.
        -- intros Hp. apply Hwin in Hp. by destruct (Hnone p).
        -- intros Hp. destruct (Hsplit p) as [->| ->]; done.
      * split; [discriminate|].
        intros [Hp|[Hp|Hf]]; [..|congruence];
          [destruct (Hsplit X) as [Hx|Hx]|destruct (Hsplit O) as [Hx|Hx]];
          rewrite Hx in Hp; done.
Qed.

(** X2: in every state of the standard game reached by accepted moves the
    board has nine cells, the winner is exactly the player who holds a
    line, the game is over exactly when a line is held or the board is
    full, and the two players never both hold a line. *)
Theorem standard_game_outcome (g : TicTacToeGame.t) :
  TicTacToeGame.reachable g →
  length (TicTacToeGame.board g) = 9%nat ∧
  (∀ p, TicTacToeGame.winner g = Some p ↔
        check_winner (TicTacToeGame.board g) p = Ok true) ∧
  (TicTacToeGame.game_over g = true ↔
   check_winner (TicTacToeGame.board g) X = Ok true ∨
   check_winner (TicTacToeGame.board g) O = Ok true ∨
   is_board_full (TicTacToeGame.board g) = true) ∧
  ¬ (check_winner (TicTacToeGame.board g) X = Ok true ∧
     check_winner (TicTacToeGame.board g) O = Ok true).
Proof.
  intros (Hlen & Hwin & Hover)%standard_reachable_outcome.
  assert (H9 : (9 ≤ length (TicTacToeGame.board g))%nat) by lia.
  split; [done|]. rewrite !(check_winner_true _ _ H9).
  split; [|split; [done|]].
  - intros p. by rewrite (check_winner_true _ _ H9).
  - intros [HX HO]. apply Hwin in HX, HO. congruence.
Qed.

(** ** Length of a standard game *)

Lemma count_cells_partition (b : Board) :
  (count_cells None b + count_cells (Some X) b + count_cells (Some O) b
   = length b)%nat.
Proof.
  unfold count_cells. induction b as [|c b IH]; [done|].
  rewrite !filter_cons. destruct c as [[]|]; repeat case_decide;
    simplify_eq; simpl; lia.
Qed.

Lemma standard_play_reachable (g g' : TicTacToeGame.t) (positions : list Z) :
  TicTacToeGame.reachable g → TicTacToeGame.play g positions = Some g' →
  TicTacToeGame.reachable g'.
Proof.
  revert g. induction positions as [|position rest IH]; intros g Hg Hplay.
  - by simplify_eq/=.
  - simpl in Hplay.
    destruct (TicTacToeGame.make_move g position) as [[[] g1]| |] eqn:Hmove;
      try discriminate Hplay.
    eapply IH; [|done]. by eapply TicTacToeGame.reachable_move.
Qed.

Lemma standard_play_marks (g g' : TicTacToeGame.t) (positions : list Z) :
  TicTacToeGame.play g positions = Some g' →
  (count_cells (Some X) (TicTacToeGame.board g')
   + count_cells (Some O) (TicTacToeGame.board g')
   = count_cells (Some X) (TicTacToeGame.board g)
     + count_cells (Some O) (TicTacToeGame.board g) + length positions)%nat.
Proof.
  revert g. induction positions as [|position rest IH]; intros g Hplay;
    simpl in *.
  - simplify_eq. lia.
  - destruct (TicTacToeGame.make_move g position) as [[[] g1]| |] eqn:Hmove;
      try discriminate Hplay.
    rewrite (IH g1 Hplay).
    apply standard_make_move_true in Hmove as (_ & _ & Hcell & -> & _).
    rewrite !(count_cells_mark _ _ _ _ Hcell).
    destruct (TicTacToeGame.current_player g); repeat case_decide;
      simplify_eq; lia.
Qed.

(** X3: a standard game takes at most nine accepted moves, and after [n]
    of them the board carries [n] marks. *)
Theorem standard_game_at_most_nine_moves (positions : list Z)
    (g : TicTacToeGame.t) :
  TicTacToeGame.play TicTacToeGame.reset positions = Some g →
  (count_cells (Some X) (TicTacToeGame.board g)
   + count_cells (Some O) (TicTacToeGame.board g) = length positions)%nat ∧
  (length positions ≤ 9)%nat.
Proof.
  intros Hplay.
  pose proof (standard_play_marks _ _ _ Hplay) as Hmarks.
  change (count_cells (Some X) (TicTacToeGame.board TicTacToeGame.reset))
    with 0%nat in Hmarks.
  change (count_cells (Some O) (TicTacToeGame.board TicTacToeGame.reset))
    with 0%nat in Hmarks.
  assert (Hlen : length (TicTacToeGame.board g) = 9%nat).
  { eapply standard_reachable_outcome, standard_play_reachable; [|done].
    apply TicTacToeGame.reachable_reset. }
  pose proof (count_cells_partition (TicTacToeGame.board g)). lia.
Qed.

(** ** The winning combination *)

Lemma find_combination_Some (combos : list (nat * nat * nat)) (b : Board)
    (w : player) (combo : nat * nat * nat) :
  find_combination combos b w = Ok (Some combo) →
  combo ∈ combos ∧ holds_line b w combo.
Proof.
  induction combos as [|c rest IH]; simpl; intros H; [discriminate H|].
  apply bind_Ok in H as (full & Hfull & H). destruct full.
  - simplify_eq. split; [left|]. by apply line_test_true.
  - destruct (IH H) as [? ?]. split; [by right|done].
Qed.

Lemma find_combination_finds (combos : list (nat * nat * nat)) (b : Board)
    (w : player) :
  (9 ≤ length b)%nat → combos ⊆ WINNING_COMBINATIONS →
  (∃ combo, combo ∈ combos ∧ holds_line b w combo) →
  ∃ combo, find_combination combos b w = Ok (Some combo).
Proof.
  intros Hlen. induction combos as [|c rest IH]; intros Hsub (combo & Hin & Hl).
  - by apply elem_of_nil in Hin.
  - simpl.
    assert (Hc : c ∈ WINNING_COMBINATIONS) by (apply Hsub; left).
    destruct (all_of_total (λ i, c0 ← getitem b i; Ok (cell_is w c0))
                (combo_cells c)) as [full Htest].
    { intros i Hi. destruct (getitem_total b i) as [c0 ->]; [|simpl; eauto].
      pose proof (combo_cells_in_range c i Hc Hi). lia. }
    rewrite Htest. simpl. destruct full; [eauto|].
    apply IH; [intros x Hx; apply Hsub; by right|].
    apply elem_of_cons in Hin as [->|Hin]; [|eauto].
    apply line_test_true in Hl. congruence.
Qed.

(** X4: in a reachable state of the standard game,
    [get_winning_combination] returns a combination exactly when there is
    a winner, and the three cells of that combination hold the winner's
    mark. *)
Theorem standard_winning_combination (g : TicTacToeGame.t) :
  TicTacToeGame.reachable g →
  match TicTacToeGame.winner g with
  | Some w =>
      ∃ combo,
        TicTacToeGame.get_winning_combination g = Ok (Some combo) ∧
        combo ∈ WINNING_COMBINATIONS ∧
        holds_line (TicTacToeGame.board g) w combo
  | None => TicTacToeGame.get_winning_combination g = Ok None
  end.
Proof.
  intros (Hlen & Hwin & _)%standard_reachable_outcome.
  unfold TicTacToeGame.get_winning_combination.
  destruct (TicTacToeGame.winner g) as [w|]; [|done].
  destruct (find_combination_finds WINNING_COMBINATIONS
              (TicTacToeGame.board g) w) as [combo Hc]; [lia|done| |].
  - by apply Hwin.
  - exists combo. split; [done|]. by apply find_combination_Some in Hc.
Qed.

(** ** Move ordering *)

Lemma insert_by_key_perm (key : nat → nat) (x : nat) (l : list nat) :
  HardNoDraw.insert_by_key key x l ≡ₚ x :: l.
Proof.
  induction l as [|y l IH]; simpl; [done|].
  case_decide; [done|]. rewrite IH. apply Permutation_swap.
Qed.

Lemma sorted_by_key_perm (key : nat → nat) (l : list nat) :
  HardNoDraw.sorted_by_key key l ≡ₚ l.
Proof.
  unfold HardNoDraw.sorted_by_key. induction l as [|x l IH]; simpl; [done|].
  by rewrite insert_by_key_perm, IH.
Qed.

Lemma insert_by_key_sorted (key : nat → nat) (x : nat) (l : list nat) :
  StronglySorted (λ a b, key a ≤ key b)%nat l →
  StronglySorted (λ a b, key a ≤ key b)%nat (HardNoDraw.insert_by_key key x l).
Proof.
  induction 1 as [|y l Hsorted IH Hall]; simpl.
  - repeat constructor.
  - case_decide as Hxy.
    + constructor; [by constructor|]. constructor; [done|].
      eapply Forall_impl; [exact Hall|]. simpl. intros z Hz. lia.
    + constructor; [done|].
      rewrite insert_by_key_perm. constructor; [lia|done].
Qed.

Lemma sorted_by_key_sorted (key : nat → nat) (l : list nat) :
  StronglySorted (λ a b, key a ≤ key b)%nat (HardNoDraw.sorted_by_key key l).
Proof.
  unfold HardNoDraw.sorted_by_key. induction l as [|x l IH]; simpl.
  - constructor.
  - by apply insert_by_key_sorted.
Qed.

(** The sort is stable: of two moves with the same key the one that came
    first stays first, so the moves with any given key keep their order. *)
Lemma insert_by_key_filter (key : nat → nat) (k x : nat) (l : list nat) :
  StronglySorted (λ a b, key a ≤ key b)%nat l →
  filter (λ m, key m = k) (HardNoDraw.insert_by_key key x l)
  = filter (λ m, key m = k) (x :: l).
Proof.
  induction 1 as [|y l Hsorted IH Hall]; simpl; [done|].
  case_decide as Hxy; [done|].
  rewrite (filter_cons _ y), IH, !filter_cons.
  repeat case_decide; try done; lia.
Qed.

Lemma sorted_by_key_stable (key : nat → nat) (k : nat) (l : list nat) :
  filter (λ m, key m = k) (HardNoDraw.sorted_by_key key l)
  = filter (λ m, key m = k) l.
Proof.
  unfold HardNoDraw.sorted_by_key. induction l as [|x l IH]; simpl; [done|].
  rewrite insert_by_key_filter by apply sorted_by_key_sorted.
  rewrite !filter_cons. fold (HardNoDraw.sorted_by_key key l).
  unfold HardNoDraw.sorted_by_key. by rewrite IH.
Qed.

(** X5: [_order_moves] returns its argument rearranged: the same moves,
    in non-decreasing priority rank (center, corners, edges, then anything
    else), moves of equal rank in their original order. *)
Theorem order_moves_sorts (moves : list nat) :
  HardNoDraw._order_moves moves ≡ₚ moves ∧
  StronglySorted (λ a b, HardNoDraw.priority_key a ≤ HardNoDraw.priority_key b)%nat
    (HardNoDraw._order_moves moves) ∧
  ∀ k, filter (λ m, HardNoDraw.priority_key m = k) (HardNoDraw._order_moves moves)
       = filter (λ m, HardNoDraw.priority_key m = k) moves.
Proof.
  unfold HardNoDraw._order_moves. split; [apply sorted_by_key_perm|].
  split; [apply sorted_by_key_sorted|]. intros k. apply sorted_by_key_stable.
Qed.

(** ** Candidates of the No-Draw opponents *)

Lemma hard_available_elem (b : Board) (p : player) (player_moves l : list nat)
    (i : nat) :
  HardNoDraw._get_available_moves_no_draw b p player_moves = Ok l →
  i ∈ l ↔ ((i < 9)%nat ∧ b !! i = Some None) ∨
          ((3 ≤ length player_moves)%nat ∧ head player_moves = Some i).
Proof.
  unfold HardNoDraw._get_available_moves_no_draw. intros H.
  apply bind_Ok in H as (empty & Hempty & H).
  apply bind_Ok in H as (available & Havail & H). simplify_eq.
  unfold HardNoDraw._order_moves. rewrite sorted_by_key_perm.
  apply (available_moves_elem b player_moves available i).
  unfold Medium.available_moves. rewrite Hempty. simpl. exact Havail.
Qed.

(** ** Outcomes of the No-Draw game *)

Lemma has_line_clear (b : Board) (q : player) (i : nat) :
  has_line (<[i:=None]> b) q → has_line b q.
Proof.
  intros (combo & Hcombo & Hline). exists combo. split; [done|].
  intros j Hj. specialize (Hline j Hj).
  destruct (decide (i = j)) as [->|Hne].
  - apply list_lookup_insert_Some in Hline as [(_ & ? & _)|[? _]];
      [congruence|done].
  - by rewrite list_lookup_insert_ne in Hline.
Qed.

Lemma no_draw_make_move_outcome (g g' : NoDrawGame.t) (position : Z) :
  NoDrawGame.make_move g position = Ok (true, g') →
  let cur := NoDrawGame.current_player g in
  (check_winner (NoDrawGame.board g') cur = Ok true ∧
   NoDrawGame.game_over g' = true ∧ NoDrawGame.winner g' = Some cur) ∨
  (check_winner (NoDrawGame.board g') cur = Ok false ∧
   NoDrawGame.game_over g' = false ∧
   NoDrawGame.winner g' = NoDrawGame.winner g).
Proof.
  intros H cur.
  pose proof (no_draw_make_move_true _ _ _ H) as (Hon & _).
  unfold NoDrawGame.make_move in H.
  apply bind_Ok in H as (valid & _ & H).
  destruct valid; simpl in H; [|discriminate H].
  apply bind_Ok in H as ([moves1 b1] & _ & H).
  apply bind_Ok in H as (b2 & _ & H).
  apply bind_Ok in H as (won & Hwon & H). fold cur in Hwon, H.
  assert (Hb : NoDrawGame.board
                 (NoDrawGame.with_moves g b2 (moves1 ++ [Z.to_nat position]))
               = b2).
  { unfold NoDrawGame.with_moves. by destruct (NoDrawGame.current_player g). }
  assert (Hg : NoDrawGame.game_over
                 (NoDrawGame.with_moves g b2 (moves1 ++ [Z.to_nat position]))
               = NoDrawGame.game_over g).
  { unfold NoDrawGame.with_moves. by destruct (NoDrawGame.current_player g). }
  assert (Hw : NoDrawGame.winner
                 (NoDrawGame.with_moves g b2 (moves1 ++ [Z.to_nat position]))
               = NoDrawGame.winner g).
  { unfold NoDrawGame.with_moves. by destruct (NoDrawGame.current_player g). }
  destruct won; simplify_eq/=; rewrite Hb.
  - left. repeat split; auto.
  - right. rewrite Hg, Hw. repeat split; auto.
Qed.

Lemma no_draw_reachable_outcome (g : NoDrawGame.t) :
  NoDrawGame.reachable g → no_draw_outcome g.
Proof.
  induction 1 as [|g position g' _ (Hlen & Hwin & Hover) Hmove].
  - split; [done|]. split.
    + intros p. split; [discriminate|].
      intros Hline. by apply (empty_board_no_line 9) in Hline.
    + split; [discriminate|].
      intros [Hline|Hline]; by apply (empty_board_no_line 9) in Hline.
  - pose proof (no_draw_make_move_outcome _ _ _ Hmove) as Hcases.
    apply no_draw_make_move_true in Hmove
      as (Hon & _ & _ & (b1 & moves1 & Hevict & Hboard & _) & _ & _).
    set (cur := NoDrawGame.current_player g) in *.
    assert (Hlen' : length (NoDrawGame.board g') = 9%nat).
    { rewrite Hboard, length_insert.
      destruct Hevict as [(_ & -> & _)|(? & _ & _ & _ & -> & _)]; [done|].
      by rewrite length_insert. }
    assert (Hnone : ∀ p, ¬ has_line (NoDrawGame.board g) p).
    { intros p Hp. destruct Hover as [_ Hover].
      rewrite Hon in Hover. enough (false = true) by done. apply Hover.
      destruct p; auto. }
    assert (Hother : ¬ has_line (NoDrawGame.board g') (other_player cur)).
    { intros Hl. apply (Hnone (other_player cur)). rewrite Hboard in Hl.
      apply has_line_mark_other in Hl;
        [|intros Heq; by apply (other_player_ne cur)].
      destruct Hevict as [(_ & -> & _)|(? & _ & _ & _ & -> & _)]; [done|].
      by eapply has_line_clear. }
    assert (Hsplit : ∀ p, p = cur ∨ p = other_player cur)
      by (intros []; destruct cur; auto).
    split; [done|].
    destruct Hcases as [(Hw & -> & ->)|(Hw & -> & ->)].
    + apply check_winner_true in Hw; [|lia]. split.
      * intros p. split; [by intros [= <-]|].
        intros Hp. destruct (Hsplit p) as [->| ->]; done.
      * split; [|done]. intros _. destruct cur; auto.
    + apply check_winner_false in Hw; [|lia]. split.
      * intros p. split.
        -- intros Hp. apply Hwin in Hp. by destruct (Hnone p).
        -- intros Hp. destruct (Hsplit p) as [->| ->]; done.
      * split; [discriminate|].
        intros [Hp|Hp];
          [destruct (Hsplit X) as [Hx|Hx]|destruct (Hsplit O) as [Hx|Hx]];
          rewrite Hx in Hp; done.
Qed.

(** X6: in every reachable state of the No-Draw game the board has nine
    cells, the winner is exactly the player who holds a line, the game is
    over exactly when a line is held, and never do both players hold one. *)
Theorem no_draw_game_outcome (g : NoDrawGame.t) :
  NoDrawGame.reachable g →
  length (NoDrawGame.board g) = 9%nat ∧
  (∀ p, NoDrawGame.winner g = Some p ↔
        check_winner (NoDrawGame.board g) p = Ok true) ∧
  (NoDrawGame.game_over g = true ↔
   check_winner (NoDrawGame.board g) X = Ok true ∨
   check_winner (NoDrawGame.board g) O = Ok true) ∧
  ¬ (check_winner (NoDrawGame.board g) X = Ok true ∧
     check_winner (NoDrawGame.board g) O = Ok true).
Proof.
  intros (Hlen & Hwin & Hover)%no_draw_reachable_outcome.
  assert (H9 : (9 ≤ length (NoDrawGame.board g))%nat) by lia.
  split; [done|]. rewrite !(check_winner_true _ _ H9).
  split; [|split; [done|]].
  - intros p. by rewrite (check_winner_true _ _ H9).
  - intros [HX HO]. apply Hwin in HX, HO. congruence.
Qed.

(** ** The No-Draw board is never full *)

Lemma empty_cells_from (b : Board) (k n : nat) (l : list nat) :
  filter_of (λ i, c ← getitem b i; Ok (is_none c)) (seq k n) = Ok l →
  length l = count_cells None (take n (drop k b)).
Proof.
  revert k l. induction n as [|n IH]; intros k l H; simpl in H.
  - by simplify_eq.
  - apply bind_Ok in H as (v & Hv & H).
    apply bind_Ok in Hv as (c & Hc%getitem_Ok & Hv).
    apply bind_Ok in H as (r & Hr & H). simplify_eq.
    rewrite (drop_S _ _ _ Hc). simpl. unfold count_cells.
    rewrite filter_cons. specialize (IH _ _ Hr). unfold count_cells in IH.
    destruct c; case_decide; simplify_eq; simpl; lia.
Qed.

Lemma empty_cells_length (b : Board) (l : list nat) :
  empty_cells b = Ok l → length l = cells_left b.
Proof.
  intros H. apply empty_cells_from in H. by rewrite drop_0 in H.
Qed.

Lemma no_draw_three_empty_cells (g : NoDrawGame.t) :
  NoDrawGame.reachable g →
  (3 ≤ count_cells None (NoDrawGame.board g))%nat ∧
  is_board_full (NoDrawGame.board g) = false ∧
  ∃ l, NoDrawGame.get_valid_moves g = Ok l ∧ (3 ≤ length l)%nat.
Proof.
  intros Hreach.
  pose proof (no_draw_reachable_outcome g Hreach) as (Hlen & _).
  pose proof (no_draw_reachable_invariant g Hreach)
    as ((_ & _ & HcX & HlX) & (_ & _ & HcO & HlO) & _).
  pose proof (count_cells_partition (NoDrawGame.board g)) as Hpart.
  assert (Hnone : (3 ≤ count_cells None (NoDrawGame.board g))%nat) by lia.
  split; [done|].
  destruct (empty_cells_total (NoDrawGame.board g)) as [l Hl]; [lia|].
  pose proof (empty_cells_length _ _ Hl) as Hcount.
  unfold cells_left in Hcount.
  rewrite take_ge in Hcount by lia.
  split.
  - destruct l as [|i l]; [simpl in Hcount; lia|].
    assert (Hi : i ∈ i :: l) by left.
    apply (empty_cells_elem _ _ _ Hl) in Hi as [_ Hi].
    destruct (is_board_full (NoDrawGame.board g)) eqn:Hfull; [|done].
    rewrite is_board_full_no_empty in Hfull. by destruct (Hfull i).
  - exists l. split; [done|lia].
Qed.

(** X7: in every reachable state of the No-Draw game at least three of
    the nine cells are empty: the board is never full, and
    [get_valid_moves] lists at least three cells. *)
Theorem no_draw_board_never_full (g : NoDrawGame.t) :
  NoDrawGame.reachable g →
  (3 ≤ count_cells None (NoDrawGame.board g))%nat ∧
  is_board_full (NoDrawGame.board g) = false ∧
  ∃ l, NoDrawGame.get_valid_moves g = Ok l ∧ (3 ≤ length l)%nat.
Proof. apply no_draw_three_empty_cells. Qed.

(** ** What the No-Draw engine accepts *)

Lemma no_draw_valid_range (g : NoDrawGame.t) (position : Z) :
  NoDrawGame.is_valid_move g position = Ok true →
  NoDrawGame.game_over g = false ∧ 0 ≤ position ≤ 8.
Proof.
  unfold NoDrawGame.is_valid_move. intros H.
  destruct (NoDrawGame.game_over g); [discriminate H|].
  destruct ((0 <=? position) && (position <=? 8)) eqn:Hrange;
    [|discriminate H].
  apply andb_true_iff in Hrange as [H0 H8]. apply Z.leb_le in H0, H8. done.
Qed.

Lemma no_draw_valid_iff (g : NoDrawGame.t) (i : nat) :
  NoDrawGame.reachable g → NoDrawGame.game_over g = false →
  let moves := NoDrawGame._get_player_moves g (NoDrawGame.current_player g) in
  NoDrawGame.is_valid_move g (Z.of_nat i) = Ok true ↔
  ((i < 9)%nat ∧ NoDrawGame.board g !! i = Some None) ∨
  ((3 ≤ length moves)%nat ∧ head moves = Some i).
Proof.
  intros Hreach Hon moves.
  pose proof (no_draw_reachable_outcome g Hreach) as (Hlen & _).
  assert (Hmarks : marks_ok g (NoDrawGame.current_player g)).
  { destruct (no_draw_reachable_invariant g Hreach) as (? & ? & _).
    by destruct (NoDrawGame.current_player g). }
  destruct Hmarks as (_ & Hheld & _). fold moves in Hheld.
  unfold NoDrawGame.is_valid_move. rewrite Hon. simpl.
  rewrite Nat2Z.id. fold moves. unfold NoDrawGame.MAX_MARKS.
  destruct (Z.leb_spec (Z.of_nat i) 8) as [Hi|Hi]; simpl.
  - assert (Z.of_nat i >= 0) by lia.
    destruct (Z.leb_spec 0 (Z.of_nat i)); [simpl|lia].
    destruct (getitem_total (NoDrawGame.board g) i) as [c Hc]; [lia|].
    rewrite Hc. simpl. apply getitem_Ok in Hc. rewrite Hc.
    destruct c as [mark|].
    + case_bool_decide as Hmark; simpl.
      * destruct (bool_decide (3 ≤ length moves)%nat) eqn:Hcap;
          destruct (bool_decide (head moves = Some i)) eqn:Hhd; simpl;
          try apply bool_decide_eq_true in Hcap;
          try apply bool_decide_eq_true in Hhd;
          try apply bool_decide_eq_false in Hcap;
          try apply bool_decide_eq_false in Hhd;
          (split; [try done; intros _; by right|]);
          try done; intros [[_ [=]]|[? ?]]; done.
      * split; [done|]. intros [[_ [=]]|[? Hhead]].
        destruct Hmark. apply head_Some_elem_of, Hheld in Hhead. congruence.
    + split; [|done]. intros _. left. split; [lia|done].
  - rewrite andb_false_r. simpl. split; [done|].
    intros [[? _]|[_ Hhead]]; [lia|].
    apply head_Some_elem_of, Hheld, lookup_lt_Some in Hhead. lia.
Qed.

Lemma no_draw_make_move_accepts (g : NoDrawGame.t) (position : Z) :
  NoDrawGame.reachable g →
  NoDrawGame.is_valid_move g position = Ok true →
  ∃ g', NoDrawGame.make_move g position = Ok (true, g').
Proof.
  intros Hreach Hvalid.
  pose proof (no_draw_valid_range _ _ Hvalid) as [Hon Hrange].
  pose proof (no_draw_reachable_outcome g Hreach) as (Hlen & _).
  assert (Hmarks : marks_ok g (NoDrawGame.current_player g)).
  { destruct (no_draw_reachable_invariant g Hreach) as (? & ? & _).
    by destruct (NoDrawGame.current_player g). }
  destruct Hmarks as (_ & Hheld & _).
  unfold NoDrawGame.make_move. rewrite Hvalid. simpl.
  set (moves := NoDrawGame._get_player_moves g (NoDrawGame.current_player g))
    in *.
  assert (Hevict : ∃ moves1 b1,
    (if decide (NoDrawGame.MAX_MARKS ≤ length moves)%nat
     then match moves with
          | [] => IndexError
          | removed_pos :: rest =>
              b ← setitem (NoDrawGame.board g) removed_pos None; Ok (rest, b)
          end
     else Ok (moves, NoDrawGame.board g)) = Ok (moves1, b1) ∧
    length b1 = 9%nat).
  { case_decide as Hcap; [|eauto].
    destruct moves as [|oldest rest] eqn:Hm;
      [unfold NoDrawGame.MAX_MARKS in Hcap; simpl in Hcap; lia|].
    assert (Hold : (oldest < length (NoDrawGame.board g))%nat).
    { eapply lookup_lt_Some, Hheld. left. }
    exists rest, (<[oldest:=None]> (NoDrawGame.board g)). split.
    - assert (Hset : setitem (NoDrawGame.board g) oldest None
                     = Ok (<[oldest:=None]> (NoDrawGame.board g)))
        by (by apply setitem_Ok).
      by rewrite Hset.
    - by rewrite length_insert. }
  destruct Hevict as (moves1 & b1 & -> & Hlen1). simpl.
  assert (Hset : setitem b1 (Z.to_nat position)
                   (Some (NoDrawGame.current_player g))
                 = Ok (<[Z.to_nat position:=
                          Some (NoDrawGame.current_player g)]> b1)).
  { apply setitem_Ok. split; [lia|done]. }
  rewrite Hset. simpl.
  destruct (check_winner_total
              (<[Z.to_nat position:=Some (NoDrawGame.current_player g)]> b1)
              (NoDrawGame.current_player g)) as [won ->].
  { rewrite length_insert. lia. }
  simpl. destruct won; eauto.
Qed.

Lemma no_draw_make_move_valid (g g' : NoDrawGame.t) (position : Z) :
  NoDrawGame.make_move g position = Ok (true, g') →
  NoDrawGame.is_valid_move g position = Ok true.
Proof.
  unfold NoDrawGame.make_move. intros H.
  apply bind_Ok in H as (valid & Hvalid & H).
  destruct valid; [done|]. simpl in H. by simplify_eq.
Qed.

Lemma hard_available_total (b : Board) (p : player) (player_moves : list nat) :
  (9 ≤ length b)%nat →
  ∃ l, HardNoDraw._get_available_moves_no_draw b p player_moves = Ok l.
Proof.
  intros Hlen. unfold HardNoDraw._get_available_moves_no_draw.
  destruct (empty_cells_total b Hlen) as [empty ->]. simpl.
  case_decide as Hcap; [|simpl; eauto].
  destruct player_moves as [|oldest rest]; [|simpl; eauto].
  unfold HardNoDraw.MAX_MARKS in Hcap. simpl in Hcap. lia.
Qed.

Lemma no_draw_candidates_spec (g : NoDrawGame.t) :
  NoDrawGame.reachable g → NoDrawGame.game_over g = false →
  let cur := NoDrawGame.current_player g in
  ∃ l,
    HardNoDraw._get_available_moves_no_draw (NoDrawGame.board g) cur
      (NoDrawGame._get_player_moves g cur) = Ok l ∧
    l ≠ [] ∧
    ∀ position,
      (∃ g', NoDrawGame.make_move g position = Ok (true, g')) ↔
      (∃ i, i ∈ l ∧ position = Z.of_nat i).
Proof.
  intros Hreach Hon cur.
  pose proof (no_draw_reachable_outcome g Hreach) as (Hlen & _).
  destruct (hard_available_total (NoDrawGame.board g) cur
              (NoDrawGame._get_player_moves g cur)) as [l Hl]; [lia|].
  exists l. split; [done|].
  pose proof (λ i, hard_available_elem _ _ _ _ i Hl) as Helem.
  pose proof (λ i, no_draw_valid_iff g i Hreach Hon) as Hvalid.
  simpl in Hvalid. fold cur in Hvalid.
  split.
  - destruct (no_draw_three_empty_cells g Hreach) as (_ & _ & e & He & Hn).
    destruct e as [|i e]; [simpl in Hn; lia|].
    assert (Hi : i ∈ i :: e) by left.
    apply (empty_cells_elem _ _ _ He) in Hi.
    intros ->. eapply elem_of_nil, Helem. by left.
  - intros position. split.
    + intros [g' Hmove]. apply no_draw_make_move_valid in Hmove.
      pose proof (no_draw_valid_range _ _ Hmove) as [_ Hrange].
      exists (Z.to_nat position). rewrite Z2Nat.id by lia. split; [|done].
      apply Helem, Hvalid. by rewrite Z2Nat.id by lia.
    + intros (i & Hi & ->). apply no_draw_make_move_accepts; [done|].
      by apply Hvalid, Helem.
Qed.

(** X8: in a reachable No-Draw state that is not over, the candidate list
    the opponents enumerate for the player to move is not empty and holds
    exactly the positions [make_move] accepts. *)
Theorem no_draw_candidates_are_the_accepted_moves (g : NoDrawGame.t) :
  NoDrawGame.reachable g → NoDrawGame.game_over g = false →
  let cur := NoDrawGame.current_player g in
  ∃ l,
    HardNoDraw._get_available_moves_no_draw (NoDrawGame.board g) cur
      (NoDrawGame._get_player_moves g cur) = Ok l ∧
    l ≠ [] ∧
    ∀ position,
      (∃ g', NoDrawGame.make_move g position = Ok (true, g')) ↔
      (∃ i, i ∈ l ∧ position = Z.of_nat i).
Proof. apply no_draw_candidates_spec. Qed.

(** ** The medium opponent's line scan *)

Lemma combo_cells_NoDup (combo : nat * nat * nat) :
  combo ∈ WINNING_COMBINATIONS → NoDup (combo_cells combo).
Proof.
  unfold WINNING_COMBINATIONS. intros Hc.
  repeat (apply elem_of_cons in Hc as [->|Hc]);
    [..|by apply elem_of_nil in Hc];
    compute_done.
Qed.

(** One step of the scan on a combination whose three cells are read as
    [va], [vb], [vc]: the step answers with the cell that is empty when the
    other two hold [p], and passes otherwise. *)
Lemma scan_values (p : player) (va vb vc : cell) :
  let values := [va; vb; vc] in
  if bool_decide (count_cells (Some p) values = 2%nat)
     && bool_decide (count_cells None values = 1%nat)
  then (Medium.index_none values = Some 0%nat ∧ va = None ∧
        vb = Some p ∧ vc = Some p) ∨
       (Medium.index_none values = Some 1%nat ∧ va = Some p ∧
        vb = None ∧ vc = Some p) ∨
       (Medium.index_none values = Some 2%nat ∧ va = Some p ∧
        vb = Some p ∧ vc = None)
  else ¬ ((va = None ∧ vb = Some p ∧ vc = Some p) ∨
          (va = Some p ∧ vb = None ∧ vc = Some p) ∨
          (va = Some p ∧ vb = Some p ∧ vc = None)).
Proof.
  destruct p, va as [[]|], vb as [[]|], vc as [[]|]; vm_compute;
    try (intros [(? & ? & ?)|[(? & ? & ?)|(? & ? & ?)]]; congruence);
    auto 10.
Qed.

Lemma combo_values (b : Board) (x y z : nat) :
  (9 ≤ length b)%nat → (x, y, z) ∈ WINNING_COMBINATIONS →
  ∃ va vb vc,
    b !! x = Some va ∧ b !! y = Some vb ∧ b !! z = Some vc ∧
    mapM (getitem b) (combo_cells (x, y, z)) = Ok [va; vb; vc].
Proof.
  intros Hlen Hc.
  assert (Hr : ∀ i, i ∈ combo_cells (x, y, z) → (i < length b)%nat).
  { intros i Hi. pose proof (combo_cells_in_range _ i Hc Hi). lia. }
  destruct (lookup_lt_is_Some_2 b x) as [va Ha];
    [apply Hr; simpl; repeat constructor|].
  destruct (lookup_lt_is_Some_2 b y) as [vb Hb];
    [apply Hr; simpl; repeat constructor|].
  destruct (lookup_lt_is_Some_2 b z) as [vc Hc'];
    [apply Hr; simpl; repeat constructor|].
  exists va, vb, vc. repeat split; try done.
  simpl. unfold getitem. rewrite Ha, Hb, Hc'. done.
Qed.

Lemma open_line_cases (b : Board) (p : player) (x y z m : nat)
    (va vb vc : cell) :
  NoDup [x; y; z] →
  b !! x = Some va → b !! y = Some vb → b !! z = Some vc →
  open_line b p (x, y, z) m ↔
  (m = x ∧ va = None ∧ vb = Some p ∧ vc = Some p) ∨
  (m = y ∧ va = Some p ∧ vb = None ∧ vc = Some p) ∨
  (m = z ∧ va = Some p ∧ vb = Some p ∧ vc = None).
Proof.
  intros Hnd Ha Hb Hc.
  apply NoDup_cons in Hnd as [Hx Hnd]. apply NoDup_cons in Hnd as [Hy _].
  assert (x ≠ y ∧ x ≠ z ∧ y ≠ z) as (Hxy & Hxz & Hyz).
  { repeat split; intros ->; [apply Hx|apply Hx|apply Hy];
      repeat constructor. }
  unfold open_line. simpl. split.
  - intros (Hm & Hcell & Hrest).
    assert (Hin : ∀ j, j = x ∨ j = y ∨ j = z → j ∈ [x; y; z]).
    { intros j [->|[->| ->]]; repeat constructor. }
    apply elem_of_cons in Hm as [->|Hm];
      [|apply elem_of_cons in Hm as [->|Hm];
        [|apply list_elem_of_singleton in Hm as ->]].
    + left. pose proof (Hrest y (Hin y (or_intror (or_introl eq_refl)))
                          (not_eq_sym Hxy)).
      pose proof (Hrest z (Hin z (or_intror (or_intror eq_refl)))
                    (not_eq_sym Hxz)).
      repeat split; congruence.
    + right. left. pose proof (Hrest x (Hin x (or_introl eq_refl)) Hxy).
      pose proof (Hrest z (Hin z (or_intror (or_intror eq_refl)))
                    (not_eq_sym Hyz)).
      repeat split; congruence.
    + right. right. pose proof (Hrest x (Hin x (or_introl eq_refl)) Hxz).
      pose proof (Hrest y (Hin y (or_intror (or_introl eq_refl))) Hyz).
      repeat split; congruence.
  - intros [(-> & -> & -> & ->)|[(-> & -> & -> & ->)|(-> & -> & -> & ->)]];
      (split; [repeat constructor|]); (split; [done|]);
      intros j Hj Hne;
      (apply elem_of_cons in Hj as [->|Hj];
       [|apply elem_of_cons in Hj as [->|Hj];
         [|apply list_elem_of_singleton in Hj as ->]]);
      done.
Qed.

Lemma find_winning_move_in_spec (combos : list (nat * nat * nat)) (b : Board)
    (p : player) :
  (9 ≤ length b)%nat → combos ⊆ WINNING_COMBINATIONS →
  (∃ m combo,
     Medium.find_winning_move_in combos b p = Ok (Some m) ∧
     combo ∈ combos ∧ open_line b p combo m) ∨
  (Medium.find_winning_move_in combos b p = Ok None ∧
   ∀ combo m, combo ∈ combos → ¬ open_line b p combo m).
Proof.
  intros Hlen. induction combos as [|[[x y] z] rest IH]; intros Hsub.
  - right. split; [done|]. intros combo m Hin. by apply elem_of_nil in Hin.
  - assert (Hc : (x, y, z) ∈ WINNING_COMBINATIONS) by (apply Hsub; left).
    destruct (combo_values b x y z Hlen Hc) as (va & vb & vc & Ha & Hb & Hcz & Hv).
    pose proof (open_line_cases b p x y z) as Hopen.
    specialize (λ m, Hopen m va vb vc (combo_cells_NoDup _ Hc) Ha Hb Hcz).
    cbn [Medium.find_winning_move_in]. rewrite Hv. cbn [mbind result_bind rbind].
    pose proof (scan_values p va vb vc) as Hscan. cbv zeta in Hscan.
    destruct (bool_decide (count_cells (Some p) [va; vb; vc] = 2%nat)
              && bool_decide (count_cells None [va; vb; vc] = 1%nat)).
    + left.
      destruct Hscan as [(-> & H1)|[(-> & H1)|(-> & H1)]]; simpl.
      * exists x, (x, y, z). split; [done|]. split; [left|].
        apply Hopen. left. by destruct H1 as (? & ? & ?).
      * exists y, (x, y, z). split; [done|]. split; [left|].
        apply Hopen. right. left. by destruct H1 as (? & ? & ?).
      * exists z, (x, y, z). split; [done|]. split; [left|].
        apply Hopen. right. right. by destruct H1 as (? & ? & ?).
    + destruct IH as [(m & combo & Hm & Hin & Hol)|[Hnone Hno]].
      { intros c Hin. apply Hsub. by right. }
      * left. exists m, combo. split; [done|]. split; [by right|done].
      * right. split; [done|]. intros combo m Hin.
        apply elem_of_cons in Hin as [->|Hin]; [|by apply Hno].
        intros Hol. apply Hopen in Hol. apply Hscan.
        destruct Hol as [(_ & ?)|[(_ & ?)|(_ & ?)]]; auto.
Qed.

(** Filling the open cell of a line completes it; and a placement that
    completes a line on a board without one fills an open cell. *)
Lemma open_line_completes (b : Board) (p : player) (combo : nat * nat * nat)
    (m : nat) :
  open_line b p combo m → holds_line (<[m:=Some p]> b) p combo.
Proof.
  intros (Hm & Hcell & Hrest) j Hj.
  destruct (decide (m = j)) as [->|Hne].
  - rewrite list_lookup_insert_eq; [done|by eapply lookup_lt_Some].
  - rewrite list_lookup_insert_ne by done. by apply Hrest.
Qed.

Lemma completes_open_line (b : Board) (p : player) (combo : nat * nat * nat)
    (i : nat) :
  b !! i = Some None → ¬ holds_line b p combo →
  holds_line (<[i:=Some p]> b) p combo → open_line b p combo i.
Proof.
  intros Hcell Hnot Hline.
  assert (Hin : i ∈ combo_cells combo).
  { destruct (decide (i ∈ combo_cells combo)) as [|Hout]; [done|].
    destruct Hnot. intros j Hj. specialize (Hline j Hj).
    rewrite list_lookup_insert_ne in Hline; [done|]. by intros ->. }
  split; [done|]. split; [done|]. intros j Hj Hne.
  specialize (Hline j Hj). by rewrite list_lookup_insert_ne in Hline.
Qed.

Lemma find_winning_move_spec (b : Board) (p : player) :
  (9 ≤ length b)%nat →
  (∃ m, Medium.find_winning_move b p = Ok (Some m) ∧
        (m < 9)%nat ∧ b !! m = Some None ∧
        check_winner (<[m:=Some p]> b) p = Ok true) ∨
  (Medium.find_winning_move b p = Ok None ∧
   (check_winner b p = Ok false →
    ∀ i, b !! i = Some None →
         check_winner (<[i:=Some p]> b) p = Ok false)).
Proof.
  intros Hlen.
  destruct (find_winning_move_in_spec WINNING_COMBINATIONS b p Hlen)
    as [(m & combo & Hm & Hin & Hol)|[Hnone Hno]]; [done| |].
  - left. exists m. split; [done|].
    pose proof Hol as (Hmc & Hcell & _). split; [|split; [done|]].
    + by eapply combo_cells_in_range.
    + apply check_winner_true; [by rewrite length_insert|].
      exists combo. split; [done|]. by apply open_line_completes.
  - right. split; [done|]. intros Hw i Hcell.
    apply check_winner_false in Hw; [|done].
    apply check_winner_false; [by rewrite length_insert|].
    intros (combo & Hin & Hline). apply (Hno combo i Hin).
    apply completes_open_line; [done| |done].
    intros Hl. apply Hw. by exists combo.
Qed.

(** X9: on a board of nine cells or more [find_winning_move] never raises;
    a cell it returns is empty and completes a line for the player, and
    when it returns [None] for a player without a line, no empty cell
    completes one. *)
Theorem find_winning_move_finds_the_win (b : Board) (p : player) :
  (9 ≤ length b)%nat →
  (∃ m, Medium.find_winning_move b p = Ok (Some m) ∧
        (m < 9)%nat ∧ b !! m = Some None ∧
        check_winner (<[m:=Some p]> b) p = Ok true) ∨
  (Medium.find_winning_move b p = Ok None ∧
   (check_winner b p = Ok false →
    ∀ i, b !! i = Some None →
         check_winner (<[i:=Some p]> b) p = Ok false)).
Proof. apply find_winning_move_spec. Qed.

(** ** Random draws *)

Lemma random_choice_total {A} (rnd : nat) (l : list A) :
  l ≠ [] → ∃ x, random_choice rnd l = Ok x ∧ x ∈ l.
Proof.
  intros Hl. unfold random_choice.
  assert (Hlt : (rnd mod length l < length l)%nat).
  { apply Nat.mod_upper_bound. destruct l; [done|simpl; lia]. }
  destruct (lookup_lt_is_Some_2 l _ Hlt) as [x Hx].
  exists x. split; [by apply getitem_Ok|]. by eapply list_elem_of_lookup_2.
Qed.

Lemma random_choice_any {A} (l : list A) (x : A) :
  x ∈ l → ∃ rnd, random_choice rnd l = Ok x.
Proof.
  intros [k Hk]%list_elem_of_lookup. exists k. unfold random_choice.
  rewrite Nat.mod_small by (by eapply lookup_lt_Some). by apply getitem_Ok.
Qed.

(** ** The easy opponent *)

Lemma get_easy_move_spec (rnd : nat) (b : Board) :
  (9 ≤ length b)%nat →
  ∃ r, Easy.get_easy_move rnd b = Ok r ∧
       match r with
       | Some m => (m < 9)%nat ∧ b !! m = Some None
       | None => ∀ i, (i < 9)%nat → b !! i ≠ Some None
       end.
Proof.
  intros Hlen. unfold Easy.get_easy_move.
  destruct (empty_cells_total b Hlen) as [empty Hempty]. rewrite Hempty. simpl.
  pose proof (λ i, empty_cells_elem b empty i Hempty) as Helem.
  destruct empty as [|first rest].
  - exists None. split; [done|]. intros i Hi Hcell.
    eapply elem_of_nil, Helem. eauto.
  - destruct (random_choice_total rnd (first :: rest)) as (m & -> & Hm); [done|].
    exists (Some m). split; [done|]. by apply Helem.
Qed.

(** X10: on a board of nine cells or more [get_easy_move] never raises; it
    answers [None] exactly when none of the nine cells is empty, otherwise
    an empty cell; and every empty cell is the answer for some draw. *)
Theorem easy_move_is_any_empty_cell (b : Board) :
  (9 ≤ length b)%nat →
  (∀ rnd, ∃ r, Easy.get_easy_move rnd b = Ok r ∧
               match r with
               | Some m => (m < 9)%nat ∧ b !! m = Some None
               | None => ∀ i, (i < 9)%nat → b !! i ≠ Some None
               end) ∧
  (∀ i, (i < 9)%nat → b !! i = Some None →
        ∃ rnd, Easy.get_easy_move rnd b = Ok (Some i)).
Proof.
  intros Hlen. split; [intros rnd; by apply get_easy_move_spec|].
  intros i Hi Hcell. unfold Easy.get_easy_move.
  destruct (empty_cells_total b Hlen) as [empty Hempty]. rewrite Hempty. simpl.
  assert (Hin : i ∈ empty) by (by apply (empty_cells_elem b empty i Hempty)).
  destruct (random_choice_any empty i Hin) as [rnd Hrnd].
  exists rnd. destruct empty; [by apply elem_of_nil in Hin|].
  by rewrite Hrnd.
Qed.

(** ** The medium opponent *)

Lemma get_medium_move_spec (rnd : nat) (b : Board) :
  (9 ≤ length b)%nat →
  ∃ r, Medium.get_medium_move rnd b = Ok r ∧
       match r with
       | None => ∀ i, (i < 9)%nat → b !! i ≠ Some None
       | Some m =>
           (m < 9)%nat ∧ b !! m = Some None ∧
           (check_winner b O = Ok false →
            (∃ i, b !! i = Some None ∧
                  check_winner (<[i:=Some O]> b) O = Ok true) →
            check_winner (<[m:=Some O]> b) O = Ok true) ∧
           (check_winner b X = Ok false →
            (∀ i, b !! i = Some None →
                  check_winner (<[i:=Some O]> b) O = Ok false) →
            (∃ i, b !! i = Some None ∧
                  check_winner (<[i:=Some X]> b) X = Ok true) →
            check_winner (<[m:=Some X]> b) X = Ok true)
       end.
Proof.
  intros Hlen. unfold Medium.get_medium_move.
  destruct (empty_cells_total b Hlen) as [empty Hempty]. rewrite Hempty. simpl.
  pose proof (λ i, empty_cells_elem b empty i Hempty) as Helem.
  destruct empty as [|first rest].
  { exists None. split; [done|]. intros i Hi Hcell.
    eapply elem_of_nil, Helem. eauto. }
  destruct (find_winning_move_spec b O Hlen)
    as [(m & -> & Hm & Hcell & Hwin)|[-> HnoO]]; simpl.
  { exists (Some m). split; [done|]. repeat split; try done.
    intros _ Hno _. rewrite (Hno m Hcell) in Hwin. done. }
  destruct (find_winning_move_spec b X Hlen)
    as [(m & -> & Hm & Hcell & Hwin)|[-> HnoX]]; simpl.
  { exists (Some m). split; [done|]. repeat split; try done.
    intros HwO (i & Hi & Hw). rewrite (HnoO HwO i Hi) in Hw. done. }
  destruct (random_choice_total rnd (first :: rest)) as (m & -> & Hm); [done|].
  exists (Some m). split; [done|]. apply Helem in Hm as [Hm Hcell].
  repeat split; try done.
  - intros HwO (i & Hi & Hw). rewrite (HnoO HwO i Hi) in Hw. done.
  - intros HwX _ (i & Hi & Hw). rewrite (HnoX HwX i Hi) in Hw. done.
Qed.

(** X11: on a board of nine cells or more [get_medium_move] never raises
    and answers [None] exactly when none of the nine cells is empty;
    otherwise its answer is an empty cell, one that completes a line for O
    whenever some empty cell does, and failing that one that would
    complete a line for X whenever some empty cell would. *)
Theorem medium_move_wins_else_blocks (rnd : nat) (b : Board) :
  (9 ≤ length b)%nat →
  ∃ r, Medium.get_medium_move rnd b = Ok r ∧
       match r with
       | None => ∀ i, (i < 9)%nat → b !! i ≠ Some None
       | Some m =>
           (m < 9)%nat ∧ b !! m = Some None ∧
           (check_winner b O = Ok false →
            (∃ i, b !! i = Some None ∧
                  check_winner (<[i:=Some O]> b) O = Ok true) →
            check_winner (<[m:=Some O]> b) O = Ok true) ∧
           (check_winner b X = Ok false →
            (∀ i, b !! i = Some None →
                  check_winner (<[i:=Some O]> b) O = Ok false) →
            (∃ i, b !! i = Some None ∧
                  check_winner (<[i:=Some X]> b) X = Ok true) →
            check_winner (<[m:=Some X]> b) X = Ok true)
       end.
Proof. apply get_medium_move_spec. Qed.

(** ** The standard opponents and the engine *)

Lemma not_full_has_empty (b : Board) :
  is_board_full b = false → ∃ i, b !! i = Some None.
Proof.
  unfold is_board_full. induction b as [|c b IH]; simpl; [done|].
  destruct c as [p|]; simpl.
  - intros [i Hi]%IH. by exists (S i).
  - intros _. by exists 0%nat.
Qed.

Lemma standard_make_move_accepts (g : TicTacToeGame.t) (m : nat) :
  length (TicTacToeGame.board g) = 9%nat →
  TicTacToeGame.game_over g = false →
  TicTacToeGame.board g !! m = Some None →
  ∃ g', TicTacToeGame.make_move g (Z.of_nat m) = Ok (true, g').
Proof.
  intros Hlen Hon Hcell.
  pose proof (lookup_lt_Some _ _ _ Hcell) as Hm.
  unfold TicTacToeGame.make_move, TicTacToeGame.is_valid_move.
  rewrite Hon, Nat2Z.id.
  destruct (Z.leb_spec 0 (Z.of_nat m)); [|lia].
  destruct (Z.leb_spec (Z.of_nat m) 8); [|lia]. simpl.
  rewrite (proj2 (getitem_Ok _ _ _) Hcell). simpl.
  rewrite (proj2 (setitem_Ok _ _ _ _) (conj Hm eq_refl)). simpl.
  destruct (check_winner_total
              (<[m:=Some (TicTacToeGame.current_player g)]>
                 (TicTacToeGame.board g))
              (TicTacToeGame.current_player g)) as [won ->].
  { rewrite length_insert. lia. }
  simpl. destruct won; [eauto|].
  destruct (is_board_full _); eauto.
Qed.

(** X12: in every reachable state of the standard game that is not over,
    each of the three opponents, asked on a copy of the board, answers
    with a move that [make_move] accepts; [get_hard_move] also leaves the
    copy as it was. *)
Theorem standard_opponents_moves_accepted (rnd : nat) (g : TicTacToeGame.t) :
  TicTacToeGame.reachable g → TicTacToeGame.game_over g = false →
  let b := TicTacToeGame.get_board_copy g in
  (∃ m g', Easy.get_easy_move rnd b = Ok (Some m) ∧
           TicTacToeGame.make_move g (Z.of_nat m) = Ok (true, g')) ∧
  (∃ m g', Medium.get_medium_move rnd b = Ok (Some m) ∧
           TicTacToeGame.make_move g (Z.of_nat m) = Ok (true, g')) ∧
  (∃ m g', Hard.get_hard_move b = Ok (Some m, b) ∧
           TicTacToeGame.make_move g (Z.of_nat m) = Ok (true, g')).
Proof.
  intros Hreach Hon b.
  pose proof (standard_reachable_outcome g Hreach) as (Hlen & _ & Hover).
  assert (Hfree : ∃ i, (i < 9)%nat ∧ b !! i = Some None).
  { destruct (is_board_full b) eqn:Hfull.
    - rewrite Hon in Hover. destruct Hover as [_ Hover].
      enough (false = true) by done. apply Hover. by right; right.
    - destruct (not_full_has_empty b Hfull) as [i Hi]. exists i.
      split; [|done]. apply lookup_lt_Some in Hi.
      unfold b, TicTacToeGame.get_board_copy in Hi. lia. }
  destruct Hfree as (i & Hi & Hcell).
  assert (H9 : (9 ≤ length b)%nat)
    by (unfold b, TicTacToeGame.get_board_copy; lia).
  split; [|split].
  - destruct (get_easy_move_spec rnd b H9) as ([m|] & Hr & Hm).
    + destruct Hm as [_ Hm].
      destruct (standard_make_move_accepts g m Hlen Hon Hm) as [g' Hg'].
      eauto.
    + by destruct (Hm i Hi).
  - destruct (get_medium_move_spec rnd b H9) as ([m|] & Hr & Hm).
    + destruct Hm as (_ & Hm & _).
      destruct (standard_make_move_accepts g m Hlen Hon Hm) as [g' Hg'].
      eauto.
    + by destruct (Hm i Hi).
  - destruct (get_hard_move_total_and_restores b H9) as ([m|] & Hr & Hm).
    + destruct Hm as [_ Hm].
      destruct (standard_make_move_accepts g m Hlen Hon Hm) as [g' Hg'].
      eauto.
    + by destruct (Hm i Hi).
Qed.

(** ** Order on scores *)

Lemma score_leb_refl (a : score) : score_leb a a = true.
Proof. destruct a; simpl; try done. apply Z.leb_refl. Qed.

Lemma score_leb_trans (a b c : score) :
  score_leb a b = true → score_leb b c = true → score_leb a c = true.
Proof.
  destruct a, b, c; simpl; try done.
  rewrite !Z.leb_le. lia.
Qed.

Lemma score_ltb_leb (a b : score) :
  score_ltb a b = true → score_leb a b = true.
Proof.
  unfold score_ltb. destruct a, b; simpl; try done.
  rewrite negb_true_iff, Z.leb_gt, Z.leb_le. lia.
Qed.

Lemma score_not_ltb (a b : score) :
  score_ltb a b = false ↔ score_leb b a = true.
Proof. unfold score_ltb. by rewrite negb_false_iff. Qed.

Lemma score_ltb_leb_trans (a b c : score) :
  score_ltb a b = true → score_leb b c = true → score_ltb a c = true.
Proof.
  unfold score_ltb. destruct a, b, c; simpl; try done.
  rewrite !negb_true_iff, !Z.leb_gt, Z.leb_le. lia.
Qed.

Lemma score_leb_ltb_trans (a b c : score) :
  score_leb a b = true → score_ltb b c = true → score_ltb a c = true.
Proof.
  unfold score_ltb. destruct a, b, c; simpl; try done.
  rewrite !negb_true_iff, !Z.leb_gt, Z.leb_le. lia.
Qed.

(** ** The standard hard opponent picks the first best candidate *)

Lemma hard_move_loop_argmax (fuel : nat) (sc : nat → score) (b : Board)
    (empty : list nat) (best_score : score) (best_move : nat) :
  (∀ pos, pos ∈ empty → b !! pos = Some None) →
  (∀ pos, pos ∈ empty →
     Hard.minimax fuel (<[pos:=Some O]> b) 0 false
     = Ok (sc pos, <[pos:=Some O]> b)) →
  ∃ m,
    Hard.hard_move_loop fuel empty best_score best_move b = Ok (m, b) ∧
    ((m = best_move ∧
      ∀ pos, pos ∈ empty → score_leb (sc pos) best_score = true) ∨
     (∃ l1 l2,
        empty = l1 ++ m :: l2 ∧
        score_ltb best_score (sc m) = true ∧
        (∀ pos, pos ∈ l1 → score_ltb (sc pos) (sc m) = true) ∧
        (∀ pos, pos ∈ l2 → score_leb (sc pos) (sc m) = true))).
Proof.
  revert best_score best_move.
  induction empty as [|pos rest IH]; intros best_score best_move Hcells Hsc.
  { exists best_move. split; [done|]. left. split; [done|].
    intros pos Hpos. by apply elem_of_nil in Hpos. }
  cbn [Hard.hard_move_loop].
  destruct (place_undo b pos O) as [-> Hundo]; [apply Hcells; left|].
  cbn [mbind result_bind rbind]. rewrite (Hsc pos) by left.
  cbn [mbind result_bind rbind]. rewrite Hundo. cbn [mbind result_bind rbind].
  assert (Hcells' : ∀ p, p ∈ rest → b !! p = Some None)
    by (intros p Hp; apply Hcells; by right).
  assert (Hsc' : ∀ p, p ∈ rest →
            Hard.minimax fuel (<[p:=Some O]> b) 0 false
            = Ok (sc p, <[p:=Some O]> b))
    by (intros p Hp; apply Hsc; by right).
  destruct (score_ltb best_score (sc pos)) eqn:Hlt.
  - destruct (IH (sc pos) pos Hcells' Hsc') as (m & -> & Hm).
    exists m. split; [done|]. right.
    destruct Hm as [[-> Hall]|(l1 & l2 & -> & Hbest & Hl1 & Hl2)].
    + exists [], rest. split; [done|]. split; [done|].
      split; [intros p Hp; by apply elem_of_nil in Hp|done].
    + exists (pos :: l1), l2. split; [done|]. split.
      * eapply score_ltb_leb_trans; [exact Hlt|]. by apply score_ltb_leb.
      * split; [|done]. intros p [->|Hp]%elem_of_cons; auto.
  - apply score_not_ltb in Hlt.
    destruct (IH best_score best_move Hcells' Hsc') as (m & -> & Hm).
    exists m. split; [done|].
    destruct Hm as [[-> Hall]|(l1 & l2 & -> & Hbest & Hl1 & Hl2)].
    + left. split; [done|]. intros p [->|Hp]%elem_of_cons; auto.
    + right. exists (pos :: l1), l2. split; [done|]. split; [done|].
      split; [|done]. intros p [->|Hp]%elem_of_cons; [|auto].
      eapply score_leb_ltb_trans; [exact Hlt|exact Hbest].
Qed.

Lemma get_hard_move_argmax (b : Board) :
  (9 ≤ length b)%nat →
  ∃ (sc : nat → score) (empty : list nat),
    empty_cells b = Ok empty ∧
    (∀ pos, pos ∈ empty →
       Hard.minimax Hard.minimax_fuel (<[pos:=Some O]> b) 0 false
       = Ok (sc pos, <[pos:=Some O]> b)) ∧
    match empty with
    | [] => Hard.get_hard_move b = Ok (None, b)
    | _ =>
        ∃ m l1 l2,
          Hard.get_hard_move b = Ok (Some m, b) ∧
          empty = l1 ++ m :: l2 ∧
          (∀ pos, pos ∈ l1 → score_ltb (sc pos) (sc m) = true) ∧
          (∀ pos, pos ∈ l2 → score_leb (sc pos) (sc m) = true)
    end.
Proof.
  intros Hlen.
  destruct (empty_cells_total b Hlen) as [empty Hempty].
  pose proof (λ i, empty_cells_elem b empty i Hempty) as Helem.
  assert (Hrun : ∀ pos, pos ∈ empty →
            ∃ s, Hard.minimax Hard.minimax_fuel (<[pos:=Some O]> b) 0 false
                 = Ok (s, <[pos:=Some O]> b)).
  { intros pos [Hpos Hcell]%Helem.
    apply minimax_total_restores; [by rewrite length_insert|].
    pose proof (cells_left_mark b pos O Hpos Hcell) as Hleft.
    assert (cells_left b ≤ 9)%nat; [|unfold Hard.minimax_fuel; lia].
    unfold cells_left, count_cells.
    etransitivity; [apply length_filter|]. rewrite length_take. lia. }
  exists (λ pos,
            match Hard.minimax Hard.minimax_fuel (<[pos:=Some O]> b) 0 false with
            | Ok (s, _) => s
            | _ => NegInf
            end), empty.
  split; [done|]. split.
  { intros pos Hpos. destruct (Hrun pos Hpos) as [s Hs]. by rewrite Hs. }
  unfold Hard.get_hard_move. rewrite Hempty. cbn [mbind result_bind rbind].
  destruct empty as [|first rest]; [done|].
  destruct (hard_move_loop_argmax Hard.minimax_fuel
              (λ pos,
                 match Hard.minimax Hard.minimax_fuel (<[pos:=Some O]> b) 0 false
                 with
                 | Ok (s, _) => s
                 | _ => NegInf
                 end) b (first :: rest) NegInf first) as (m & Hloop & Hm).
  { intros pos Hpos. by apply Helem. }
  { intros pos Hpos. destruct (Hrun pos Hpos) as [s Hs]. by rewrite Hs. }
  rewrite Hloop. cbn [mbind result_bind rbind].
  destruct Hm as [[-> Hall]|(l1 & l2 & Heq & _ & Hl1 & Hl2)].
  - exists first, [], rest. split; [done|]. split; [done|].
    split; [intros p Hp; by apply elem_of_nil in Hp|].
    intros pos Hpos. eapply score_leb_trans; [apply Hall; by right|done].
  - exists m, l1, l2. by repeat split.
Qed.

(** ** Bounds on the standard search *)

Lemma score_max_in_range (lo hi : Z) (best s : score) :
  best = NegInf ∨ in_range lo hi best → in_range lo hi s →
  in_range lo hi (score_max best s).
Proof.
  intros [->|(zb & -> & Hb)] (z & -> & Hz); unfold score_max, score_ltb; simpl.
  - by exists z.
  - destruct (z <=? zb); simpl; [by exists zb|by exists z].
Qed.

Lemma score_min_in_range (lo hi : Z) (best s : score) :
  best = PosInf ∨ in_range lo hi best → in_range lo hi s →
  in_range lo hi (score_min best s).
Proof.
  intros [->|(zb & -> & Hb)] (z & -> & Hz); unfold score_min, score_ltb; simpl.
  - by exists z.
  - destruct (zb <=? z); simpl; [by exists zb|by exists z].
Qed.

Lemma minimax_loop_in_range (rec : Board → result (score * Board))
    (mark : player) (pick : score → score → score) (init : score)
    (lo hi : Z) (empty : list nat) (best : score) (b : Board) :
  (∀ a s, a = init ∨ in_range lo hi a → in_range lo hi s →
          in_range lo hi (pick a s)) →
  (∀ pos, pos ∈ empty → b !! pos = Some None) →
  (∀ pos, pos ∈ empty →
     ∃ s, rec (<[pos:=Some mark]> b) = Ok (s, <[pos:=Some mark]> b) ∧
          in_range lo hi s) →
  best = init ∨ in_range lo hi best →
  ∃ s, Hard.minimax_loop rec mark pick empty best b = Ok (s, b) ∧
       ((empty = [] ∧ s = best) ∨ in_range lo hi s).
Proof.
  intros Hpick. revert best.
  induction empty as [|pos rest IH]; intros best Hcells Hrec Hbest.
  { exists best. split; [done|]. by left. }
  cbn [Hard.minimax_loop].
  destruct (place_undo b pos mark) as [-> Hundo]; [apply Hcells; left|].
  cbn [mbind result_bind rbind].
  destruct (Hrec pos) as (s & -> & Hs); [left|].
  cbn [mbind result_bind rbind]. rewrite Hundo. cbn [mbind result_bind rbind].
  destruct (IH (pick best s)) as (s' & -> & Hs').
  - intros p Hp. apply Hcells. by right.
  - intros p Hp. apply Hrec. by right.
  - right. by apply Hpick.
  - exists s'. split; [done|]. right.
    destruct Hs' as [[_ ->]|Hs']; [by apply Hpick|done].
Qed.

Lemma cells_left_full (b : Board) :
  length b = 9%nat → is_board_full b = false → (0 < cells_left b)%nat.
Proof.
  intros Hlen [i Hi]%not_full_has_empty.
  unfold cells_left. rewrite take_ge by lia.
  pose proof (count_cells_insert None None (Some X) b i Hi) as H.
  repeat case_decide; simplify_eq; lia.
Qed.

Lemma minimax_bounds (fuel : nat) (b : Board) (depth : Z)
    (is_maximizing : bool) :
  length b = 9%nat → depth + Z.of_nat (cells_left b) ≤ 10 →
  (cells_left b < fuel)%nat →
  ∃ z, Hard.minimax fuel b depth is_maximizing = Ok (Fin z, b) ∧
       depth - 10 ≤ z ≤ 10 - depth.
Proof.
  revert b depth is_maximizing.
  induction fuel as [|fuel IH]; intros b depth is_maximizing Hlen Hd Hfuel;
    [lia|].
  cbn [Hard.minimax].
  destruct (check_winner_total b O) as [wo ->]; [lia|].
  cbn [mbind result_bind rbind]. destruct wo; [exists (10 - depth); split; [done|lia]|].
  destruct (check_winner_total b X) as [wx ->]; [lia|].
  cbn [mbind result_bind rbind]. destruct wx; [exists (depth - 10); split; [done|lia]|].
  destruct (is_board_full b) eqn:Hfull; [exists 0; split; [done|lia]|].
  pose proof (cells_left_full b Hlen Hfull) as Hpos.
  destruct (empty_cells_total b) as [empty Hempty]; [lia|].
  rewrite Hempty. cbn [mbind result_bind rbind].
  pose proof (λ i, empty_cells_elem b empty i Hempty) as Helem.
  pose proof (empty_cells_length b empty Hempty) as Hcount.
  assert (Hne : empty ≠ []) by (intros ->; simpl in Hcount; lia).
  assert (Hrec : ∀ (m : bool) (mark : player) pos, pos ∈ empty →
            ∃ s, Hard.minimax fuel (<[pos:=Some mark]> b) (depth + 1) m
                 = Ok (s, <[pos:=Some mark]> b) ∧
                 in_range (depth - 10) (10 - depth) s).
  { intros m mark pos [Hp Hcell]%Helem.
    pose proof (cells_left_mark b pos mark Hp Hcell) as Hleft.
    destruct (IH (<[pos:=Some mark]> b) (depth + 1) m) as (z & -> & Hz);
      [by rewrite length_insert|lia|lia|].
    exists (Fin z). split; [done|]. exists z. split; [done|lia]. }
  destruct is_maximizing.
  - destruct (minimax_loop_in_range
                (λ b0, Hard.minimax fuel b0 (depth + 1) false) O score_max
                NegInf (depth - 10) (10 - depth) empty NegInf b)
      as (s & -> & Hs); auto using score_max_in_range.
    + intros pos Hpos'. by apply Helem.
    + destruct Hs as [[? _]|(z & -> & Hz)]; [done|]. by exists z.
  - destruct (minimax_loop_in_range
                (λ b0, Hard.minimax fuel b0 (depth + 1) true) X score_min
                PosInf (depth - 10) (10 - depth) empty PosInf b)
      as (s & -> & Hs); auto using score_min_in_range.
    + intros pos Hpos'. by apply Helem.
    + destruct Hs as [[? _]|(z & -> & Hz)]; [done|]. by exists z.
Qed.

(** X13: on a nine-cell board, searched from depth
    [depth] with no more empty cells than [10 - depth], [minimax] returns
    an integer between [depth - 10] and [10 - depth], never an infinity,
    and leaves the board as it was. *)
Theorem minimax_score_bounds (fuel : nat) (b : Board) (depth : Z)
    (is_maximizing : bool) :
  length b = 9%nat → depth + Z.of_nat (cells_left b) ≤ 10 →
  (cells_left b < fuel)%nat →
  ∃ z, Hard.minimax fuel b depth is_maximizing = Ok (Fin z, b) ∧
       depth - 10 ≤ z ≤ 10 - depth.
Proof. apply minimax_bounds. Qed.

(** ** The standard hard opponent takes a win *)

Lemma cells_left_le (b : Board) : (cells_left b ≤ 9)%nat.
Proof.
  unfold cells_left, count_cells.
  etransitivity; [apply length_filter|]. rewrite length_take. lia.
Qed.

Lemma minimax_won (fuel : nat) (b : Board) (depth : Z) (m : bool) :
  check_winner b O = Ok true →
  Hard.minimax (S fuel) b depth m = Ok (Fin (10 - depth), b).
Proof. intros H. cbn [Hard.minimax]. by rewrite H. Qed.

Lemma minimax_not_won (fuel : nat) (b : Board) :
  length b = 9%nat → (cells_left b < fuel)%nat →
  check_winner b O = Ok false →
  ∃ z, Hard.minimax fuel b 0 false = Ok (Fin z, b) ∧ z ≤ 9.
Proof.
  intros Hlen Hfuel Hwo. destruct fuel as [|fuel]; [lia|].
  cbn [Hard.minimax]. rewrite Hwo. cbn [mbind result_bind rbind].
  destruct (check_winner_total b X) as [wx ->]; [lia|].
  cbn [mbind result_bind rbind]. destruct wx; [exists (-10); split; [done|lia]|].
  destruct (is_board_full b) eqn:Hfull; [exists 0; split; [done|lia]|].
  pose proof (cells_left_full b Hlen Hfull) as Hpos.
  pose proof (cells_left_le b) as Hle.
  destruct (empty_cells_total b) as [empty Hempty]; [lia|].
  rewrite Hempty. cbn [mbind result_bind rbind].
  pose proof (λ i, empty_cells_elem b empty i Hempty) as Helem.
  destruct (minimax_loop_in_range
              (λ b0, Hard.minimax fuel b0 (0 + 1) true) X score_min
              PosInf (-9) 9 empty PosInf b)
    as (s & -> & Hs); auto using score_min_in_range.
  - intros pos Hpos'. by apply Helem.
  - intros pos [Hp Hcell]%Helem.
    pose proof (cells_left_mark b pos X Hp Hcell) as Hleft.
    destruct (minimax_bounds fuel (<[pos:=Some X]> b) (0 + 1) true)
      as (z & -> & Hz); [by rewrite length_insert|lia|lia|].
    exists (Fin z). split; [done|]. exists z. split; [done|lia].
  - pose proof (empty_cells_length b empty Hempty) as Hcount.
    destruct Hs as [[-> _]|(z & -> & Hz)]; [simpl in Hcount; lia|].
    exists z. split; [done|lia].
Qed.

(** X14: on a nine-cell board where some empty cell
    completes a line for O, [get_hard_move] returns such a cell (and the
    board as it was). *)
Theorem hard_move_takes_win (b : Board) :
  length b = 9%nat →
  (∃ i, b !! i = Some None ∧ check_winner (<[i:=Some O]> b) O = Ok true) →
  ∃ m, Hard.get_hard_move b = Ok (Some m, b) ∧ b !! m = Some None ∧
       check_winner (<[m:=Some O]> b) O = Ok true.
Proof.
  intros Hlen (i & Hcell & Hwin).
  destruct (get_hard_move_argmax b) as (sc & empty & Hempty & Hsc & Hres);
    [lia|].
  pose proof (λ i, empty_cells_elem b empty i Hempty) as Helem.
  assert (Hi : i ∈ empty).
  { apply Helem. split; [|done]. apply lookup_lt_Some in Hcell. lia. }
  destruct empty as [|first rest]; [by apply elem_of_nil in Hi|].
  destruct Hres as (m & l1 & l2 & Hmove & Heq & Hl1 & Hl2).
  assert (Hm : m ∈ first :: rest).
  { rewrite Heq. apply elem_of_app. right. left. }
  pose proof (proj1 (Helem m) Hm) as [Hm9 Hmcell].
  exists m. split; [done|]. split; [done|].
  assert (Hsi : sc i = Fin 10).
  { specialize (Hsc i Hi). unfold Hard.minimax_fuel in Hsc.
    rewrite (minimax_won _ _ _ _ Hwin) in Hsc. by simplify_eq. }
  assert (Hge : score_leb (Fin 10) (sc m) = true).
  { rewrite <-Hsi. rewrite Heq in Hi.
    apply elem_of_app in Hi as [Hi|[->|Hi]%elem_of_cons].
    - by apply score_ltb_leb, Hl1.
    - apply score_leb_refl.
    - by apply Hl2. }
  destruct (check_winner_total (<[m:=Some O]> b) O) as [[] Hw];
    [rewrite length_insert; lia|done|].
  exfalso.
  destruct (minimax_not_won Hard.minimax_fuel (<[m:=Some O]> b))
    as (z & Hz & Hz9); [by rewrite length_insert| |done|].
  { pose proof (cells_left_mark b m O Hm9 Hmcell).
    pose proof (cells_left_le b). unfold Hard.minimax_fuel. lia. }
  rewrite (Hsc m Hm) in Hz. injection Hz as Hz. rewrite Hz in Hge.
  simpl in Hge. apply Z.leb_le in Hge. lia.
Qed.

(** The candidates come in ascending index order. *)
Lemma filter_of_seq_sorted (f : nat → result bool) (k n : nat) (l : list nat) :
  filter_of f (seq k n) = Ok l →
  StronglySorted lt l ∧ Forall (λ i, k ≤ i)%nat l.
Proof.
  revert k l. induction n as [|n IH]; intros k l H; simpl in H.
  - simplify_eq. split; constructor.
  - apply bind_Ok in H as (v & _ & H).
    apply bind_Ok in H as (r & Hr & H). simplify_eq.
    destruct (IH _ _ Hr) as [Hs Hk]. destruct v.
    + split.
      * constructor; [done|]. eapply Forall_impl; [exact Hk|].
        simpl. intros; lia.
      * constructor; [lia|]. eapply Forall_impl; [exact Hk|].
        simpl. intros; lia.
    + split; [done|]. eapply Forall_impl; [exact Hk|]. simpl. intros; lia.
Qed.

Lemma move_score_eq (b : Board) (pos : nat) (s : score) :
  b !! pos = Some None →
  Hard.minimax Hard.minimax_fuel (<[pos:=Some O]> b) 0 false
  = Ok (s, <[pos:=Some O]> b) →
  move_score b pos = Ok s.
Proof.
  intros Hcell Hs. unfold move_score.
  destruct (place_undo b pos O Hcell) as [-> _].
  cbn [mbind result_bind rbind]. by rewrite Hs.
Qed.

(** X15: on a board of nine cells or more
    [get_hard_move] never raises and leaves the board as it was; it
    answers [None] when no cell is empty, and otherwise the first, in
    ascending index order, of the empty cells whose [minimax] score is
    greatest: every earlier empty cell scores strictly less, every later
    one no more. *)
Theorem hard_move_first_best (b : Board) :
  (9 ≤ length b)%nat →
  ∃ empty,
    empty_cells b = Ok empty ∧ StronglySorted lt empty ∧
    match empty with
    | [] => Hard.get_hard_move b = Ok (None, b)
    | _ =>
        ∃ m l1 l2 sm,
          Hard.get_hard_move b = Ok (Some m, b) ∧
          empty = l1 ++ m :: l2 ∧
          move_score b m = Ok sm ∧
          (∀ pos, pos ∈ l1 →
             ∃ s, move_score b pos = Ok s ∧ score_ltb s sm = true) ∧
          (∀ pos, pos ∈ l2 →
             ∃ s, move_score b pos = Ok s ∧ score_leb s sm = true)
    end.
Proof.
  intros Hlen.
  destruct (get_hard_move_argmax b Hlen) as (sc & empty & Hempty & Hsc & Hres).
  pose proof (λ i, empty_cells_elem b empty i Hempty) as Helem.
  exists empty. split; [done|].
  split; [by eapply filter_of_seq_sorted|].
  destruct empty as [|first rest]; [done|].
  destruct Hres as (m & l1 & l2 & Hmove & Heq & Hl1 & Hl2).
  assert (Hscore : ∀ pos, pos ∈ first :: rest → move_score b pos = Ok (sc pos)).
  { intros pos Hpos. apply move_score_eq; [by apply Helem|by apply Hsc]. }
  exists m, l1, l2, (sc m). split; [done|]. split; [done|].
  split; [|split].
  - apply Hscore. rewrite Heq. apply elem_of_app. right. left.
  - intros pos Hpos. exists (sc pos). split; [|by apply Hl1].
    apply Hscore. rewrite Heq. apply elem_of_app. by left.
  - intros pos Hpos. exists (sc pos). split; [|by apply Hl2].
    apply Hscore. rewrite Heq. apply elem_of_app. right. by right.
Qed.

(** ** The easy opponent in the No-Draw game *)

Lemma easy_no_draw_choice (rnd : nat) (b : Board) (x_moves o_moves : list nat)
    (m : nat) :
  Easy.get_easy_move_no_draw rnd b x_moves o_moves = Ok (Some m) →
  ((m < 9)%nat ∧ b !! m = Some None) ∨
  ((3 ≤ length o_moves)%nat ∧ head o_moves = Some m ∧
   b !! m = Some (Some O)).
Proof.
  unfold Easy.get_easy_move_no_draw. intros H.
  apply bind_Ok in H as (empty & Hempty & H).
  pose proof (λ i, empty_cells_elem b empty i Hempty) as Helem.
  apply bind_Ok in H as (cands & Hcands & H).
  assert (Hm : m ∈ cands).
  { destruct cands; [discriminate H|].
    apply bind_Ok in H as (m' & Hm' & H). simplify_eq.
    by eapply random_choice_elem. }
  clear H. case_decide as Hcap.
  - destruct o_moves as [|oldest rest]; [discriminate Hcands|].
    apply bind_Ok in Hcands as (c & Hc%getitem_Ok & Hcands). simplify_eq.
    unfold cell_is in Hm. case_bool_decide as Hcell.
    + apply elem_of_app in Hm as [Hm| ->%list_elem_of_singleton].
      * left. by apply Helem.
      * right. subst c. done.
    + left. by apply Helem.
  - simplify_eq. left. by apply Helem.
Qed.

(** X16: whatever board and histories it is given, a move returned by
    [get_easy_move_no_draw] is an empty cell, or it is [o_moves[0]] with
    [o_moves] at capacity and O's mark still on that cell; it is never a
    cell that holds X. *)
Theorem easy_no_draw_move_playable (rnd : nat) (b : Board)
    (x_moves o_moves : list nat) (m : nat) :
  Easy.get_easy_move_no_draw rnd b x_moves o_moves = Ok (Some m) →
  (((m < 9)%nat ∧ b !! m = Some None) ∨
   ((3 ≤ length o_moves)%nat ∧ head o_moves = Some m ∧
    b !! m = Some (Some O))) ∧
  b !! m ≠ Some (Some X).
Proof.
  intros H%easy_no_draw_choice. split; [done|].
  destruct H as [[_ ->]|(_ & _ & ->)]; done.
Qed.

(** ** Simulated placements *)

(** The board after the engine's eviction and placement. *)
Lemma simulate_board_total (b : Board) (p : player) (pos : nat)
    (player_moves : list nat) :
  length b = 9%nat → (pos < 9)%nat → Forall (λ i, i < 9)%nat player_moves →
  ∃ sb, Medium._simulate_no_draw_board b p pos player_moves = Ok sb ∧
        length sb = 9%nat.
Proof.
  intros Hlen Hpos Hmoves. unfold Medium._simulate_no_draw_board.
  case_decide as Hcap.
  - destruct player_moves as [|oldest rest]; [simpl in Hcap; lia|].
    apply Forall_cons in Hmoves as [Hold _].
    assert (Hset : setitem b oldest None = Ok (<[oldest:=None]> b))
      by (apply setitem_Ok; split; [lia|done]).
    rewrite Hset. cbn [mbind result_bind rbind].
    eexists. split; [apply setitem_Ok; split; [|done]|].
    + rewrite length_insert. lia.
    + by rewrite !length_insert.
  - cbn [mbind result_bind rbind].
    eexists. split; [apply setitem_Ok; split; [lia|done]|].
    by rewrite length_insert.
Qed.

Lemma find_winning_pos_spec (l : list nat) (b : Board) (p : player)
    (player_moves : list nat) :
  (∀ pos, pos ∈ l →
     ∃ sb, Medium._simulate_no_draw_board b p pos player_moves = Ok sb ∧
           (9 ≤ length sb)%nat) →
  (∃ pos sb l1 l2,
     Medium.find_winning_pos l b p player_moves = Ok (Some pos) ∧
     l = l1 ++ pos :: l2 ∧
     Medium._simulate_no_draw_board b p pos player_moves = Ok sb ∧
     check_winner sb p = Ok true ∧
     ∀ q, q ∈ l1 →
          ∃ sq, Medium._simulate_no_draw_board b p q player_moves = Ok sq ∧
                check_winner sq p = Ok false) ∨
  (Medium.find_winning_pos l b p player_moves = Ok None ∧
   ∀ q, q ∈ l →
        ∃ sq, Medium._simulate_no_draw_board b p q player_moves = Ok sq ∧
              check_winner sq p = Ok false).
Proof.
  induction l as [|pos rest IH]; intros Hsim.
  { right. split; [done|]. intros q Hq. by apply elem_of_nil in Hq. }
  cbn [Medium.find_winning_pos].
  destruct (Hsim pos) as (sb & Hsb & Hlen); [left|].
  rewrite Hsb. cbn [mbind result_bind rbind].
  destruct (check_winner_total sb p Hlen) as [won Hwon]. rewrite Hwon.
  cbn [mbind result_bind rbind]. destruct won.
  - left. exists pos, sb, [], rest. repeat split; try done.
    intros q Hq. by apply elem_of_nil in Hq.
  - destruct IH as [(pos' & sb' & l1 & l2 & -> & -> & Hs' & Hw' & Hl1)|
                    [-> Hnone]].
    { intros q Hq. apply Hsim. by right. }
    + left. exists pos', sb', (pos :: l1), l2. repeat split; try done.
      intros q [->|Hq]%elem_of_cons; eauto.
    + right. split; [done|]. intros q [->|Hq]%elem_of_cons; eauto.
Qed.

Lemma find_winning_move_no_draw_spec (b : Board) (p : player)
    (player_moves : list nat) :
  length b = 9%nat → Forall (λ i, i < 9)%nat player_moves →
  ∃ available,
    Medium.available_moves b player_moves = Ok available ∧
    ((∃ pos sb l1 l2,
        Medium.find_winning_move_no_draw b p player_moves = Ok (Some pos) ∧
        available = l1 ++ pos :: l2 ∧
        Medium._simulate_no_draw_board b p pos player_moves = Ok sb ∧
        check_winner sb p = Ok true ∧
        ∀ q, q ∈ l1 →
             ∃ sq, Medium._simulate_no_draw_board b p q player_moves = Ok sq ∧
                   check_winner sq p = Ok false) ∨
     (Medium.find_winning_move_no_draw b p player_moves = Ok None ∧
      ∀ q, q ∈ available →
           ∃ sq, Medium._simulate_no_draw_board b p q player_moves = Ok sq ∧
                 check_winner sq p = Ok false)).
Proof.
  intros Hlen Hmoves.
  assert (Havail : ∃ available,
            Medium.available_moves b player_moves = Ok available).
  { unfold Medium.available_moves.
    destruct (empty_cells_total b) as [empty ->]; [lia|].
    cbn [mbind result_bind rbind]. case_decide as Hcap; [|eauto].
    destruct player_moves; [simpl in Hcap; lia|eauto]. }
  destruct Havail as [available Havail]. exists available. split; [done|].
  unfold Medium.find_winning_move_no_draw. rewrite Havail.
  cbn [mbind result_bind rbind]. apply find_winning_pos_spec.
  intros pos Hpos.
  destruct (simulate_board_total b p pos player_moves) as (sb & -> & Hsb);
    try done; [|exists sb; split; [done|lia]].
  apply (available_moves_elem _ _ _ _ Havail) in Hpos as [[? _]|[_ Hhead]];
    [done|].
  apply head_Some_elem_of in Hhead.
  by apply (proj1 (Forall_forall _ _) Hmoves) in Hhead.
Qed.

(** ** The No-Draw opponents and the engine *)

Lemma no_draw_reachable_shape (g : NoDrawGame.t) :
  NoDrawGame.reachable g →
  length (NoDrawGame.board g) = 9%nat ∧
  ∀ p, Forall (λ i, i < 9)%nat (NoDrawGame._get_player_moves g p) ∧
       ∀ i, i ∈ NoDrawGame._get_player_moves g p →
            NoDrawGame.board g !! i = Some (Some p).
Proof.
  intros Hreach.
  pose proof (no_draw_reachable_outcome g Hreach) as (Hlen & _).
  split; [done|]. intros p.
  assert (Hmarks : marks_ok g p).
  { destruct (no_draw_reachable_invariant g Hreach) as (? & ? & _).
    by destruct p. }
  destruct Hmarks as (_ & Hheld & _). split; [|done].
  apply Forall_forall. intros i Hi%Hheld%lookup_lt_Some. lia.
Qed.

Lemma no_draw_make_move_simulates (g g' : NoDrawGame.t) (position : Z) :
  NoDrawGame.make_move g position = Ok (true, g') →
  Medium._simulate_no_draw_board (NoDrawGame.board g)
    (NoDrawGame.current_player g) (Z.to_nat position)
    (NoDrawGame._get_player_moves g (NoDrawGame.current_player g))
  = Ok (NoDrawGame.board g').
Proof.
  intros Hmove.
  apply no_draw_make_move_true in Hmove
    as (_ & _ & Hpos & (b1 & moves1 & Hevict & -> & _) & _).
  unfold Medium._simulate_no_draw_board.
  destruct Hevict as [(Hlt & -> & -> & _)|(oldest & Hm & Hge & Hold & -> & _)].
  - case_decide; [lia|]. cbn [mbind result_bind rbind].
    by apply setitem_Ok.
  - rewrite Hm in *. case_decide; [|lia].
    assert (Hset : setitem (NoDrawGame.board g) oldest None
                   = Ok (<[oldest:=None]> (NoDrawGame.board g)))
      by (by apply setitem_Ok).
    rewrite Hset. cbn [mbind result_bind rbind].
    apply setitem_Ok. by rewrite length_insert.
Qed.

(** A candidate whose simulated placement wins is a winning engine move,
    and the other way round. *)
Lemma no_draw_win_by_simulation (g g' : NoDrawGame.t) (position : Z)
    (sb : Board) :
  NoDrawGame.reachable g →
  NoDrawGame.make_move g position = Ok (true, g') →
  Medium._simulate_no_draw_board (NoDrawGame.board g)
    (NoDrawGame.current_player g) (Z.to_nat position)
    (NoDrawGame._get_player_moves g (NoDrawGame.current_player g)) = Ok sb →
  check_winner sb (NoDrawGame.current_player g) = Ok true ↔
  NoDrawGame.winner g' = Some (NoDrawGame.current_player g).
Proof.
  intros Hreach Hmove Hsb.
  rewrite (no_draw_make_move_simulates _ _ _ Hmove) in Hsb. simplify_eq.
  pose proof (no_draw_make_move_true _ _ _ Hmove) as (Hon & _).
  destruct (no_draw_make_move_outcome _ _ _ Hmove)
    as [(Hw & _ & Hwin)|(Hw & Hover & Hwin)].
  - by rewrite Hw, Hwin.
  - rewrite Hw, Hwin. split; [discriminate|]. intros Hwho. exfalso.
    pose proof (no_draw_reachable_outcome g Hreach) as (_ & Hwinner & Hterm).
    apply Hwinner in Hwho. rewrite Hon in Hterm.
    enough (false = true) by done. apply Hterm.
    destruct (NoDrawGame.current_player g); auto.
Qed.

(** X17: in a reachable No-Draw state that is not
    over, with O to move, [get_easy_move_no_draw] on the engine's snapshot
    returns a position and [make_move] accepts it. *)
Theorem easy_no_draw_accepted (rnd : nat) (g : NoDrawGame.t) :
  NoDrawGame.reachable g → NoDrawGame.game_over g = false →
  NoDrawGame.current_player g = O →
  ∃ m g',
    Easy.get_easy_move_no_draw rnd (NoDrawGame.get_board_copy g)
      (NoDrawGame.x_moves g) (NoDrawGame.o_moves g) = Ok (Some m) ∧
    NoDrawGame.make_move g (Z.of_nat m) = Ok (true, g').
Proof.
  intros Hreach Hon Hcur. unfold NoDrawGame.get_board_copy.
  destruct (no_draw_reachable_shape g Hreach) as (Hlen & Hshape).
  destruct (Hshape O) as [Hin Hheld]. simpl in Hin, Hheld.
  destruct (no_draw_three_empty_cells g Hreach) as (_ & _ & e & He & Hn).
  unfold NoDrawGame.get_valid_moves in He.
  assert (Hrun : ∃ m,
    Easy.get_easy_move_no_draw rnd (NoDrawGame.board g)
      (NoDrawGame.x_moves g) (NoDrawGame.o_moves g) = Ok (Some m)).
  { unfold Easy.get_easy_move_no_draw. rewrite He.
    cbn [mbind result_bind rbind].
    assert (Hc : ∃ cands,
      (if decide (3 ≤ length (NoDrawGame.o_moves g))%nat
       then match NoDrawGame.o_moves g with
            | [] => IndexError
            | oldest :: _ =>
                c ← getitem (NoDrawGame.board g) oldest;
                Ok (if cell_is O c then e ++ [oldest] else e)
            end
       else Ok e) = Ok cands ∧ cands ≠ []).
    { case_decide as Hcap.
      - destruct (NoDrawGame.o_moves g) as [|oldest rest] eqn:Hm;
          [simpl in Hcap; lia|].
        rewrite (proj2 (getitem_Ok _ _ _) (Hheld oldest ltac:(left))).
        cbn [mbind result_bind rbind]. eexists. split; [done|].
        unfold cell_is. rewrite bool_decide_eq_true_2 by done.
        intros Heq. by apply app_nil in Heq as [_ [=]].
      - exists e. split; [done|]. intros ->. simpl in Hn. lia. }
    destruct Hc as (cands & -> & Hne). cbn [mbind result_bind rbind].
    destruct (random_choice_total rnd cands Hne) as (m & Hm & _).
    exists m. destruct cands; [done|]. by rewrite Hm. }
  destruct Hrun as [m Hm]. exists m.
  pose proof (easy_no_draw_choice _ _ _ _ _ Hm) as Hchoice.
  destruct (no_draw_make_move_accepts g (Z.of_nat m) Hreach) as [g' Hg'];
    [|eauto].
  apply (no_draw_valid_iff g m Hreach Hon). rewrite Hcur. simpl.
  destruct Hchoice as [?|(? & ? & _)]; auto.
Qed.

(** X18: in a reachable No-Draw state that is
    not over, with O to move, [get_medium_move_no_draw] on the engine's
    snapshot returns a position that [make_move] accepts; and when some
    accepted move would make O the winner, the returned one does. *)
Theorem medium_no_draw_accepted (rnd : nat) (g : NoDrawGame.t) :
  NoDrawGame.reachable g → NoDrawGame.game_over g = false →
  NoDrawGame.current_player g = O →
  ∃ m g',
    Medium.get_medium_move_no_draw rnd (NoDrawGame.get_board_copy g)
      (NoDrawGame.x_moves g) (NoDrawGame.o_moves g) = Ok (Some m) ∧
    NoDrawGame.make_move g (Z.of_nat m) = Ok (true, g') ∧
    ((∃ position g1, NoDrawGame.make_move g position = Ok (true, g1) ∧
                     NoDrawGame.winner g1 = Some O) →
     NoDrawGame.winner g' = Some O).
Proof.
  intros Hreach Hon Hcur. unfold NoDrawGame.get_board_copy.
  destruct (no_draw_reachable_shape g Hreach) as (Hlen & Hshape).
  destruct (Hshape O) as [HinO _], (Hshape X) as [HinX _].
  simpl in HinO, HinX.
  pose proof (λ i, no_draw_valid_iff g i Hreach Hon) as Hvalid.
  rewrite Hcur in Hvalid. simpl in Hvalid.
  destruct (find_winning_move_no_draw_spec (NoDrawGame.board g) O
              (NoDrawGame.o_moves g) Hlen HinO) as (available & Havail & HwinO).
  pose proof (λ i, available_moves_elem _ _ _ i Havail) as Helem.
  assert (Hne : available ≠ []).
  { destruct (no_draw_three_empty_cells g Hreach) as (_ & _ & e & He & Hn).
    destruct e as [|i e]; [simpl in Hn; lia|].
    assert (Hi : i ∈ i :: e) by left.
    apply (empty_cells_elem _ _ _ He) in Hi.
    intros ->. eapply elem_of_nil, Helem. by left. }
  assert (Haccept : ∀ m, m ∈ available →
            ∃ g', NoDrawGame.make_move g (Z.of_nat m) = Ok (true, g')).
  { intros m Hm. apply no_draw_make_move_accepts; [done|].
    by apply Hvalid, Helem. }
  unfold Medium.get_medium_move_no_draw. rewrite Havail.
  cbn [mbind result_bind rbind].
  destruct available as [|first rest] eqn:Hav; [done|]. rewrite <-Hav in *.
  destruct HwinO as [(pos & sb & l1 & l2 & -> & Heq & Hsb & Hw & _)|
                     [-> HnoO]]; cbn [mbind result_bind rbind].
  - assert (Hpos : pos ∈ available).
    { rewrite Heq. apply elem_of_app. right. left. }
    destruct (Haccept pos Hpos) as [g' Hg']. exists pos, g'.
    split; [done|]. split; [done|]. intros _.
    rewrite <-Hcur.
    apply (no_draw_win_by_simulation g g' (Z.of_nat pos) sb Hreach Hg').
    + by rewrite Nat2Z.id, Hcur.
    + by rewrite Hcur.
  - assert (Hnowin : ∀ m g', m ∈ available →
              NoDrawGame.make_move g (Z.of_nat m) = Ok (true, g') →
              (∃ position g1,
                 NoDrawGame.make_move g position = Ok (true, g1) ∧
                 NoDrawGame.winner g1 = Some O) →
              NoDrawGame.winner g' = Some O).
    { intros m g' _ _ (position & g1 & Hg1 & Hw1). exfalso.
      pose proof (no_draw_make_move_valid _ _ _ Hg1) as Hv.
      pose proof (no_draw_valid_range _ _ Hv) as [_ Hrange].
      assert (Hq : Z.to_nat position ∈ available).
      { apply Helem, Hvalid. by rewrite Z2Nat.id by lia. }
      destruct (HnoO _ Hq) as (sq & Hsq & Hwq).
      rewrite <-Hcur in Hw1.
      apply (no_draw_win_by_simulation g g1 position sq Hreach Hg1) in Hw1;
        [|by rewrite Hcur].
      rewrite Hcur in Hw1. congruence. }
    destruct (find_winning_move_no_draw_spec (NoDrawGame.board g) X
                (NoDrawGame.x_moves g) Hlen HinX)
      as (availx & _ & [(pos & sb & l1 & l2 & -> & _)|[-> _]]);
      cbn [mbind result_bind rbind].
    + case_bool_decide as Hin.
      * destruct (Haccept pos Hin) as [g' Hg']. exists pos, g'.
        split; [done|]. split; [done|]. by apply (Hnowin pos).
      * destruct (random_choice_total rnd available Hne) as (m & Hm & Hmin).
        destruct (Haccept m Hmin) as [g' Hg']. exists m, g'.
        rewrite Hm. split; [done|]. split; [done|]. by apply (Hnowin m).
    + destruct (random_choice_total rnd available Hne) as (m & Hm & Hmin).
      destruct (Haccept m Hmin) as [g' Hg']. exists m, g'.
      rewrite Hm. split; [done|]. split; [done|]. by apply (Hnowin m).
Qed.

(** X19: on a nine-cell board with a
    history of in-range indices [find_winning_move_no_draw] never raises;
    the position it returns is the first candidate whose simulated
    placement (oldest mark evicted at capacity, then the mark placed)
    wins, and it returns [None] only when no candidate's does. *)
Theorem find_winning_move_no_draw_first_win (b : Board) (p : player)
    (player_moves : list nat) :
  length b = 9%nat → Forall (λ i, i < 9)%nat player_moves →
  ∃ available,
    Medium.available_moves b player_moves = Ok available ∧
    ((∃ pos sb l1 l2,
        Medium.find_winning_move_no_draw b p player_moves = Ok (Some pos) ∧
        available = l1 ++ pos :: l2 ∧
        Medium._simulate_no_draw_board b p pos player_moves = Ok sb ∧
        check_winner sb p = Ok true ∧
        ∀ q, q ∈ l1 →
             ∃ sq, Medium._simulate_no_draw_board b p q player_moves = Ok sq ∧
                   check_winner sq p = Ok false) ∨
     (Medium.find_winning_move_no_draw b p player_moves = Ok None ∧
      ∀ q, q ∈ available →
           ∃ sq, Medium._simulate_no_draw_board b p q player_moves = Ok sq ∧
                 check_winner sq p = Ok false)).
Proof. apply find_winning_move_no_draw_spec. Qed.

(** ** The No-Draw search returns *)

Lemma simulate_move_total (b : Board) (p : player) (pos : nat)
    (player_moves : list nat) :
  length b = 9%nat → (pos < 9)%nat → Forall (λ i, i < 9)%nat player_moves →
  ∃ removed new_moves sb,
    HardNoDraw.simulate_move b p pos player_moves
    = Ok (removed, new_moves, sb) ∧
    length sb = 9%nat ∧ Forall (λ i, i < 9)%nat new_moves ∧
    (∀ r, removed = Some r → (r < 9)%nat).
Proof.
  intros Hlen Hpos Hmoves. unfold HardNoDraw.simulate_move.
  case_decide as Hcap.
  - destruct player_moves as [|oldest rest];
      [unfold HardNoDraw.MAX_MARKS in Hcap; simpl in Hcap; lia|].
    apply Forall_cons in Hmoves as [Hold Hrest].
    assert (Hset : setitem b oldest None = Ok (<[oldest:=None]> b))
      by (apply setitem_Ok; split; [lia|done]).
    rewrite Hset. cbn [mbind result_bind rbind].
    assert (Hset2 : setitem (<[oldest:=None]> b) pos (Some p)
                    = Ok (<[pos:=Some p]> (<[oldest:=None]> b)))
      by (apply setitem_Ok; split; [rewrite length_insert; lia|done]).
    rewrite Hset2. cbn [mbind result_bind rbind].
    eexists _, _, _. split; [done|]. rewrite !length_insert.
    split; [done|]. split.
    + apply Forall_app. split; [done|]. by apply Forall_singleton.
    + by intros r [= <-].
  - cbn [mbind result_bind rbind].
    assert (Hset : setitem b pos (Some p) = Ok (<[pos:=Some p]> b))
      by (apply setitem_Ok; split; [lia|done]).
    rewrite Hset. cbn [mbind result_bind rbind].
    eexists _, _, _. split; [done|]. rewrite length_insert.
    split; [done|]. split; [|done].
    apply Forall_app. split; [done|]. by apply Forall_singleton.
Qed.

Lemma undo_move_total (b : Board) (p : player) (pos : nat)
    (removed : option nat) :
  length b = 9%nat → (pos < 9)%nat →
  (∀ r, removed = Some r → (r < 9)%nat) →
  ∃ b', HardNoDraw.undo_move b p pos removed = Ok b' ∧ length b' = 9%nat.
Proof.
  intros Hlen Hpos Hrem. unfold HardNoDraw.undo_move.
  assert (Hset : setitem b pos None = Ok (<[pos:=None]> b))
    by (apply setitem_Ok; split; [lia|done]).
  rewrite Hset. cbn [mbind result_bind rbind].
  destruct removed as [r|].
  - eexists. split; [apply setitem_Ok; split; [|done]|].
    + rewrite length_insert. specialize (Hrem r eq_refl). lia.
    + by rewrite !length_insert.
  - eexists. split; [done|]. by rewrite length_insert.
Qed.

Lemma hard_available_in_range (b : Board) (p : player)
    (player_moves l : list nat) :
  Forall (λ i, i < 9)%nat player_moves →
  HardNoDraw._get_available_moves_no_draw b p player_moves = Ok l →
  Forall (λ i, i < 9)%nat l.
Proof.
  intros Hmoves Hl. apply Forall_forall. intros i Hi.
  apply (hard_available_elem _ _ _ _ i Hl) in Hi as [[? _]|[_ Hhead]];
    [done|].
  apply head_Some_elem_of in Hhead.
  by apply (proj1 (Forall_forall _ _) Hmoves) in Hhead.
Qed.

Lemma mapM_getitem_total {A} (l : list A) (idx : list nat) :
  Forall (λ i, i < length l)%nat idx → ∃ vs, mapM (getitem l) idx = Ok vs.
Proof.
  induction 1 as [|i idx Hi _ [vs IH]]; simpl; [eauto|].
  destruct (getitem_total l i Hi) as [a ->]. cbn [mbind result_bind rbind].
  rewrite IH. cbn [mbind result_bind rbind]. eauto.
Qed.

Lemma heuristic_loop_total (combos : list (nat * nat * nat)) (b : Board)
    (o_score x_score : Z) :
  (9 ≤ length b)%nat → combos ⊆ WINNING_COMBINATIONS →
  ∃ h, HardNoDraw.heuristic_loop combos b o_score x_score = Ok h.
Proof.
  intros Hlen. revert o_score x_score.
  induction combos as [|combo rest IH]; intros o_score x_score Hsub; simpl;
    [eauto|].
  destruct (mapM_getitem_total b (combo_cells combo)) as [vals ->].
  { apply Forall_forall. intros i Hi.
    assert (Hc : combo ∈ WINNING_COMBINATIONS) by (apply Hsub; left).
    pose proof (combo_cells_in_range combo i Hc Hi). lia. }
  cbn [mbind result_bind rbind]. apply IH.
  intros c Hc. apply Hsub. by right.
Qed.

Lemma heuristic_score_total (b : Board) :
  (9 ≤ length b)%nat → ∃ h, HardNoDraw._heuristic_score b = Ok h.
Proof. intros Hlen. by apply heuristic_loop_total. Qed.

Section loops_return.
Variable rec : Board → list nat → score → score → HardNoDraw.tp_table →
               result (score * Board * HardNoDraw.tp_table).
Variable depth : Z.
Hypothesis rec_returns : ∀ b new_moves alpha beta tp,
  length b = 9%nat → Forall (λ i, i < 9)%nat new_moves →
  returns_board (rec b new_moves alpha beta tp).

Lemma max_loop_returns (o_moves available : list nat) (best alpha beta : score)
    (b : Board) (tp : HardNoDraw.tp_table) :
  length b = 9%nat → Forall (λ i, i < 9)%nat o_moves →
  Forall (λ i, i < 9)%nat available →
  returns_board
    (HardNoDraw.max_loop rec depth o_moves available best alpha beta b tp).
Proof.
  intros Hlen Hmoves Havail. revert best alpha b tp Hlen.
  induction Havail as [|pos rest Hpos _ IH]; intros best alpha b tp Hlen;
    cbn [HardNoDraw.max_loop]; [by eexists _, _, _|].
  destruct (simulate_move_total b O pos o_moves Hlen Hpos Hmoves)
    as (removed & new_moves & sb & -> & Hsb & Hnew & Hrem).
  cbn [mbind result_bind rbind].
  destruct (check_winner_total sb O) as [won ->]; [lia|].
  cbn [mbind result_bind rbind].
  assert (Hscore : returns_board
            (if won then Ok (Fin (10 - depth), sb, tp)
             else rec sb new_moves alpha beta tp)).
  { destruct won; [by eexists _, _, _|by apply rec_returns]. }
  destruct Hscore as (s & b1 & tp1 & -> & Hb1).
  cbn [mbind result_bind rbind].
  destruct (undo_move_total b1 O pos removed Hb1 Hpos Hrem) as (b2 & -> & Hb2).
  cbn [mbind result_bind rbind].
  destruct (score_leb beta _); [by eexists _, _, _|]. by apply IH.
Qed.

Lemma min_loop_returns (x_moves available : list nat) (best alpha beta : score)
    (b : Board) (tp : HardNoDraw.tp_table) :
  length b = 9%nat → Forall (λ i, i < 9)%nat x_moves →
  Forall (λ i, i < 9)%nat available →
  returns_board
    (HardNoDraw.min_loop rec depth x_moves available best alpha beta b tp).
Proof.
  intros Hlen Hmoves Havail. revert best beta b tp Hlen.
  induction Havail as [|pos rest Hpos _ IH]; intros best beta b tp Hlen;
    cbn [HardNoDraw.min_loop]; [by eexists _, _, _|].
  destruct (simulate_move_total b X pos x_moves Hlen Hpos Hmoves)
    as (removed & new_moves & sb & -> & Hsb & Hnew & Hrem).
  cbn [mbind result_bind rbind].
  destruct (check_winner_total sb X) as [won ->]; [lia|].
  cbn [mbind result_bind rbind].
  assert (Hscore : returns_board
            (if won then Ok (Fin (depth - 10), sb, tp)
             else rec sb new_moves alpha beta tp)).
  { destruct won; [by eexists _, _, _|by apply rec_returns]. }
  destruct Hscore as (s & b1 & tp1 & -> & Hb1).
  cbn [mbind result_bind rbind].
  destruct (undo_move_total b1 X pos removed Hb1 Hpos Hrem) as (b2 & -> & Hb2).
  cbn [mbind result_bind rbind].
  destruct (score_leb _ alpha); [by eexists _, _, _|]. by apply IH.
Qed.
End loops_return.

Lemma minimax_no_draw_returns (fuel : nat) (b : Board) (depth : Z)
    (is_maximizing : bool) (x_moves o_moves : list nat) (max_depth : Z)
    (alpha beta : score) (tp : HardNoDraw.tp_table) :
  (Z.to_nat (max_depth - depth) < fuel)%nat →
  length b = 9%nat →
  Forall (λ i, i < 9)%nat x_moves → Forall (λ i, i < 9)%nat o_moves →
  returns_board
    (HardNoDraw.minimax_no_draw fuel b depth is_maximizing x_moves o_moves
       max_depth alpha beta tp).
Proof.
  revert b depth is_maximizing x_moves o_moves alpha beta tp.
  induction fuel as [|fuel IH];
    intros b depth is_maximizing x_moves o_moves alpha beta tp Hfuel Hlen Hx Ho;
    [lia|].
  cbn [HardNoDraw.minimax_no_draw].
  destruct (check_winner_total b O) as [wo ->]; [lia|].
  cbn [mbind result_bind rbind]. destruct wo; [by eexists _, _, _|].
  destruct (check_winner_total b X) as [wx ->]; [lia|].
  cbn [mbind result_bind rbind]. destruct wx; [by eexists _, _, _|].
  destruct (heuristic_score_total b) as [h Hh]; [lia|].
  destruct (Z.leb_spec max_depth depth) as [|Hdepth].
  { rewrite Hh. by eexists _, _, _. }
  destruct (tp !! _); [by eexists _, _, _|].
  destruct is_maximizing.
  - destruct (hard_available_total b O o_moves) as [available Havail]; [lia|].
    rewrite Havail. cbn [mbind result_bind rbind].
    pose proof (hard_available_in_range _ _ _ _ Ho Havail) as Hrange.
    destruct available as [|first rest] eqn:Hav;
      [rewrite Hh; by eexists _, _, _|]. rewrite <-Hav in *.
    destruct (max_loop_returns
                (λ b0 new_moves alpha0 beta0 tp0,
                   HardNoDraw.minimax_no_draw fuel b0 (depth + 1) false x_moves
                     new_moves max_depth alpha0 beta0 tp0)
                depth) with (o_moves := o_moves) (available := available)
                            (best := NegInf) (alpha := alpha) (beta := beta)
                            (b := b) (tp := tp)
      as (s & b' & tp' & Hloop & Hb'); try done.
    { intros. apply IH; try done. lia. }
    rewrite Hloop. cbn [mbind result_bind rbind].
    by eexists _, _, _.
  - destruct (hard_available_total b X x_moves) as [available Havail]; [lia|].
    rewrite Havail. cbn [mbind result_bind rbind].
    pose proof (hard_available_in_range _ _ _ _ Hx Havail) as Hrange.
    destruct available as [|first rest] eqn:Hav;
      [rewrite Hh; by eexists _, _, _|]. rewrite <-Hav in *.
    destruct (min_loop_returns
                (λ b0 new_moves alpha0 beta0 tp0,
                   HardNoDraw.minimax_no_draw fuel b0 (depth + 1) true new_moves
                     o_moves max_depth alpha0 beta0 tp0)
                depth) with (x_moves := x_moves) (available := available)
                            (best := PosInf) (alpha := alpha) (beta := beta)
                            (b := b) (tp := tp)
      as (s & b' & tp' & Hloop & Hb'); try done.
    { intros. apply IH; try done. lia. }
    rewrite Hloop. cbn [mbind result_bind rbind].
    by eexists _, _, _.
Qed.

Lemma fast_path_returns (available : list nat) (b : Board)
    (o_moves : list nat) :
  length b = 9%nat → Forall (λ i, i < 9)%nat o_moves →
  Forall (λ i, i < 9)%nat available →
  ∃ r b', HardNoDraw.fast_path available b o_moves = Ok (r, b') ∧
          length b' = 9%nat ∧ ∀ m, r = Some m → m ∈ available.
Proof.
  intros Hlen Hmoves Havail. revert b Hlen.
  induction Havail as [|pos rest Hpos _ IH]; intros b Hlen;
    cbn [HardNoDraw.fast_path]; [by eexists _, _|].
  destruct (simulate_move_total b O pos o_moves Hlen Hpos Hmoves)
    as (removed & new_moves & sb & -> & Hsb & Hnew & Hrem).
  cbn [mbind result_bind rbind].
  destruct (check_winner_total sb O) as [won ->]; [lia|].
  cbn [mbind result_bind rbind].
  destruct (undo_move_total sb O pos removed Hsb Hpos Hrem) as (b2 & -> & Hb2).
  cbn [mbind result_bind rbind]. destruct won.
  - eexists _, _. split; [done|]. split; [done|]. intros m [= <-]. left.
  - destruct (IH b2 Hb2) as (r & b' & -> & Hb' & Hr).
    eexists _, _. split; [done|]. split; [done|].
    intros m Hm. right. by apply Hr.
Qed.

Lemma top_loop_returns (fuel : nat) (x_moves o_moves : list nat)
    (max_depth : Z) (available : list nat) (best_score : score)
    (best_move : nat) (alpha beta : score) (b : Board)
    (tp : HardNoDraw.tp_table) :
  (Z.to_nat max_depth < fuel)%nat → length b = 9%nat →
  Forall (λ i, i < 9)%nat x_moves → Forall (λ i, i < 9)%nat o_moves →
  Forall (λ i, i < 9)%nat available →
  ∃ b' tp',
    HardNoDraw.top_loop fuel x_moves o_moves max_depth available best_score
      best_move alpha beta b tp = Ok (best_move, b', tp') ∧
    length b' = 9%nat.
Proof.
  intros Hfuel Hlen Hx Ho Havail. revert alpha b tp Hlen.
  induction Havail as [|pos rest Hpos _ IH]; intros alpha b tp Hlen;
    cbn [HardNoDraw.top_loop]; [by eexists _, _|].
  destruct (simulate_move_total b O pos o_moves Hlen Hpos Ho)
    as (removed & new_moves & sb & -> & Hsb & Hnew & Hrem).
  cbn [mbind result_bind rbind].
  destruct (check_winner_total sb O) as [won ->]; [lia|].
  cbn [mbind result_bind rbind].
  assert (Hscore : returns_board
            (if won then Ok (Fin 10, sb, tp)
             else HardNoDraw.minimax_no_draw fuel sb 0 false x_moves new_moves
                    max_depth alpha beta tp)).
  { destruct won; [by eexists _, _, _|].
    apply minimax_no_draw_returns; try done. by rewrite Z.sub_0_r. }
  destruct Hscore as (s & b1 & tp1 & -> & Hb1).
  cbn [mbind result_bind rbind]. by apply IH.
Qed.

Lemma get_hard_move_no_draw_returns (b : Board) (x_moves o_moves : list nat) :
  length b = 9%nat →
  Forall (λ i, i < 9)%nat x_moves → Forall (λ i, i < 9)%nat o_moves →
  ∃ available r b' tp,
    HardNoDraw._get_available_moves_no_draw b O o_moves = Ok available ∧
    HardNoDraw.get_hard_move_no_draw b x_moves o_moves = Ok (r, b', tp) ∧
    length b' = 9%nat ∧
    match r with
    | None => available = []
    | Some m => m ∈ available
    end.
Proof.
  intros Hlen Hx Ho.
  destruct (hard_available_total b O o_moves) as [available Havail]; [lia|].
  pose proof (hard_available_in_range _ _ _ _ Ho Havail) as Hrange.
  exists available. unfold HardNoDraw.get_hard_move_no_draw.
  rewrite Havail. cbn [mbind result_bind rbind].
  destruct available as [|first rest] eqn:Hav; [by eexists _, _, _|].
  rewrite <-Hav in *.
  destruct (fast_path_returns available b o_moves Hlen Ho Hrange)
    as (r & b1 & -> & Hb1 & Hr).
  cbn [mbind result_bind rbind]. destruct r as [pos|].
  - eexists _, _, _. split; [done|]. split; [done|]. split; [done|].
    by apply Hr.
  - destruct (top_loop_returns
                (HardNoDraw.search_fuel (HardNoDraw._get_dynamic_depth b1))
                x_moves o_moves (HardNoDraw._get_dynamic_depth b1) available
                NegInf first NegInf PosInf b1 ∅) as (b2 & tp2 & -> & Hb2);
      try done.
    { unfold HardNoDraw.search_fuel. lia. }
    cbn [mbind result_bind rbind].
    eexists _, _, _. split; [done|]. split; [done|]. split; [done|].
    rewrite Hav. left.
Qed.

(** ** The fast path *)

Lemma restore_board (b : Board) (pos oldest : nat) :
  b !! oldest = Some (Some O) → b !! pos = Some None ∨ pos = oldest →
  <[oldest:=Some O]> (<[pos:=None]> (<[pos:=Some O]> (<[oldest:=None]> b)))
  = b.
Proof.
  intros Hold Hpos. rewrite list_insert_insert_eq.
  destruct (decide (pos = oldest)) as [->|Hne].
  - rewrite !list_insert_insert_eq. by apply list_insert_id.
  - destruct Hpos as [Hpos|?]; [|done].
    rewrite (list_insert_insert_ne _ pos oldest) by done.
    rewrite (list_insert_id b pos None Hpos).
    rewrite list_insert_insert_eq. by apply list_insert_id.
Qed.

Lemma simulate_undo_restores (b : Board) (pos : nat) (o_moves : list nat) :
  ((3 ≤ length o_moves)%nat →
   ∃ oldest, head o_moves = Some oldest ∧ b !! oldest = Some (Some O)) →
  b !! pos = Some None ∨
  ((3 ≤ length o_moves)%nat ∧ head o_moves = Some pos) →
  ∃ removed new_moves sb,
    HardNoDraw.simulate_move b O pos o_moves = Ok (removed, new_moves, sb) ∧
    HardNoDraw.undo_move sb O pos removed = Ok b ∧
    Medium._simulate_no_draw_board b O pos o_moves = Ok sb.
Proof.
  intros Hcons Hcand.
  unfold HardNoDraw.simulate_move, Medium._simulate_no_draw_board,
    HardNoDraw.undo_move, HardNoDraw.MAX_MARKS.
  case_decide as Hcap.
  - destruct (Hcons Hcap) as (oldest & Hhead & Hold).
    destruct o_moves as [|o rest]; [done|]. simpl in Hhead. simplify_eq.
    pose proof (lookup_lt_Some _ _ _ Hold) as Holdlt.
    assert (Hset : setitem b oldest None = Ok (<[oldest:=None]> b))
      by (by apply setitem_Ok).
    rewrite Hset. cbn [mbind result_bind rbind].
    assert (Hposlt : (pos < length b)%nat).
    { destruct Hcand as [Hc|[_ [= <-]]]; [by eapply lookup_lt_Some|done]. }
    assert (Hset2 : setitem (<[oldest:=None]> b) pos (Some O)
                    = Ok (<[pos:=Some O]> (<[oldest:=None]> b)))
      by (apply setitem_Ok; by rewrite length_insert).
    rewrite Hset2. cbn [mbind result_bind rbind].
    eexists _, _, _. split; [done|]. split; [|done].
    assert (Hset3 : setitem (<[pos:=Some O]> (<[oldest:=None]> b)) pos None
                    = Ok (<[pos:=None]> (<[pos:=Some O]> (<[oldest:=None]> b))))
      by (apply setitem_Ok; by rewrite !length_insert).
    rewrite Hset3. cbn [mbind result_bind rbind].
    apply setitem_Ok. rewrite !length_insert. split; [done|].
    symmetry. apply restore_board; [done|].
    destruct Hcand as [Hc|[_ [= <-]]]; auto.
  - destruct Hcand as [Hc|[? _]]; [|lia]. cbn [mbind result_bind rbind].
    destruct (place_undo b pos O Hc) as [-> Hundo].
    cbn [mbind result_bind rbind]. eexists _, _, _. split; [done|].
    rewrite Hundo. cbn [mbind result_bind rbind]. done.
Qed.

Lemma fast_path_spec (available : list nat) (b : Board) (o_moves : list nat) :
  (9 ≤ length b)%nat →
  ((3 ≤ length o_moves)%nat →
   ∃ oldest, head o_moves = Some oldest ∧ b !! oldest = Some (Some O)) →
  (∀ pos, pos ∈ available →
     b !! pos = Some None ∨
     ((3 ≤ length o_moves)%nat ∧ head o_moves = Some pos)) →
  (∃ pos sb l1 l2,
     HardNoDraw.fast_path available b o_moves = Ok (Some pos, b) ∧
     available = l1 ++ pos :: l2 ∧
     Medium._simulate_no_draw_board b O pos o_moves = Ok sb ∧
     check_winner sb O = Ok true ∧
     ∀ q, q ∈ l1 →
          ∃ sq, Medium._simulate_no_draw_board b O q o_moves = Ok sq ∧
                check_winner sq O = Ok false) ∨
  (HardNoDraw.fast_path available b o_moves = Ok (None, b) ∧
   ∀ q, q ∈ available →
        ∃ sq, Medium._simulate_no_draw_board b O q o_moves = Ok sq ∧
              check_winner sq O = Ok false).
Proof.
  intros Hlen Hcons. induction available as [|pos rest IH]; intros Hcand.
  { right. split; [done|]. intros q Hq. by apply elem_of_nil in Hq. }
  cbn [HardNoDraw.fast_path].
  destruct (simulate_undo_restores b pos o_moves Hcons)
    as (removed & new_moves & sb & -> & Hundo & Hsb); [apply Hcand; left|].
  cbn [mbind result_bind rbind].
  assert (Hsblen : (9 ≤ length sb)%nat).
  { unfold Medium._simulate_no_draw_board in Hsb.
    apply bind_Ok in Hsb as (b1 & Hb1 & Hsb).
    apply setitem_Ok in Hsb as [_ ->]. rewrite length_insert.
    case_decide; [|by simplify_eq].
    destruct o_moves; [done|]. apply setitem_Ok in Hb1 as [_ ->].
    by rewrite length_insert. }
  destruct (check_winner_total sb O Hsblen) as [won Hwon]. rewrite Hwon.
  cbn [mbind result_bind rbind]. rewrite Hundo.
  cbn [mbind result_bind rbind]. destruct won.
  - left. exists pos, sb, [], rest. repeat split; try done.
    intros q Hq. by apply elem_of_nil in Hq.
  - destruct IH as [(pos' & sb' & l1 & l2 & -> & -> & Hs' & Hw' & Hl1)|
                    [-> Hnone]].
    { intros q Hq. apply Hcand. by right. }
    + left. exists pos', sb', (pos :: l1), l2. repeat split; try done.
      intros q [->|Hq]%elem_of_cons; eauto.
    + right. split; [done|]. intros q [->|Hq]%elem_of_cons; eauto.
Qed.

Lemma hard_no_draw_first_win (b : Board) (x_moves o_moves : list nat) :
  (9 ≤ length b)%nat →
  ((3 ≤ length o_moves)%nat →
   ∃ oldest, head o_moves = Some oldest ∧ b !! oldest = Some (Some O)) →
  ∃ available,
    HardNoDraw._get_available_moves_no_draw b O o_moves = Ok available ∧
    ((∃ pos sb l1 l2,
        HardNoDraw.get_hard_move_no_draw b x_moves o_moves
        = Ok (Some pos, b, ∅) ∧
        available = l1 ++ pos :: l2 ∧
        Medium._simulate_no_draw_board b O pos o_moves = Ok sb ∧
        check_winner sb O = Ok true ∧
        ∀ q, q ∈ l1 →
             ∃ sq, Medium._simulate_no_draw_board b O q o_moves = Ok sq ∧
                   check_winner sq O = Ok false) ∨
     (∀ q, q ∈ available →
           ∃ sq, Medium._simulate_no_draw_board b O q o_moves = Ok sq ∧
                 check_winner sq O = Ok false)).
Proof.
  intros Hlen Hcons.
  destruct (hard_available_total b O o_moves Hlen) as [available Havail].
  exists available. split; [done|].
  destruct (fast_path_spec available b o_moves Hlen Hcons)
    as [(pos & sb & l1 & l2 & Hfast & Heq & Hsb & Hw & Hl1)|[_ Hnone]].
  { intros pos Hpos.
    apply (hard_available_elem _ _ _ _ pos Havail) in Hpos as [[_ ?]|?]; auto. }
  - left. exists pos, sb, l1, l2. split; [|done].
    unfold HardNoDraw.get_hard_move_no_draw. rewrite Havail.
    cbn [mbind result_bind rbind].
    destruct available; [by destruct l1|].
    rewrite Hfast. done.
  - by right.
Qed.

(** X20: on a nine-cell board with
    histories of in-range indices [get_hard_move_no_draw] never raises;
    it answers [None] only when the candidate list is empty, and a
    position it answers is one of the candidates. *)
Theorem hard_no_draw_returns_candidate (b : Board)
    (x_moves o_moves : list nat) :
  length b = 9%nat →
  Forall (λ i, i < 9)%nat x_moves → Forall (λ i, i < 9)%nat o_moves →
  ∃ available r b' tp,
    HardNoDraw._get_available_moves_no_draw b O o_moves = Ok available ∧
    HardNoDraw.get_hard_move_no_draw b x_moves o_moves = Ok (r, b', tp) ∧
    length b' = 9%nat ∧
    match r with
    | None => available = []
    | Some m => m ∈ available
    end.
Proof. apply get_hard_move_no_draw_returns. Qed.

(** X21: when O's oldest mark is still
    on the board (for a history at capacity) and some candidate's
    simulated placement wins, [get_hard_move_no_draw] returns the first
    such candidate of the ordered list, with the board restored and the
    transposition table empty. *)
Theorem hard_no_draw_fast_path_first_win (b : Board)
    (x_moves o_moves : list nat) :
  (9 ≤ length b)%nat →
  ((3 ≤ length o_moves)%nat →
   ∃ oldest, head o_moves = Some oldest ∧ b !! oldest = Some (Some O)) →
  ∃ available,
    HardNoDraw._get_available_moves_no_draw b O o_moves = Ok available ∧
    ((∃ pos sb l1 l2,
        HardNoDraw.get_hard_move_no_draw b x_moves o_moves
        = Ok (Some pos, b, ∅) ∧
        available = l1 ++ pos :: l2 ∧
        Medium._simulate_no_draw_board b O pos o_moves = Ok sb ∧
        check_winner sb O = Ok true ∧
        ∀ q, q ∈ l1 →
             ∃ sq, Medium._simulate_no_draw_board b O q o_moves = Ok sq ∧
                   check_winner sq O = Ok false) ∨
     (∀ q, q ∈ available →
           ∃ sq, Medium._simulate_no_draw_board b O q o_moves = Ok sq ∧
                 check_winner sq O = Ok false)).
Proof. apply hard_no_draw_first_win. Qed.

(** X22: in a reachable No-Draw state that is not
    over, with O to move, [get_hard_move_no_draw] on the engine's snapshot
    returns a position that [make_move] accepts; and when some accepted
    move would make O the winner, the returned one does, the board handed
    in is unchanged and the transposition table is empty. *)
Theorem hard_no_draw_accepted (g : NoDrawGame.t) :
  NoDrawGame.reachable g → NoDrawGame.game_over g = false →
  NoDrawGame.current_player g = O →
  ∃ m b' tp g',
    HardNoDraw.get_hard_move_no_draw (NoDrawGame.get_board_copy g)
      (NoDrawGame.x_moves g) (NoDrawGame.o_moves g) = Ok (Some m, b', tp) ∧
    NoDrawGame.make_move g (Z.of_nat m) = Ok (true, g') ∧
    ((∃ position g1, NoDrawGame.make_move g position = Ok (true, g1) ∧
                     NoDrawGame.winner g1 = Some O) →
     NoDrawGame.winner g' = Some O ∧ b' = NoDrawGame.board g ∧ tp = ∅).
Proof.
  intros Hreach Hon Hcur. unfold NoDrawGame.get_board_copy.
  destruct (no_draw_reachable_shape g Hreach) as (Hlen & Hshape).
  destruct (Hshape O) as [HinO HheldO], (Hshape X) as [HinX _].
  simpl in HinO, HinX, HheldO.
  destruct (no_draw_candidates_spec g Hreach Hon) as (l & Hl & Hne & Hacc).
  rewrite Hcur in Hl. simpl in Hl.
  destruct (get_hard_move_no_draw_returns (NoDrawGame.board g)
              (NoDrawGame.x_moves g) (NoDrawGame.o_moves g) Hlen HinX HinO)
    as (available & r & b' & tp & Havail & Hrun & _ & Hr).
  rewrite Hl in Havail. simplify_eq.
  destruct r as [m|]; [|done].
  destruct (proj2 (Hacc (Z.of_nat m))) as [g' Hg']; [eauto|].
  exists m, b', tp, g'. split; [done|]. split; [done|].
  intros (position & g1 & Hg1 & Hw1).
  destruct (hard_no_draw_first_win (NoDrawGame.board g) (NoDrawGame.x_moves g)
              (NoDrawGame.o_moves g)) as (l' & Hl' & Hwin); [lia| |].
  { intros Hcap. destruct (NoDrawGame.o_moves g) as [|oldest rest] eqn:Hm;
      [simpl in Hcap; lia|].
    exists oldest. split; [done|]. apply HheldO. left. }
  rewrite Hl in Hl'. simplify_eq.
  destruct Hwin as [(pos & sb & l1 & l2 & Hrun' & _ & Hsb & Hw & _)|Hnone].
  - rewrite Hrun in Hrun'. simplify_eq. split; [|done].
    rewrite <-Hcur.
    apply (no_draw_win_by_simulation g g' (Z.of_nat pos) sb Hreach Hg').
    + by rewrite Nat2Z.id, Hcur.
    + by rewrite Hcur.
  - exfalso.
    destruct (proj1 (Hacc position)) as (i & Hi & ->); [eauto|].
    destruct (Hnone i Hi) as (sq & Hsq & Hwq).
    rewrite <-Hcur in Hw1.
    apply (no_draw_win_by_simulation g g1 (Z.of_nat i) sq Hreach Hg1) in Hw1.
    + rewrite Hcur in Hw1. congruence.
    + by rewrite Nat2Z.id, Hcur.
Qed.

(** ** The oldest mark *)

(** X23: in a reachable No-Draw state
    [get_oldest_mark(p)] is [None] while [p]'s history has fewer than
    three entries; otherwise it is the front of the history, that cell
    holds [p]'s mark, and on [p]'s turn in a running game [make_move]
    accepts it, rotating the history. *)
Theorem oldest_mark_spec (g : NoDrawGame.t) (p : player) :
  NoDrawGame.reachable g →
  match NoDrawGame.get_oldest_mark g p with
  | None => (length (NoDrawGame._get_player_moves g p) < 3)%nat
  | Some i =>
      length (NoDrawGame._get_player_moves g p) = 3%nat ∧
      head (NoDrawGame._get_player_moves g p) = Some i ∧
      NoDrawGame.board g !! i = Some (Some p) ∧
      (NoDrawGame.game_over g = false → NoDrawGame.current_player g = p →
       ∃ g', NoDrawGame.make_move g (Z.of_nat i) = Ok (true, g') ∧
             NoDrawGame._get_player_moves g' p
             = tail (NoDrawGame._get_player_moves g p) ++ [i])
  end.
Proof.
  intros Hreach.
  assert (Hmarks : marks_ok g p).
  { destruct (no_draw_reachable_invariant g Hreach) as (? & ? & _).
    by destruct p. }
  destruct Hmarks as (_ & Hheld & _ & Hle).
  unfold NoDrawGame.get_oldest_mark, NoDrawGame.MAX_MARKS.
  case_decide as Hcap; [|lia].
  destruct (NoDrawGame._get_player_moves g p) as [|oldest rest] eqn:Hm;
    [simpl in Hcap; lia|].
  simpl. split; [simpl in *; lia|]. split; [done|].
  split; [apply Hheld; left|]. intros Hon Hcur.
  destruct (no_draw_make_move_accepts g (Z.of_nat oldest) Hreach) as [g' Hg'].
  { apply (no_draw_valid_iff g oldest Hreach Hon). right.
    rewrite Hcur, Hm. split; [done|done]. }
  exists g'. split; [done|].
  apply no_draw_make_move_true in Hg'
    as (_ & _ & _ & (b1 & moves1 & Hevict & _ & Hnew) & _).
  rewrite Hcur in Hevict, Hnew. rewrite Hm in Hevict.
  rewrite Nat2Z.id in Hnew.
  destruct Hevict as [(Hlt & _)|(o & [= <- <-] & _)];
    [simpl in Hlt, Hcap; lia|].
  done.
Qed.

(** ** The heuristic treats the players alike *)

Lemma count_cells_swap (p : player) (vals : list cell) :
  count_cells (Some (other_player p)) (swap_cell <$> vals)
  = count_cells (Some p) vals.
Proof.
  unfold count_cells.
  destruct p; simpl; (induction vals as [|c vals IH]; [done|]);
    rewrite fmap_cons, !filter_cons;
    destruct c as [[]|]; simpl; repeat case_decide;
    simplify_eq; simpl; congruence.
Qed.

Lemma mapM_getitem_swap (b : Board) (idx : list nat) :
  mapM (M:=result) (getitem (swap_marks b)) idx
  = match mapM (M:=result) (getitem b) idx with
    | Ok vals => Ok (swap_cell <$> vals : list cell)
    | IndexError => IndexError
    | OutOfFuel => OutOfFuel
    end.
Proof.
  induction idx as [|i idx IH]; [done|].
  cbn [mapM]. rewrite IH.
  assert (Hget : getitem (swap_marks b) i
                 = match getitem b i with
                   | Ok c => Ok (swap_cell c)
                   | IndexError => IndexError
                   | OutOfFuel => OutOfFuel
                   end).
  { unfold getitem, swap_marks. rewrite list_lookup_fmap.
    by destruct (b !! i). }
  rewrite Hget. destruct (getitem b i); [|done|done].
  cbn [mbind result_bind rbind].
  by destruct (mapM (getitem b) idx).
Qed.

Lemma heuristic_loop_swap (combos : list (nat * nat * nat)) (b : Board)
    (o_score x_score : Z) :
  HardNoDraw.heuristic_loop combos (swap_marks b) x_score o_score
  = negated (HardNoDraw.heuristic_loop combos b o_score x_score).
Proof.
  revert o_score x_score.
  induction combos as [|combo rest IH]; intros o_score x_score; simpl.
  - f_equal. lia.
  - rewrite mapM_getitem_swap.
    destruct (mapM (getitem b) (combo_cells combo)) as [vals| |]; simpl;
      [|done|done].
    pose proof (count_cells_swap X vals) as HX.
    pose proof (count_cells_swap O vals) as HO.
    change (other_player X) with O in HX.
    change (other_player O) with X in HO.
    rewrite HX, HO. apply IH.
Qed.

(** X24: exchanging the two players' marks on the board negates
    [_heuristic_score] (and leaves a raised [IndexError] as it is). *)
Theorem heuristic_score_antisymmetric (b : Board) :
  HardNoDraw._heuristic_score (swap_marks b)
  = negated (HardNoDraw._heuristic_score b).
Proof. apply heuristic_loop_swap. Qed.

(** ** Instances on the sample positions *)

Lemma playout_sample_reachable : TicTacToeGame.reachable playout_sample.
Proof.
  apply (standard_play_reachable TicTacToeGame.reset _ [0; 4; 1; 2; 3; 6]).
  - apply TicTacToeGame.reachable_reset.
  - reflexivity.
Qed.

Lemma check_winner_decides_lines_witness :
  (check_winner fast_path_board X = Ok true ∧ has_line fast_path_board X) ∨
  (check_winner fast_path_board X = Ok false ∧ ¬ has_line fast_path_board X).
Proof.
  apply (check_winner_decides_lines fast_path_board X). simpl. lia.
Defined.

Lemma standard_game_outcome_witness :
  TicTacToeGame.winner playout_sample = Some O ↔
  check_winner (TicTacToeGame.board playout_sample) O = Ok true.
Proof.
  apply (standard_game_outcome playout_sample playout_sample_reachable).
Defined.

Lemma standard_game_at_most_nine_moves_witness :
  (count_cells (Some X) (TicTacToeGame.board playout_sample)
   + count_cells (Some O) (TicTacToeGame.board playout_sample)
   = length [0; 4; 1; 2; 3; 6])%nat ∧
  (length [0; 4; 1; 2; 3; 6] ≤ 9)%nat.
Proof.
  apply (standard_game_at_most_nine_moves [0; 4; 1; 2; 3; 6] playout_sample).
  reflexivity.
Defined.

Lemma standard_winning_combination_witness :
  ∃ combo,
    TicTacToeGame.get_winning_combination playout_sample = Ok (Some combo) ∧
    combo ∈ WINNING_COMBINATIONS ∧
    holds_line (TicTacToeGame.board playout_sample) O combo.
Proof.
  apply (standard_winning_combination playout_sample playout_sample_reachable).
Defined.

Lemma no_draw_game_outcome_witness :
  length (NoDrawGame.board no_draw_sample) = 9%nat ∧
  (NoDrawGame.game_over no_draw_sample = true ↔
   check_winner (NoDrawGame.board no_draw_sample) X = Ok true ∨
   check_winner (NoDrawGame.board no_draw_sample) O = Ok true).
Proof.
  destruct (no_draw_game_outcome no_draw_sample no_draw_sample_reachable)
    as (Hlen & _ & Hover & _).
  split; [exact Hlen|exact Hover].
Defined.

Lemma no_draw_board_never_full_witness :
  (3 ≤ count_cells None (NoDrawGame.board no_draw_sample))%nat ∧
  is_board_full (NoDrawGame.board no_draw_sample) = false ∧
  ∃ l, NoDrawGame.get_valid_moves no_draw_sample = Ok l ∧ (3 ≤ length l)%nat.
Proof.
  apply (no_draw_board_never_full no_draw_sample no_draw_sample_reachable).
Defined.

Lemma no_draw_candidates_are_the_accepted_moves_witness :
  ∃ l,
    HardNoDraw._get_available_moves_no_draw (NoDrawGame.board no_draw_sample) X
      (NoDrawGame.x_moves no_draw_sample) = Ok l ∧
    l ≠ [] ∧
    ∀ position,
      (∃ g', NoDrawGame.make_move no_draw_sample position = Ok (true, g')) ↔
      (∃ i, i ∈ l ∧ position = Z.of_nat i).
Proof.
  apply (no_draw_candidates_are_the_accepted_moves no_draw_sample
           no_draw_sample_reachable).
  reflexivity.
Defined.

Lemma find_winning_move_finds_the_win_witness :
  (∃ m, Medium.find_winning_move block_board X = Ok (Some m) ∧
        (m < 9)%nat ∧ block_board !! m = Some None ∧
        check_winner (<[m:=Some X]> block_board) X = Ok true) ∨
  (Medium.find_winning_move block_board X = Ok None ∧
   (check_winner block_board X = Ok false →
    ∀ i, block_board !! i = Some None →
         check_winner (<[i:=Some X]> block_board) X = Ok false)).
Proof.
  apply (find_winning_move_finds_the_win block_board X). simpl. lia.
Defined.

Lemma easy_move_is_any_empty_cell_witness :
  ∃ rnd, Easy.get_easy_move rnd block_board = Ok (Some 2%nat).
Proof.
  assert (Hlen : (9 ≤ length block_board)%nat) by (simpl; lia).
  apply (proj2 (easy_move_is_any_empty_cell block_board Hlen) 2%nat).
  - lia.
  - reflexivity.
Defined.

Lemma medium_move_wins_else_blocks_witness :
  ∃ r, Medium.get_medium_move 0 block_board = Ok r ∧
       match r with
       | None => ∀ i, (i < 9)%nat → block_board !! i ≠ Some None
       | Some m => (m < 9)%nat ∧ block_board !! m = Some None
       end.
Proof.
  destruct (medium_move_wins_else_blocks 0 block_board) as (r & Hr & Hm).
  - simpl. lia.
  - exists r. split; [exact Hr|].
    destruct r as [m|]; [|exact Hm].
    destruct Hm as (Hm & Hcell & _). split; [exact Hm|exact Hcell].
Defined.

Lemma standard_opponents_moves_accepted_witness :
  ∃ m g',
    Hard.get_hard_move (TicTacToeGame.get_board_copy TicTacToeGame.reset)
    = Ok (Some m, TicTacToeGame.get_board_copy TicTacToeGame.reset) ∧
    TicTacToeGame.make_move TicTacToeGame.reset (Z.of_nat m) = Ok (true, g').
Proof.
  apply (standard_opponents_moves_accepted 0 TicTacToeGame.reset).
  - apply TicTacToeGame.reachable_reset.
  - reflexivity.
Defined.

Lemma hard_move_first_best_witness :
  ∃ empty,
    empty_cells block_board = Ok empty ∧ StronglySorted lt empty.
Proof.
  destruct (hard_move_first_best block_board) as (empty & He & Hs & _).
  - simpl. lia.
  - exists empty. split; [exact He|exact Hs].
Defined.

Lemma minimax_score_bounds_witness :
  ∃ z, Hard.minimax 10 win_over_block_board 0 false
       = Ok (Fin z, win_over_block_board) ∧
       0 - 10 ≤ z ≤ 10 - 0.
Proof.
  apply (minimax_score_bounds 10 win_over_block_board 0 false).
  - reflexivity.
  - vm_compute. discriminate.
  - vm_compute. lia.
Defined.

Lemma hard_move_takes_win_witness :
  ∃ m, Hard.get_hard_move win_over_block_board
       = Ok (Some m, win_over_block_board) ∧
       win_over_block_board !! m = Some None ∧
       check_winner (<[m:=Some O]> win_over_block_board) O = Ok true.
Proof.
  apply (hard_move_takes_win win_over_block_board).
  - reflexivity.
  - exists 5%nat. split; reflexivity.
Defined.

Lemma easy_no_draw_move_playable_witness :
  (((2 < 9)%nat ∧ threat_board !! 2%nat = Some None) ∨
   ((3 ≤ length [8]%nat)%nat ∧ head [8]%nat = Some 2%nat ∧
    threat_board !! 2%nat = Some (Some O))) ∧
  threat_board !! 2%nat ≠ Some (Some X).
Proof.
  apply (easy_no_draw_move_playable 0 threat_board [0; 1]%nat [8]%nat 2).
  reflexivity.
Defined.

Lemma find_winning_move_no_draw_first_win_witness :
  ∃ available, Medium.available_moves threat_board [0; 1]%nat = Ok available.
Proof.
  destruct (find_winning_move_no_draw_first_win threat_board X [0; 1]%nat)
    as (available & Ha & _).
  - reflexivity.
  - repeat constructor; lia.
  - exists available. exact Ha.
Defined.

Lemma easy_no_draw_accepted_witness :
  ∃ m g',
    Easy.get_easy_move_no_draw 0 (NoDrawGame.get_board_copy threat_state)
      (NoDrawGame.x_moves threat_state) (NoDrawGame.o_moves threat_state)
    = Ok (Some m) ∧
    NoDrawGame.make_move threat_state (Z.of_nat m) = Ok (true, g').
Proof.
  apply (easy_no_draw_accepted 0 threat_state threat_state_reachable);
    reflexivity.
Defined.

Lemma medium_no_draw_accepted_witness :
  ∃ m g',
    Medium.get_medium_move_no_draw 0 (NoDrawGame.get_board_copy threat_state)
      (NoDrawGame.x_moves threat_state) (NoDrawGame.o_moves threat_state)
    = Ok (Some m) ∧
    NoDrawGame.make_move threat_state (Z.of_nat m) = Ok (true, g').
Proof.
  destruct (medium_no_draw_accepted 0 threat_state threat_state_reachable)
    as (m & g' & Hm & Hg' & _); [reflexivity|reflexivity|].
  exists m, g'. split; [exact Hm|exact Hg'].
Defined.

Lemma hard_no_draw_returns_candidate_witness :
  ∃ available r b' tp,
    HardNoDraw._get_available_moves_no_draw threat_board O [8]%nat
    = Ok available ∧
    HardNoDraw.get_hard_move_no_draw threat_board [0; 1]%nat [8]%nat
    = Ok (r, b', tp) ∧
    length b' = 9%nat ∧
    match r with
    | None => available = []
    | Some m => m ∈ available
    end.
Proof.
  apply (hard_no_draw_returns_candidate threat_board [0; 1]%nat [8]%nat).
  - reflexivity.
  - repeat constructor; lia.
  - repeat constructor; lia.
Defined.

Lemma hard_no_draw_fast_path_first_win_witness :
  ∃ available,
    HardNoDraw._get_available_moves_no_draw fast_path_board O [3; 4]%nat
    = Ok available.
Proof.
  destruct (hard_no_draw_fast_path_first_win fast_path_board
              [2; 6; 8]%nat [3; 4]%nat) as (available & Ha & _).
  - simpl. lia.
  - simpl. lia.
  - exists available. exact Ha.
Defined.

Lemma hard_no_draw_accepted_witness :
  ∃ m b' tp g',
    HardNoDraw.get_hard_move_no_draw (NoDrawGame.get_board_copy threat_state)
      (NoDrawGame.x_moves threat_state) (NoDrawGame.o_moves threat_state)
    = Ok (Some m, b', tp) ∧
    NoDrawGame.make_move threat_state (Z.of_nat m) = Ok (true, g').
Proof.
  destruct (hard_no_draw_accepted threat_state threat_state_reachable)
    as (m & b' & tp & g' & Hm & Hg' & _); [reflexivity|reflexivity|].
  exists m, b', tp, g'. split; [exact Hm|exact Hg'].
Defined.

Lemma oldest_mark_spec_witness :
  match NoDrawGame.get_oldest_mark no_draw_sample X with
  | None => (length (NoDrawGame._get_player_moves no_draw_sample X) < 3)%nat
  | Some i =>
      length (NoDrawGame._get_player_moves no_draw_sample X) = 3%nat ∧
      head (NoDrawGame._get_player_moves no_draw_sample X) = Some i ∧
      NoDrawGame.board no_draw_sample !! i = Some (Some X) ∧
      (NoDrawGame.game_over no_draw_sample = false →
       NoDrawGame.current_player no_draw_sample = X →
       ∃ g', NoDrawGame.make_move no_draw_sample (Z.of_nat i) = Ok (true, g') ∧
             NoDrawGame._get_player_moves g' X
             = tail (NoDrawGame._get_player_moves no_draw_sample X) ++ [i])
  end.
Proof.
  apply (oldest_mark_spec no_draw_sample X no_draw_sample_reachable).
Defined.
